(** * FlexGet feed engine ([feed.py]): entries, module cache, classification
    lists and event dispatch, embedded as executable Rocq definitions.

    Python dictionaries are finite maps ([gmap]), Python lists are lists,
    exceptions are explicit error results, and the nested re-entry of the
    dispatcher through [Feed.abort] is bounded by fuel. *)

From stdpp Require Import gmap strings list fin_maps pretty sorting.
From Stdlib Require Import ZArith Lia.

Open Scope string_scope.

(** ** Python values and exceptions *)

(** The values stored in entries, in the cache and in configuration
    scalars: [None], integers and strings. Two values are equal exactly
    when Python's [==] holds of them. The flags [True] and [False] that
    [log_once] keeps in the cache are written 1 and 0, to which they are
    equal and whose truth value they have. *)
Inductive pyval :=
| PNone
| PInt (z : Z)
| PStr (s : string).

#[global] Instance pyval_eq_dec : EqDecision pyval.
Proof. solve_decision. Defined.

(** ["%s" % v] *)
Definition py_str (v : pyval) : string :=
  match v with
  | PNone => "None"
  | PInt z => pretty z
  | PStr s => s
  end.

(** The exception classes the engine can meet. [OtherError] stands for any
    further subclass of [Exception] raised by a module. *)
Inductive pyerr :=
| KeyError (key : string)
| TypeError (msg : string)
| AttributeError (msg : string)
| ValueError (msg : string)
| OtherError (msg : string).

#[global] Instance pyerr_eq_dec : EqDecision pyerr.
Proof. solve_decision. Defined.

(** [str(e)] for an exception, as used in log messages. *)
Definition err_str (e : pyerr) : string :=
  match e with
  | KeyError k => "'" ++ k ++ "'"
  | TypeError m => m
  | AttributeError m => m
  | ValueError m => m
  | OtherError m => m
  end.

(** A call either returns a value or raises. *)
Inductive result (A : Type) :=
| Ok (a : A)
| Raise (e : pyerr).
Arguments Ok {A} a.
Arguments Raise {A} e.

(** [d.has_key(k)] *)
Definition has_key {V : Type} (k : string) (d : gmap string V) : bool :=
  match d !! k with
  | Some _ => true
  | None => false
  end.

(** [x in l] on a Python list: some element compares equal to [x]. *)
Definition py_in {A : Type} `{EqDecision A} (x : A) (l : list A) : bool :=
  existsb (fun y => bool_decide (x = y)) l.

(** [l.remove(x)]: drops the first element equal to [x]; [None] stands for
    the [ValueError] of a list without such an element. *)
Fixpoint py_remove {A : Type} `{EqDecision A} (x : A) (l : list A)
  : option (list A) :=
  match l with
  | [] => None
  | y :: l' =>
      if bool_decide (x = y) then Some l'
      else match py_remove x l' with
           | Some r => Some (y :: r)
           | None => None
           end
  end.

(** ** class Entry(dict) *)

(** An entry is a dictionary from string keys to values; two entries
    compare equal ([==], hence [in] and [remove] on lists) when they hold
    the same items. The lists of a feed hold entries as their contents:
    the runs covered are those in which an entry is not changed in place
    while a list of the feed holds it. *)
Abbreviation entry := (gmap string pyval).

Module Entry.

(** [dict.__setitem__(self, key, value)] *)
Definition dict_setitem (key : string) (value : pyval) (self : entry)
  : entry :=
  <[key := value]> self.

(** [Entry.__setitem__]: the nested [self['original_url'] = value] goes
    through the same method with a key that is not ['url'], which is the
    plain dictionary store. *)
Definition __setitem__ (key : string) (value : pyval) (self : entry)
  : entry :=
  let self1 :=
    if String.eqb key "url" then
      if negb (has_key "original_url" self)
      then dict_setitem "original_url" value self
      else self
    else self in
  dict_setitem key value self1.

(** [Entry.__init__(self, *args)] *)
Definition __init__ (args : list pyval) : entry :=
  match args with
  | [title; url] => __setitem__ "url" url (__setitem__ "title" title ∅)
  | _ => ∅
  end.

(** [self[key]] *)
Definition getitem (key : string) (self : entry) : result pyval :=
  match self !! key with
  | Some v => Ok v
  | None => Raise (KeyError key)
  end.

(** [Entry.safe_str]: the tuple is built left to right, so a missing
    title is reported before a missing url. *)
Definition safe_str (self : entry) : result string :=
  match getitem "title" self with
  | Raise e => Raise e
  | Ok title =>
      match getitem "url" self with
      | Raise e => Raise e
      | Ok url => Ok (py_str title ++ " | " ++ py_str url)
      end
  end.

(** [Entry.isvalid] *)
Definition isvalid (self : entry) : bool :=
  if negb (has_key "title" self) then false
  else if negb (has_key "url" self) then true
  else true.

(** An entry's history: the assignments [e[k] = v] made to it, oldest
    first. *)
Definition assign_all (h : list (string * pyval)) (self : entry) : entry :=
  foldl (fun e kv => __setitem__ kv.1 kv.2 e) self h.

End Entry.

(** ** class ModuleCache *)

Module ModuleCache.

(** One stored record, the dictionary
    [{'stored': date, 'days': n, 'value': v}].  The date, written by
    [strftime('%Y-%m-%d')] and read back by [split('-')], is kept as its
    day number; [value] may be missing (the case [get] guards
    against). *)
Record item := Item {
  stored : Z;
  days : Z;
  value : option pyval
}.

#[global] Instance item_eq_dec : EqDecision item.
Proof. solve_decision. Defined.

(** What a cache method hands back to its caller: a stored value, or a
    whole record. *)
Inductive pyobj :=
| ObjValue (v : pyval)
| ObjItem (it : item).

(** The cache object: [storage] is the dictionary of namespaces held in
    the session under the cache's name, [namespace] the selected one
    ([None] before [set_namespace]); [self._cache] is
    [storage[namespace]]. *)
Record t := Make {
  storage : gmap string (gmap string item);
  namespace : option string
}.

(** [ModuleCache.__init__]: [persisted] is what the session holds under
    the cache's name (empty when new). *)
Definition __init__ (persisted : gmap string (gmap string item)) : t :=
  Make persisted None.

(** [self._cache] *)
Definition _cache (self : t) : option (gmap string item) :=
  match namespace self with
  | Some ns => Some (default ∅ (storage self !! ns))
  | None => None
  end.

(** A change of [self._cache] in place is a change of
    [storage[namespace]]. *)
Definition with_cache (ns : string) (c : gmap string item) (self : t) : t :=
  Make (<[ns := c]> (storage self)) (namespace self).

Definition get_namespace (self : t) : option string := namespace self.

Definition get_namespaces (self : t) : list string :=
  (map_to_list (storage self)).*1.

Definition default_days : Z := 45.

(** [ModuleCache.store]; [today] is the day number of
    [datetime.today()]. *)
Definition store (key : string) (value : pyval) (days : Z) (today : Z)
    (self : t) : result t :=
  match namespace self, _cache self with
  | Some ns, Some c =>
      Ok (with_cache ns (<[key := Item today days (Some value)]> c) self)
  | _, _ => Raise (TypeError "'NoneType' object does not support item assignment")
  end.

(** The body of [ModuleCache.get], with [None] for "the default is
    returned": on a hit the record's date is refreshed, and a record
    without value counts as a miss. *)
Definition get_opt (key : string) (today : Z) (self : t)
  : result (option pyval * t) :=
  match namespace self, _cache self with
  | Some ns, Some c =>
      match c !! key with
      | None => Ok (None, self)
      | Some it =>
          let it' := Item today (days it) (value it) in
          Ok (value it', with_cache ns (<[key := it']> c) self)
      end
  | _, _ => Raise (AttributeError "'NoneType' object has no attribute 'get'")
  end.

(** [ModuleCache.get(key, default)] *)
Definition get (key : string) (default : pyval) (today : Z) (self : t)
  : result (pyval * t) :=
  match get_opt key today self with
  | Ok (o, self') => Ok (from_option id default o, self')
  | Raise e => Raise e
  end.

(** [ModuleCache.storedefault]: the sentinel [undefined] is the miss of
    [get_opt]. *)
Definition storedefault (key : string) (value : pyval) (days : Z)
    (today : Z) (self : t) : result (pyval * t) :=
  match get_opt key today self with
  | Raise e => Raise e
  | Ok (Some v, self') => Ok (v, self')
  | Ok (None, self') =>
      match store key value days today self' with
      | Raise e => Raise e
      | Ok self'' => get key PNone today self''
      end
  end.

(** [ModuleCache.remove]: [dict.pop(key)] returns what the dictionary
    held under [key], which is the record. *)
Definition remove (key : string) (self : t) : result (pyobj * t) :=
  match namespace self, _cache self with
  | Some ns, Some c =>
      match c !! key with
      | Some it => Ok (ObjItem it, with_cache ns (delete key c) self)
      | None => Raise (KeyError key)
      end
  | _, _ => Raise (AttributeError "'NoneType' object has no attribute 'pop'")
  end.

Definition has_key (key : string) (self : t) : result bool :=
  match _cache self with
  | Some c => Ok (has_key key c)
  | None => Raise (AttributeError "'NoneType' object has no attribute 'has_key'")
  end.

(** [delta.days > item['days']]: [now] carries a time of day and the
    stored date is a midnight, so [delta.days] is the difference of the
    two day numbers. *)
Definition expired (today : Z) (it : item) : bool :=
  bool_decide (today - stored it > days it)%Z.

(** The loop of [__purge] over the key list taken before the loop. *)
Fixpoint purge_keys (keys : list string) (today : Z) (c : gmap string item)
  : gmap string item :=
  match keys with
  | [] => c
  | key :: keys' =>
      match c !! key with
      | Some it =>
          if expired today it
          then purge_keys keys' today (delete key c)
          else purge_keys keys' today c
      | None => purge_keys keys' today c
      end
  end.

(** [ModuleCache.__purge] *)
Definition __purge (today : Z) (self : t) : t :=
  match namespace self, _cache self with
  | Some ns, Some c =>
      with_cache ns (purge_keys (map_to_list c).*1 today c) self
  | _, _ => self
  end.

(** [ModuleCache.set_namespace] *)
Definition set_namespace (name : string) (today : Z) (self : t) : t :=
  let storage1 :=
    match storage self !! name with
    | Some _ => storage self
    | None => <[name := ∅]> (storage self)
    end in
  __purge today (Make storage1 (Some name)).

End ModuleCache.

(** ** class Feed: state *)

(** A keyword's value in the feed configuration: a scalar, or a mapping.
    Of a mapping the engine reads the key ['priority'], an integer when
    present; the other keys belong to the module. *)
Inductive cfgval :=
| CfgScalar (v : pyval)
| CfgDict (priority : option Z) (others : gmap string pyval).

Inductive level := DEBUG | INFO | WARNING | ERROR | CRITICAL | EXCEPTION.

#[global] Instance level_eq_dec : EqDecision level.
Proof. solve_decision. Defined.

(** What a run leaves behind outside the feed object: the records handed
    to the loggers, and two marks kept for the dispatcher's calls, one
    when a module's event method is called and one when that call ends in
    an exception other than a [ModuleWarning]. *)
Inductive observed :=
| Invoked (event module : string)
| Raised (event module : string) (err : pyerr)
| Logged (lvl : level) (msg : string).

#[global] Instance observed_eq_dec : EqDecision observed.
Proof. solve_decision. Defined.

(** The attributes of a [Feed] object (the two caches are kept apart, as
    they are for a feed not itself named [_shared_]), followed by the two
    places of its surroundings it writes to: [manager_failed], the
    entries passed to [manager.add_failed] in the order of the calls (the
    manager's sink of failed entries; [manager.py] is not among the
    sources), and the observations above. *)
Record feed := MkFeed {
  name : string;
  config : gmap string cfgval;
  cache : ModuleCache.t;
  shared_cache : ModuleCache.t;
  entries : list entry;
  accepted : list entry;
  filtered : list entry;
  rejected : list entry;
  failed : list entry;
  unittest : bool;
  __abort : bool;
  __purged : nat;
  __current_event : option string;
  __current_module : option string;
  manager_failed : list entry;
  trace : list observed
}.

Definition set_caches (c sc : ModuleCache.t) (f : feed) : feed :=
  MkFeed (name f) (config f) c sc (entries f) (accepted f) (filtered f)
    (rejected f) (failed f) (unittest f) (__abort f) (__purged f)
    (__current_event f) (__current_module f) (manager_failed f) (trace f).

Definition set_entries (l : list entry) (f : feed) : feed :=
  MkFeed (name f) (config f) (cache f) (shared_cache f) l (accepted f)
    (filtered f) (rejected f) (failed f) (unittest f) (__abort f)
    (__purged f) (__current_event f) (__current_module f)
    (manager_failed f) (trace f).

Definition set_accepted (l : list entry) (f : feed) : feed :=
  MkFeed (name f) (config f) (cache f) (shared_cache f) (entries f) l
    (filtered f) (rejected f) (failed f) (unittest f) (__abort f)
    (__purged f) (__current_event f) (__current_module f)
    (manager_failed f) (trace f).

Definition set_filtered (l : list entry) (f : feed) : feed :=
  MkFeed (name f) (config f) (cache f) (shared_cache f) (entries f)
    (accepted f) l (rejected f) (failed f) (unittest f) (__abort f)
    (__purged f) (__current_event f) (__current_module f)
    (manager_failed f) (trace f).

Definition set_rejected (l : list entry) (f : feed) : feed :=
  MkFeed (name f) (config f) (cache f) (shared_cache f) (entries f)
    (accepted f) (filtered f) l (failed f) (unittest f) (__abort f)
    (__purged f) (__current_event f) (__current_module f)
    (manager_failed f) (trace f).

Definition set_failed (l : list entry) (f : feed) : feed :=
  MkFeed (name f) (config f) (cache f) (shared_cache f) (entries f)
    (accepted f) (filtered f) (rejected f) l (unittest f) (__abort f)
    (__purged f) (__current_event f) (__current_module f)
    (manager_failed f) (trace f).

Definition set_abort (b : bool) (f : feed) : feed :=
  MkFeed (name f) (config f) (cache f) (shared_cache f) (entries f)
    (accepted f) (filtered f) (rejected f) (failed f) (unittest f) b
    (__purged f) (__current_event f) (__current_module f)
    (manager_failed f) (trace f).

Definition set_purged (n : nat) (f : feed) : feed :=
  MkFeed (name f) (config f) (cache f) (shared_cache f) (entries f)
    (accepted f) (filtered f) (rejected f) (failed f) (unittest f)
    (__abort f) n (__current_event f) (__current_module f)
    (manager_failed f) (trace f).

Definition set_current (event module : string) (f : feed) : feed :=
  MkFeed (name f) (config f) (cache f) (shared_cache f) (entries f)
    (accepted f) (filtered f) (rejected f) (failed f) (unittest f)
    (__abort f) (__purged f) (Some event) (Some module)
    (manager_failed f) (trace f).

Definition set_manager_failed (l : list entry) (f : feed) : feed :=
  MkFeed (name f) (config f) (cache f) (shared_cache f) (entries f)
    (accepted f) (filtered f) (rejected f) (failed f) (unittest f)
    (__abort f) (__purged f) (__current_event f) (__current_module f)
    l (trace f).

(** Appends observations to the trace. *)
Definition observe (new : list observed) (f : feed) : feed :=
  MkFeed (name f) (config f) (cache f) (shared_cache f) (entries f)
    (accepted f) (filtered f) (rejected f) (failed f) (unittest f)
    (__abort f) (__purged f) (__current_event f) (__current_module f)
    (manager_failed f) (trace f ++ new).

(** [log.<lvl>(msg)] *)
Definition log (lvl : level) (msg : string) (f : feed) : feed :=
  observe [Logged lvl msg] f.

(** ** Modules (plug-ins) and the manager *)

(** A call on one of the feed's two caches. *)
Inductive cache_call :=
| CacheStore (key : string) (value : pyval) (days : Z)
| CacheGet (key : string) (default : pyval)
| CacheStoredefault (key : string) (value : pyval) (days : Z)
| CacheRemove (key : string).

(** What a module's event method can do with the feed it is given: the
    classification calls, [feed.entries.append], [feed._purge],
    [feed.abort], and calls on [feed.cache] or [feed.shared_cache]. The
    [reason] arguments of accept, filter, reject and fail only reach
    [verbose_details], which prints, and are left out. *)
Inductive api_call :=
| CallAccept (e : entry)
| CallFilter (e : entry)
| CallReject (e : entry)
| CallFail (e : entry)
| CallAppend (e : entry)
| CallPurge
| CallAbort (silent : bool)
| CallCache (shared : bool) (c : cache_call).

(** How a module's event method ends: it returns, raises a
    [ModuleWarning], or raises another exception. [ModuleWarning] comes
    from [manager.py], which is not among the sources; of it the feed
    reads the keyword argument [log_once] and the message. *)
Inductive outcome :=
| Returned
| Warned (log_once : bool) (msg : string)
| Failed (err : pyerr).

(** An event method as the calls it makes on the feed. After each call it
    sees whether the call raised, and the feed as the call left it (what
    a call returned can be read off the feed as it was before), and goes
    on from there. *)
Inductive mprog :=
| Finish (o : outcome)
| Call (c : api_call) (k : option pyerr -> feed -> mprog).

Module Plugin.

(** [module['instance'].validator]: absent, not callable without
    arguments ([TypeError]), or a validator whose [validate] gives the
    error flag and [errors.messages]. *)
Inductive validator_kind :=
| NoValidator
| BadValidator
| Validator (validate : cfgval -> bool * list string).

(** A module as the manager registers it. [instance event] is the call
    [getattr(module['instance'], manager.event_methods[event])(feed)];
    a method that cannot be found is a program that raises at once. *)
Record t := Make {
  name : string;
  builtin : bool;
  priorities : option (gmap string Z);
  instance : string -> feed -> mprog;
  validator : validator_kind
}.

End Plugin.

Module Manager.

Record options := MkOptions {
  quiet : bool;
  details : bool;
  validate : bool;
  learn : bool
}.

(** The manager as the feed uses it ([manager.py] is not among the
    sources, so what the feed reads of it is a parameter): the ordered
    events, the registry, the options and the session's cache; with
    them the two things the feed reads from its environment, the day
    number of [datetime.today()] and the md5 hex digest. *)
Record t := Make {
  events : list string;
  get_modules_by_event : string -> list Plugin.t;
  modules : gmap string Plugin.t;
  opts : options;
  session_cache : gmap string (gmap string (gmap string ModuleCache.item));
  today : Z;
  md5_hexdigest : string -> string
}.

End Manager.

(** [bool(v)] *)
Definition py_truth (v : pyval) : bool :=
  match v with
  | PNone => false
  | PInt z => negb (Z.eqb z 0)
  | PStr s => negb (String.eqb s "")
  end.

(** [l.sort(cmp)]: the sort is stable. An element is inserted before the
    first element of the sorted rest that it does not exceed, so it stays
    ahead of the later elements that compare equal to it. *)
Fixpoint py_insert {A : Type} (cmp : A -> A -> comparison) (x : A)
    (l : list A) : list A :=
  match l with
  | [] => [x]
  | y :: l' =>
      match cmp x y with
      | Gt => y :: py_insert cmp x l'
      | _ => x :: l
      end
  end.

Fixpoint py_sort {A : Type} (cmp : A -> A -> comparison) (l : list A)
  : list A :=
  match l with
  | [] => []
  | x :: l' => py_insert cmp x (py_sort cmp l')
  end.

(** What is seen of a call that re-enters the dispatcher, when the depth
    of re-entry is bounded: the call returns, or the bound is reached
    inside it, and then the feed as it is at that moment, with all that
    was logged, called and set before. *)
Inductive partial (A : Type) :=
| Returns (a : A)
| Pending (self : feed).
Arguments Returns {A} a.
Arguments Pending {A} self.

(** ** class Feed: methods *)

Module Feed.

(** [Feed.__init__] *)
Definition __init__ (manager : Manager.t) (name : string)
    (config : gmap string cfgval) : feed :=
  let session := Manager.session_cache manager in
  MkFeed name config
    (ModuleCache.__init__ (default ∅ (session !! name)))
    (ModuleCache.__init__ (default ∅ (session !! "_shared_")))
    [] [] [] [] [] false false 0 None None [] [].

(** Evaluating [entry['title']] for a message. *)
Definition title_of (e : entry) : option pyerr :=
  match Entry.getitem "title" e with
  | Ok _ => None
  | Raise err => Some err
  end.

(** The message of [log.exception] in [__run_event]. *)
Definition unhandled_msg (keyword : string) (err : pyerr) : string :=
  "Unhandled error in module " ++ keyword ++ ": " ++ err_str err.

(** A call of [verbose_details] with the message alone. *)
Definition missing_reason : pyerr :=
  TypeError "verbose_details() takes exactly 3 arguments (2 given)".

(** [Feed.__purge]: the loop over the copy [self.entries[:]]. The
    message of [log.debug] is built before the entry is removed, and
    building it can raise. *)
Fixpoint purge_loop (copy : list entry) (sel not_in_list : list entry)
    (count : bool) (self : feed) : feed * option pyerr :=
  match copy with
  | [] => (self, None)
  | e :: copy' =>
      if py_in e sel && negb (py_in e not_in_list) then
        match Entry.safe_str e with
        | Raise err => (self, Some err)
        | Ok s =>
            let self1 := log DEBUG ("Purging entry " ++ s) self in
            match py_remove e (entries self1) with
            | None => (self1, Some (ValueError "list.remove(x): x not in list"))
            | Some l =>
                let self2 := set_entries l self1 in
                let self3 :=
                  if count then set_purged (__purged self2 + 1) self2
                  else self2 in
                purge_loop copy' sel not_in_list count self3
            end
        end
      else purge_loop copy' sel not_in_list count self
  end.

Definition __purge (sel not_in_list : list entry) (count : bool)
    (self : feed) : feed * option pyerr :=
  purge_loop (entries self) sel not_in_list count self.

(** [Feed._purge]: [count] takes its default. *)
Definition _purge (self : feed) : feed * option pyerr :=
  __purge (filtered self) (accepted self) true self.

Definition __purge_failed (self : feed) : feed * option pyerr :=
  __purge (failed self) [] false self.

(** [Feed.__purge_rejected]: [not_in_list] and [count] take their
    defaults. *)
Definition __purge_rejected (self : feed) : feed * option pyerr :=
  __purge (rejected self) [] true self.

(** [Feed.accept]. The messages for [verbose_details] are built after
    the lists have changed; for a previously filtered entry the call
    passes the message alone. *)
Definition accept (e : entry) (self : feed) : feed * option pyerr :=
  if negb (py_in e (accepted self)) then
    let self1 := set_accepted (accepted self ++ [e]) self in
    if py_in e (filtered self1) then
      match py_remove e (filtered self1) with
      | None => (self1, Some (ValueError "list.remove(x): x not in list"))
      | Some l =>
          (set_filtered l self1,
           Some (match title_of e with
                 | Some err => err
                 | None => missing_reason
                 end))
      end
    else (self1, title_of e)
  else (self, None).

(** [Feed.filter] *)
Definition filter (e : entry) (self : feed) : feed * option pyerr :=
  if negb (py_in e (filtered self)) && negb (py_in e (accepted self)) then
    (set_filtered (filtered self ++ [e]) self, title_of e)
  else (self, None).

(** [Feed.reject] *)
Definition reject (e : entry) (self : feed) : feed * option pyerr :=
  if negb (py_in e (rejected self)) then
    (set_rejected (rejected self ++ [e]) self, title_of e)
  else (self, None).

(** [Feed.fail]: the debug message is built first. *)
Definition fail (e : entry) (self : feed) : feed * option pyerr :=
  match Entry.getitem "title" e with
  | Raise err => (self, Some err)
  | Ok title =>
      let self1 :=
        log DEBUG ("Marking entry '" ++ py_str title ++ "' as failed") self in
      if negb (py_in e (failed self1)) then
        (set_manager_failed (manager_failed self1 ++ [e])
           (set_failed (failed self1 ++ [e]) self1), None)
      else (self1, None)
  end.

(** [Feed.get_input_url]: the keyword's value is an address, or a
    mapping that holds the address under ['url']. The plain
    [Exception] raised for a mapping without it is written
    [OtherError]. *)
Definition get_input_url (keyword : string) (self : feed)
  : result pyval :=
  match config self !! keyword with
  | None => Raise (KeyError keyword)
  | Some (CfgDict _ others) =>
      match others !! "url" with
      | Some url => Ok url
      | None =>
          Raise (OtherError
                   ("Input " ++ keyword ++
                    " has invalid configuration, url is missing."))
      end
  | Some (CfgScalar v) => Ok v
  end.

(** [Feed.__get_priority] *)
Definition __get_priority (module : Plugin.t) (event : string)
    (self : feed) : Z :=
  let priority :=
    match Plugin.priorities module with
    | Some ps => default 0%Z (ps !! event)
    | None => 0%Z
    end in
  match config self !! Plugin.name module with
  | Some (CfgDict (Some p) _) => p
  | _ => priority
  end.

(** [Feed.__sort_modules]: [cmp] of the two priorities. *)
Definition __sort_modules (a b : Plugin.t) (event : string) (self : feed)
  : comparison :=
  Z.compare (__get_priority a event self) (__get_priority b event self).

(** The first three statements of [__run_event]: the registry's list,
    sorted, then reversed. *)
Definition dispatch_order (modules : list Plugin.t) (event : string)
    (self : feed) : list Plugin.t :=
  rev (py_sort (fun x y => __sort_modules x y event self) modules).

Section WithManager.

Variable manager : Manager.t.

(** [Feed.__set_namespace] *)
Definition __set_namespace (name : string) (self : feed) : feed :=
  set_caches
    (ModuleCache.set_namespace name (Manager.today manager) (cache self))
    (ModuleCache.set_namespace name (Manager.today manager)
       (shared_cache self))
    self.

(** [Feed.log_once] *)
Definition log_once (s : string) (self : feed) : feed * option pyerr :=
  let key := "log-" ++ Manager.md5_hexdigest manager s in
  match ModuleCache.get key (PInt 0) (Manager.today manager)
          (shared_cache self) with
  | Raise err => (self, Some err)
  | Ok (seen, sc1) =>
      let self1 := set_caches (cache self) sc1 self in
      if py_truth seen then (self1, None)
      else
        match ModuleCache.store key (PInt 1) 30
                (Manager.today manager) sc1 with
        | Raise err => (self1, Some err)
        | Ok sc2 => (log INFO s (set_caches (cache self) sc2 self1), None)
        end
  end.

(** [Feed.verbose_progress] *)
Definition verbose_progress (s : string) (self : feed) : feed :=
  if negb (Manager.quiet (Manager.opts manager)) && negb (unittest self)
  then log INFO s self
  else self.

(** [Feed.verbose_details_entries]: the loop calls [verbose_details]
    with the message alone, so its first round raises. *)
Definition verbose_details_entries (self : feed) : option pyerr :=
  if Manager.details (Manager.opts manager) then
    match entries self with
    | [] => None
    | e :: _ =>
        Some (match title_of e with
              | Some err => err
              | None => missing_reason
              end)
    end
  else None.

(** A call on a cache, for its effect on the cache and the exception
    it may raise. *)
Definition run_cache_call (c : cache_call) (mc : ModuleCache.t)
  : ModuleCache.t * option pyerr :=
  let today := Manager.today manager in
  match c with
  | CacheStore key value days =>
      match ModuleCache.store key value days today mc with
      | Ok mc' => (mc', None)
      | Raise err => (mc, Some err)
      end
  | CacheGet key default =>
      match ModuleCache.get key default today mc with
      | Ok (_, mc') => (mc', None)
      | Raise err => (mc, Some err)
      end
  | CacheStoredefault key value days =>
      match ModuleCache.storedefault key value days today mc with
      | Ok (_, mc') => (mc', None)
      | Raise err => (mc, Some err)
      end
  | CacheRemove key =>
      match ModuleCache.remove key mc with
      | Ok (_, mc') => (mc', None)
      | Raise err => (mc, Some err)
      end
  end.

Section Dispatch.

(** The dispatcher as [abort] re-enters it. *)
Variable run_event : string -> feed -> option (feed * option pyerr).

(** [Feed.abort] *)
Definition abort (silent : bool) (self : feed)
  : option (feed * option pyerr) :=
  let self1 :=
    if negb (__abort self) && negb silent
    then log INFO ("Aborting feed " ++ name self) self
    else self in
  run_event "abort" (set_abort true self1).

Definition do_call (c : api_call) (self : feed)
  : option (feed * option pyerr) :=
  match c with
  | CallAccept e => Some (accept e self)
  | CallFilter e => Some (filter e self)
  | CallReject e => Some (reject e self)
  | CallFail e => Some (fail e self)
  | CallAppend e => Some (set_entries (entries self ++ [e]) self, None)
  | CallPurge => Some (_purge self)
  | CallAbort silent => abort silent self
  | CallCache false c =>
      let '(mc, r) := run_cache_call c (cache self) in
      Some (set_caches mc (shared_cache self) self, r)
  | CallCache true c =>
      let '(mc, r) := run_cache_call c (shared_cache self) in
      Some (set_caches (cache self) mc self, r)
  end.

(** Running an event method against the feed. *)
Fixpoint run_module (p : mprog) (self : feed)
  : option (feed * outcome) :=
  match p with
  | Finish o => Some (self, o)
  | Call c k =>
      match do_call c self with
      | None => None
      | Some (self1, r) => run_module (k r self1) self1
      end
  end.

(** The [except] clauses of [__run_event]. *)
Definition handle (event keyword : string) (o : outcome) (self : feed)
  : option (feed * option pyerr) :=
  match o with
  | Returned => Some (self, None)
  | Warned true msg => Some (log_once msg self)
  | Warned false msg => Some (log WARNING msg self, None)
  | Failed err =>
      abort false
        (log EXCEPTION (unhandled_msg keyword err)
           (observe [Raised event keyword err] self))
  end.

(** The loop of [__run_event] over the sorted modules. *)
Fixpoint run_modules (event : string) (modules : list Plugin.t)
    (self : feed) : option (feed * option pyerr) :=
  match modules with
  | [] => Some (self, None)
  | module :: modules' =>
      let keyword := Plugin.name module in
      if has_key keyword (config self) || Plugin.builtin module then
        let self1 := __set_namespace keyword self in
        let self2 := set_current event keyword self1 in
        let self3 := observe [Invoked event keyword] self2 in
        match run_module (Plugin.instance module event self3) self3 with
        | None => None
        | Some (self4, o) =>
            match handle event keyword o self4 with
            | None => None
            | Some (self5, Some err) => Some (self5, Some err)
            | Some (self5, None) =>
                match __purge_rejected self5 with
                | (self6, Some err) => Some (self6, Some err)
                | (self6, None) =>
                    match __purge_failed self6 with
                    | (self7, Some err) => Some (self7, Some err)
                    | (self7, None) =>
                        if __abort self7 then Some (self7, None)
                        else run_modules event modules' self7
                    end
                end
            end
        end
      else run_modules event modules' self
  end.

End Dispatch.

(** [Feed.__run_event]. The fuel bounds how deep [abort] re-enters the
    dispatcher; [None] is a run that exhausts it. *)
Fixpoint __run_event (fuel : nat) (event : string) (self : feed)
  : option (feed * option pyerr) :=
  match fuel with
  | O => None
  | S fuel' =>
      run_modules (__run_event fuel') event
        (dispatch_order (Manager.get_modules_by_event manager event)
           event self)
        self
  end.

(** One round of the loop of [validate]. *)
Definition validate_keyword (keyword : string) (acc : feed * list string)
  : feed * list string :=
  let '(self, validate_errors) := acc in
  match Manager.modules manager !! keyword with
  | None =>
      (self,
       (validate_errors ++
          [("Unknown keyword '" ++ keyword ++ "'")%string])%list)
  | Some module =>
      match Plugin.validator module with
      | Plugin.NoValidator =>
          (log WARNING
             ("Used module " ++ keyword ++
              " does not support validating. Please notify author!") self,
           validate_errors)
      | Plugin.BadValidator =>
          (log CRITICAL ("invalid validator method in module " ++ keyword)
             self,
           validate_errors)
      | Plugin.Validator validate =>
          match config self !! keyword with
          | None => (self, validate_errors)
          | Some c =>
              let '(errors, messages) := validate c in
              if errors then
                (self,
                 (validate_errors ++
                    map (fun msg => (keyword ++ " " ++ msg)%string) messages)%list)
              else (self, validate_errors)
          end
      end
  end.

(** [Feed.validate] *)
Definition validate (fuel : nat) (self : feed)
  : option (feed * list string * option pyerr) :=
  let '(self1, validate_errors) :=
    foldl (fun acc keyword => validate_keyword keyword acc) (self, [])
      (map_to_list (config self)).*1 in
  match validate_errors with
  | [] => Some (self1, validate_errors, None)
  | _ :: _ =>
      let self2 :=
        log CRITICAL ("Feed '" ++ name self1 ++ "' has configuration errors:")
          self1 in
      let self3 := foldl (fun s error => log ERROR error s) self2
                     validate_errors in
      match abort (__run_event fuel) false self3 with
      | None => None
      | Some (self4, r) => Some (self4, validate_errors, r)
      end
  end.

(** The messages after an event of [execute]. *)
Definition progress (event : string) (self : feed)
  : feed * option pyerr :=
  let '(self1, r) :=
    if String.eqb event "input" then
      match verbose_details_entries self with
      | Some err => (self, Some err)
      | None =>
          match entries self with
          | [] =>
              (verbose_progress
                 ("Feed " ++ name self ++
                  " didn't produce any entries. This is likely to be miss configured or non-functional input.")
                 self, None)
          | _ :: _ =>
              (verbose_progress
                 ("Feed " ++ name self ++ " produced " ++
                  pretty (length (entries self)) ++ " entries.")
                 self, None)
          end
      end
    else (self, None) in
  match r with
  | Some err => (self1, Some err)
  | None =>
      if String.eqb event "filter" then
        (verbose_progress
           ("Feed " ++ name self1 ++ " filtered " ++
            pretty (__purged self1) ++ " entries (" ++
            pretty (length (entries self1)) ++ " remains).")
           self1, None)
      else (self1, None)
  end.

(** The keywords logged and skipped when learning. *)
Definition log_not_executed (event : string) (self : feed) : feed :=
  foldl
    (fun s module =>
       if has_key (Plugin.name module) (config s) then
         log INFO
           ("Feed " ++ name s ++ " keyword " ++ Plugin.name module ++
            " is not executed because of learn/reset.") s
       else s)
    self (Manager.get_modules_by_event manager event).

(** The loop of [execute] over [manager.events]. *)
Fixpoint run_events (fuel : nat) (events : list string) (self : feed)
  : option (feed * option pyerr) :=
  match events with
  | [] => Some (self, None)
  | event :: events' =>
      if Manager.learn (Manager.opts manager) &&
         (String.eqb event "download" || String.eqb event "output")
      then run_events fuel events' (log_not_executed event self)
      else
        match __run_event fuel event self with
        | None => None
        | Some (self1, Some err) => Some (self1, Some err)
        | Some (self1, None) =>
            match _purge self1 with
            | (self2, Some err) => Some (self2, Some err)
            | (self2, None) =>
                match progress event self2 with
                | (self3, Some err) => Some (self3, Some err)
                | (self3, None) =>
                    if __abort self3 then Some (self3, None)
                    else run_events fuel events' self3
                end
            end
        end
  end.

(** [Feed.execute] *)
Definition execute (fuel : nat) (self : feed)
  : option (feed * option pyerr) :=
  match validate fuel self with
  | None => None
  | Some (self1, errors, Some err) => Some (self1, Some err)
  | Some (self1, errors, None) =>
      if __abort self1 then Some (self1, None)
      else if Manager.validate (Manager.opts manager) &&
              bool_decide (errors = [])
      then Some (self1, None)
      else run_events fuel (Manager.events manager) self1
  end.

(** [Feed.terminate] *)
Definition terminate (fuel : nat) (self : feed)
  : option (feed * option pyerr) :=
  if __abort self then Some (self, None)
  else __run_event fuel "terminate" self.

(** *** A run as far as it gets

    The dispatcher once more, line by line as above, for the runs
    that do not return: where [__run_event] above gives [None] for a
    run that exhausts the fuel, these keep the feed that the run has
    reached by then, and every caller hands it on unchanged. *)

Section DispatchSoFar.

Variable run_event : string -> feed -> partial (feed * option pyerr).

(** [Feed.abort] *)
Definition abort_so_far (silent : bool) (self : feed)
  : partial (feed * option pyerr) :=
  let self1 :=
    if negb (__abort self) && negb silent
    then log INFO ("Aborting feed " ++ name self) self
    else self in
  run_event "abort" (set_abort true self1).

Definition do_call_so_far (c : api_call) (self : feed)
  : partial (feed * option pyerr) :=
  match c with
  | CallAccept e => Returns (accept e self)
  | CallFilter e => Returns (filter e self)
  | CallReject e => Returns (reject e self)
  | CallFail e => Returns (fail e self)
  | CallAppend e => Returns (set_entries (entries self ++ [e]) self, None)
  | CallPurge => Returns (_purge self)
  | CallAbort silent => abort_so_far silent self
  | CallCache false c =>
      let '(mc, r) := run_cache_call c (cache self) in
      Returns (set_caches mc (shared_cache self) self, r)
  | CallCache true c =>
      let '(mc, r) := run_cache_call c (shared_cache self) in
      Returns (set_caches (cache self) mc self, r)
  end.

Fixpoint run_module_so_far (p : mprog) (self : feed)
  : partial (feed * outcome) :=
  match p with
  | Finish o => Returns (self, o)
  | Call c k =>
      match do_call_so_far c self with
      | Pending self1 => Pending self1
      | Returns (self1, r) => run_module_so_far (k r self1) self1
      end
  end.

(** The [except] clauses of [__run_event]. *)
Definition handle_so_far (event keyword : string) (o : outcome)
    (self : feed) : partial (feed * option pyerr) :=
  match o with
  | Returned => Returns (self, None)
  | Warned true msg => Returns (log_once msg self)
  | Warned false msg => Returns (log WARNING msg self, None)
  | Failed err =>
      abort_so_far false
        (log EXCEPTION (unhandled_msg keyword err)
           (observe [Raised event keyword err] self))
  end.

(** The loop of [__run_event] over the sorted modules. *)
Fixpoint run_modules_so_far (event : string) (modules : list Plugin.t)
    (self : feed) : partial (feed * option pyerr) :=
  match modules with
  | [] => Returns (self, None)
  | module :: modules' =>
      let keyword := Plugin.name module in
      if has_key keyword (config self) || Plugin.builtin module then
        let self1 := __set_namespace keyword self in
        let self2 := set_current event keyword self1 in
        let self3 := observe [Invoked event keyword] self2 in
        match run_module_so_far (Plugin.instance module event self3)
                self3 with
        | Pending self4 => Pending self4
        | Returns (self4, o) =>
            match handle_so_far event keyword o self4 with
            | Pending self5 => Pending self5
            | Returns (self5, Some err) => Returns (self5, Some err)
            | Returns (self5, None) =>
                match __purge_rejected self5 with
                | (self6, Some err) => Returns (self6, Some err)
                | (self6, None) =>
                    match __purge_failed self6 with
                    | (self7, Some err) => Returns (self7, Some err)
                    | (self7, None) =>
                        if __abort self7 then Returns (self7, None)
                        else run_modules_so_far event modules' self7
                    end
                end
            end
        end
      else run_modules_so_far event modules' self
  end.

End DispatchSoFar.

(** [Feed.__run_event], to the depth [fuel] of re-entry through
    [abort]. *)
Fixpoint __run_event_so_far (fuel : nat) (event : string) (self : feed)
  : partial (feed * option pyerr) :=
  match fuel with
  | O => Pending self
  | S fuel' =>
      run_modules_so_far (__run_event_so_far fuel') event
        (dispatch_order (Manager.get_modules_by_event manager event)
           event self)
        self
  end.

(** [Feed.validate] *)
Definition validate_so_far (fuel : nat) (self : feed)
  : partial (feed * list string * option pyerr) :=
  let '(self1, validate_errors) :=
    foldl (fun acc keyword => validate_keyword keyword acc) (self, [])
      (map_to_list (config self)).*1 in
  match validate_errors with
  | [] => Returns (self1, validate_errors, None)
  | _ :: _ =>
      let self2 :=
        log CRITICAL ("Feed '" ++ name self1 ++ "' has configuration errors:")
          self1 in
      let self3 := foldl (fun s error => log ERROR error s) self2
                     validate_errors in
      match abort_so_far (__run_event_so_far fuel) false self3 with
      | Pending self4 => Pending self4
      | Returns (self4, r) => Returns (self4, validate_errors, r)
      end
  end.

(** The loop of [execute] over [manager.events]. *)
Fixpoint run_events_so_far (fuel : nat) (events : list string)
    (self : feed) : partial (feed * option pyerr) :=
  match events with
  | [] => Returns (self, None)
  | event :: events' =>
      if Manager.learn (Manager.opts manager) &&
         (String.eqb event "download" || String.eqb event "output")
      then run_events_so_far fuel events' (log_not_executed event self)
      else
        match __run_event_so_far fuel event self with
        | Pending self1 => Pending self1
        | Returns (self1, Some err) => Returns (self1, Some err)
        | Returns (self1, None) =>
            match _purge self1 with
            | (self2, Some err) => Returns (self2, Some err)
            | (self2, None) =>
                match progress event self2 with
                | (self3, Some err) => Returns (self3, Some err)
                | (self3, None) =>
                    if __abort self3 then Returns (self3, None)
                    else run_events_so_far fuel events' self3
                end
            end
        end
  end.

(** [Feed.execute] *)
Definition execute_so_far (fuel : nat) (self : feed)
  : partial (feed * option pyerr) :=
  match validate_so_far fuel self with
  | Pending self1 => Pending self1
  | Returns (self1, errors, Some err) => Returns (self1, Some err)
  | Returns (self1, errors, None) =>
      if __abort self1 then Returns (self1, None)
      else if Manager.validate (Manager.opts manager) &&
              bool_decide (errors = [])
      then Returns (self1, None)
      else run_events_so_far fuel (Manager.events manager) self1
  end.

(** [Feed.terminate] *)
Definition terminate_so_far (fuel : nat) (self : feed)
  : partial (feed * option pyerr) :=
  if __abort self then Returns (self, None)
  else __run_event_so_far fuel "terminate" self.

End WithManager.

End Feed.

(** ** Sorting by an integer key *)

(** [cmp] of the keys of two elements. *)
Definition by_key {A : Type} (key : A -> Z) (x y : A) : comparison :=
  Z.compare (key x) (key y).

(** ** Runs of the feed operations *)

(** The operations that change the lists of a feed: the calls a module
    makes, and the purges the dispatcher runs after each module and
    [execute] after each event. *)
Inductive op :=
| OpAccept (e : entry)
| OpFilter (e : entry)
| OpReject (e : entry)
| OpFail (e : entry)
| OpAppend (e : entry)
| OpPurge
| OpPurgeRejected
| OpPurgeFailed.

#[global] Instance op_eq_dec : EqDecision op.
Proof. solve_decision. Defined.

(** The feed as an operation leaves it, whether it returns or raises. *)
Definition step (o : op) (self : feed) : feed :=
  match o with
  | OpAccept e => (Feed.accept e self).1
  | OpFilter e => (Feed.filter e self).1
  | OpReject e => (Feed.reject e self).1
  | OpFail e => (Feed.fail e self).1
  | OpAppend e => set_entries (entries self ++ [e]) self
  | OpPurge => (Feed._purge self).1
  | OpPurgeRejected => (Feed.__purge_rejected self).1
  | OpPurgeFailed => (Feed.__purge_failed self).1
  end.

Definition steps (ops : list op) (self : feed) : feed :=
  foldl (fun s o => step o s) self ops.

(** The lists other than [entries] *)
Definition same_lists (a b : feed) : Prop :=
  accepted b = accepted a /\ filtered b = filtered a /\
  rejected b = rejected a /\ failed b = failed a /\
  manager_failed b = manager_failed a.

(** The entries a purge removes: those in [sel] and not in
    [not_in_list]. *)
Definition selected (sel not_in_list : list entry) (x : entry) : Prop :=
  x ∈ sel /\ x ∉ not_in_list.

#[global] Instance selected_dec (sel not_in_list : list entry) (x : entry) :
  Decision (selected sel not_in_list x).
Proof. unfold selected. apply _. Defined.

(** The invariant of the lists: no entry is filtered twice, none is both
    filtered and accepted, and the entries handed to [manager.add_failed]
    are the failed ones, each once. *)
Definition wf (s : feed) : Prop :=
  NoDup (filtered s) /\
  (forall x, x ∈ filtered s -> x ∉ accepted s) /\
  manager_failed s = failed s /\
  NoDup (failed s).

(** Two feeds with the same lists and purge counter *)
Definition lists_eq (a b : feed) : Prop :=
  entries a = entries b /\ accepted a = accepted b /\
  filtered a = filtered b /\ rejected a = rejected b /\
  failed a = failed b /\ manager_failed a = manager_failed b /\
  __purged a = __purged b.

(** The lists of [s'] are those of [s] after some sequence of
    operations. *)
Definition reaches (s s' : feed) : Prop :=
  exists ops, lists_eq (steps ops s) s'.

(** ** Observations of a run *)

Definition is_log (o : observed) : Prop :=
  match o with
  | Logged _ _ => True
  | _ => False
  end.

(** Only methods of the abort event are called. *)
Definition abort_only (tr : list observed) : Prop :=
  forall event module, Invoked event module ∈ tr -> event = "abort".

Definition has_raise (tr : list observed) : Prop :=
  exists event module err, Raised event module err ∈ tr.

(** After every exception of a module, the exception is logged and only
    methods of the abort event are called. *)
Fixpoint settled (tr : list observed) : Prop :=
  match tr with
  | [] => True
  | o :: tr' =>
      match o with
      | Raised _ module err =>
          Logged EXCEPTION (Feed.unhandled_msg module err) ∈ tr' /\
          abort_only tr'
      | _ => True
      end /\ settled tr'
  end.

(** A part of a run that calls no module and leaves the abort flag as it
    is: it only logs. *)
Definition quiet (s s' : feed) : Prop :=
  __abort s' = __abort s /\
  exists new, trace s' = (trace s ++ new)%list /\ Forall is_log new.

(** A part of a run, from [s] to [s'], that adds [new] to the trace. *)
Definition tr_ok (s s' : feed) (new : list observed) : Prop :=
  trace s' = (trace s ++ new)%list /\
  settled new /\
  (__abort s = true -> __abort s' = true) /\
  (has_raise new -> __abort s' = true).

Definition tr_abort (s s' : feed) (new : list observed) : Prop :=
  tr_ok s s' new /\ abort_only new.

(** A part of a run in which only methods of the abort event are
    called. *)
Definition aborting (s s' : feed) : Prop := exists new, tr_abort s s' new.

(** Any part of a run *)
Definition running (s s' : feed) : Prop := exists new, tr_ok s s' new.

(** An event method that neither calls [abort] nor ends in an exception
    other than a warning, whatever its calls return. *)
Fixpoint calm (p : mprog) : Prop :=
  match p with
  | Finish o => forall err, o <> Failed err
  | Call c k =>
      (forall silent, c <> CallAbort silent) /\ forall r s, calm (k r s)
  end.

(** ** Runs that need not return *)

(** The result of a call that returned. *)
Definition returned {A : Type} (u : partial A) : option A :=
  match u with
  | Returns a => Some a
  | Pending _ => None
  end.

(** The feed a call has reached: the one it returned with, or the one it
    is pending with. *)
Definition reached {A : Type} (feed_of : A -> feed) (u : partial A) : feed :=
  match u with
  | Returns a => feed_of a
  | Pending self => self
  end.

(** The feed that a run, [execute] followed by [terminate], has reached
    when it returns or when [abort] has re-entered the dispatcher to the
    depth [fuel], whichever comes first. *)
Definition run_so_far (manager : Manager.t) (fuel : nat) (self : feed)
  : feed :=
  match Feed.execute_so_far manager fuel self with
  | Pending self1 => self1
  | Returns (self1, _) =>
      reached fst (Feed.terminate_so_far manager fuel self1)
  end.

(** ** Example data *)

Definition no_options : Manager.options :=
  Manager.MkOptions false false false false.

Definition empty_manager : Manager.t :=
  Manager.Make [] (fun _ => []) ∅ no_options ∅ 730000 (fun s => s).

(** Two registered modules with the same priority. *)
Definition tie_first : Plugin.t :=
  Plugin.Make "first" true None (fun _ _ => Finish Returned)
    Plugin.NoValidator.

Definition tie_second : Plugin.t :=
  Plugin.Make "second" true None (fun _ _ => Finish Returned)
    Plugin.NoValidator.

Definition entry_a : entry := Entry.__init__ [PStr "a"; PStr "http://x/a"].
Definition entry_b : entry := Entry.__init__ [PStr "b"; PStr "http://x/b"].

(** An entry with a title and no url. *)
Definition entry_no_url : entry := Entry.__setitem__ "title" (PStr "c") ∅.

(** A manager with an input module, two filter modules of which the one
    with the higher priority raises, a module for the abort event and an
    output module. *)
Definition rss_module : Plugin.t :=
  Plugin.Make "rss" false None
    (fun event _ =>
       if String.eqb event "input" then
         Call (CallAppend entry_a)
           (fun _ _ => Call (CallAppend entry_b) (fun _ _ => Finish Returned))
       else Finish Returned)
    Plugin.NoValidator.

Definition broken_module : Plugin.t :=
  Plugin.Make "broken" true (Some {["filter" := 10%Z]})
    (fun _ _ =>
       Call (CallFilter entry_a)
         (fun _ _ => Finish (Failed (OtherError "boom"))))
    Plugin.NoValidator.

Definition accept_module : Plugin.t :=
  Plugin.Make "accept_all" true None
    (fun _ _ => Call (CallAccept entry_a) (fun _ _ => Finish Returned))
    Plugin.NoValidator.

Definition notify_module : Plugin.t :=
  Plugin.Make "notify" true None (fun _ _ => Finish Returned)
    Plugin.NoValidator.

Definition download_module : Plugin.t :=
  Plugin.Make "download" true None (fun _ _ => Finish Returned)
    Plugin.NoValidator.

Definition demo_manager : Manager.t :=
  Manager.Make ["input"; "filter"; "output"]
    (fun event =>
       if String.eqb event "input" then [rss_module]
       else if String.eqb event "filter" then [accept_module; broken_module]
       else if String.eqb event "output" then [download_module]
       else if String.eqb event "abort" then [notify_module]
       else if String.eqb event "terminate" then [notify_module]
       else [])
    (list_to_map [("rss", rss_module); ("broken", broken_module);
                  ("accept_all", accept_module); ("notify", notify_module);
                  ("download", download_module)])
    no_options ∅ 730000 (fun s => s).

Definition demo_feed : feed :=
  Feed.__init__ demo_manager "demo" {["rss" := CfgScalar (PStr "http://x/rss")]}.

(** The run of [demo_feed]: [execute], then [terminate]. *)
Definition demo_after_execute : feed :=
  from_option fst demo_feed (Feed.execute demo_manager 3 demo_feed).

Definition demo_after_terminate : feed :=
  from_option fst demo_after_execute
    (Feed.terminate demo_manager 3 demo_after_execute).

(** Its trace, before and after the exception of the module "broken". *)
Definition demo_pre : list observed :=
  [Logged WARNING
     "Used module rss does not support validating. Please notify author!";
   Invoked "input" "rss";
   Logged INFO "Feed demo produced 2 entries.";
   Invoked "filter" "broken"].

Definition demo_post : list observed :=
  [Logged EXCEPTION "Unhandled error in module broken: boom";
   Logged INFO "Aborting feed demo";
   Invoked "abort" "notify";
   Logged DEBUG "Purging entry a | http://x/a";
   Logged INFO "Feed demo filtered 1 entries (1 remains)."].

(** A manager whose filter event has a module that filters [entry_a] and,
    with a lower configured priority, one that accepts it. *)
Definition filter_module : Plugin.t :=
  Plugin.Make "regexp" false (Some {["filter" := 1%Z]})
    (fun _ _ => Call (CallFilter entry_a) (fun _ _ => Finish Returned))
    Plugin.NoValidator.

Definition rescue_module : Plugin.t :=
  Plugin.Make "series" false (Some {["filter" := 3%Z]})
    (fun _ _ =>
       Call (CallAccept entry_a)
         (fun r _ =>
            match r with
            | Some err => Finish (Failed err)
            | None => Finish Returned
            end))
    Plugin.NoValidator.

Definition rescue_manager : Manager.t :=
  Manager.Make ["input"; "filter"; "output"]
    (fun event =>
       if String.eqb event "input" then [rss_module]
       else if String.eqb event "filter" then [rescue_module; filter_module]
       else [])
    (list_to_map [("rss", rss_module); ("regexp", filter_module);
                  ("series", rescue_module)])
    no_options ∅ 730000 (fun s => s).

Definition rescue_feed : feed :=
  Feed.__init__ rescue_manager "rescue"
    (list_to_map [("rss", CfgScalar (PStr "http://x/rss"));
                  ("regexp", CfgDict (Some 5%Z) ∅);
                  ("series", CfgScalar PNone)]).

Definition rescue_after_execute : feed :=
  from_option fst rescue_feed (Feed.execute rescue_manager 3 rescue_feed).

(** A manager whose filter module raises and whose module for the abort
    event rejects [entry_b] and raises, unless [entry_b] is rejected
    already: it raises the first time it is called. *)
Definition flaky_module : Plugin.t :=
  Plugin.Make "flaky" true None
    (fun _ s =>
       if py_in entry_b (rejected s) then Finish Returned
       else Call (CallReject entry_b)
              (fun _ _ => Finish (Failed (OtherError "again"))))
    Plugin.NoValidator.

Definition flaky_manager : Manager.t :=
  Manager.Make ["filter"]
    (fun event =>
       if String.eqb event "filter" then [broken_module]
       else if String.eqb event "abort" then [flaky_module]
       else [])
    (list_to_map [("broken", broken_module); ("flaky", flaky_module)])
    no_options ∅ 730000 (fun s => s).

Definition flaky_feed : feed := Feed.__init__ flaky_manager "flaky" ∅.

Definition flaky_after_execute : feed :=
  from_option fst flaky_feed (Feed.execute flaky_manager 3 flaky_feed).

(** Its trace, before and after the exception of the module "flaky". *)
Definition flaky_pre : list observed :=
  [Invoked "filter" "broken";
   Raised "filter" "broken" (OtherError "boom");
   Logged EXCEPTION "Unhandled error in module broken: boom";
   Logged INFO "Aborting feed flaky";
   Invoked "abort" "flaky"].

Definition flaky_post : list observed :=
  [Logged EXCEPTION "Unhandled error in module flaky: again";
   Invoked "abort" "flaky";
   Logged INFO "Feed flaky filtered 0 entries (0 remains)."].

(** A manager whose module for the abort event raises every time: a run
    that aborts does not return. *)
Definition alarm_module : Plugin.t :=
  Plugin.Make "alarm" true None
    (fun _ _ => Finish (Failed (OtherError "no mail")))
    Plugin.NoValidator.

Definition alarm_manager : Manager.t :=
  Manager.Make ["filter"; "output"]
    (fun event =>
       if String.eqb event "filter" then [broken_module]
       else if String.eqb event "output" then [download_module]
       else if String.eqb event "abort" then [alarm_module]
       else [])
    (list_to_map [("broken", broken_module); ("alarm", alarm_module);
                  ("download", download_module)])
    no_options ∅ 730000 (fun s => s).

Definition alarm_feed : feed := Feed.__init__ alarm_manager "alarm" ∅.

(** Its trace after the exception of the module "broken", when [abort]
    has re-entered the dispatcher three times. *)
Definition alarm_post : list observed :=
  [Logged EXCEPTION "Unhandled error in module broken: boom";
   Logged INFO "Aborting feed alarm";
   Invoked "abort" "alarm";
   Raised "abort" "alarm" (OtherError "no mail");
   Logged EXCEPTION "Unhandled error in module alarm: no mail";
   Invoked "abort" "alarm";
   Raised "abort" "alarm" (OtherError "no mail");
   Logged EXCEPTION "Unhandled error in module alarm: no mail"].

(** ** Records of the cache *)

(** The record kept under [key] in the namespace [ns]. *)
Definition record (ns key : string) (self : ModuleCache.t)
  : option ModuleCache.item :=
  ModuleCache.storage self !! ns ≫= (.!! key).

(** A record after a read at day [today]. *)
Definition touched (today : Z) (it : ModuleCache.item) : ModuleCache.item :=
  ModuleCache.Item today (ModuleCache.days it) (ModuleCache.value it).

(** ** Further invariants of the lists *)

(** No list of classified entries holds an entry twice, and no entry is
    both filtered and accepted. *)
Definition tidy (s : feed) : Prop :=
  NoDup (accepted s) /\ NoDup (filtered s) /\ NoDup (rejected s) /\
  NoDup (failed s) /\ (forall x, x ∈ filtered s -> x ∉ accepted s).

(** No rejected and no failed entry is left in [entries]. *)
Definition clean (s : feed) : Prop :=
  forall x, x ∈ entries s -> (x ∉ rejected s) /\ (x ∉ failed s).

(** ** The calls of a run *)

(** The test of [__run_event] for calling a module. *)
Definition enabled (cfg : gmap string cfgval) (m : Plugin.t) : bool :=
  has_key (Plugin.name m) cfg || Plugin.builtin m.

(** The registry lists, for the event [ev], a module named [m] that is
    configured or built in. *)
Definition callable (manager : Manager.t) (cfg : gmap string cfgval)
    (ev m : string) : Prop :=
  exists module,
    module ∈ Manager.get_modules_by_event manager ev /\
    Plugin.name module = m /\ enabled cfg module = true.

(** The calls of event methods in a trace, in order. *)
Definition invocations (tr : list observed) : list (string * string) :=
  omap (fun o => match o with
                 | Invoked ev m => Some (ev, m)
                 | _ => None
                 end) tr.

(** The test of [execute] for skipping an event. *)
Definition skipped (manager : Manager.t) (ev : string) : bool :=
  Manager.learn (Manager.opts manager) &&
  (String.eqb ev "download" || String.eqb ev "output").

(** What no part of a run changes. *)
Definition frame (s s' : feed) : Prop :=
  name s' = name s /\ config s' = config s /\ unittest s' = unittest s.

(** A part of a run in which every call of an event method satisfies
    [P]. *)
Definition calling (P : string -> string -> Prop) (s s' : feed) : Prop :=
  frame s s' /\
  exists new, trace s' = (trace s ++ new)%list /\
              forall ev m, Invoked ev m ∈ new -> P ev m.

(** An event method that never calls [abort]. *)
Fixpoint never_aborts (p : mprog) : Prop :=
  match p with
  | Finish _ => True
  | Call c k =>
      (forall silent, c <> CallAbort silent) /\
      forall r s, never_aborts (k r s)
  end.

(** The event methods a round of the dispatcher for [event] may call:
    those of the event itself and, through [abort], those of the abort
    event. *)
Definition called_for (manager : Manager.t) (cfg : gmap string cfgval)
    (event ev m : string) : Prop :=
  (ev = event \/ ev = "abort") /\ callable manager cfg ev m.

(** A part of a run that calls no module and changes neither the abort
    flag nor the feed's name, configuration and unit-test flag. *)
Definition silent (s s' : feed) : Prop := quiet s s' /\ frame s s'.

(** The message of [execute] for a configured keyword of a skipped
    event. *)
Definition not_executed_msg (feed_name keyword : string) : string :=
  "Feed " ++ feed_name ++ " keyword " ++ keyword ++
  " is not executed because of learn/reset.".

(** Whether the shared cache holds a true flag for the message of
    [log_once]. *)
Definition seen_before (manager : Manager.t) (msg : string) (s : feed)
  : bool :=
  match ModuleCache.namespace (shared_cache s) with
  | Some ns =>
      match record ns ("log-" ++ Manager.md5_hexdigest manager msg)
              (shared_cache s) with
      | Some it => py_truth (default (PInt 0) (ModuleCache.value it))
      | None => false
      end
  | None => false
  end.

(** ** Further example data *)

(** A filter module that rejects one entry and fails another. *)
Definition judge_module : Plugin.t :=
  Plugin.Make "judge" true None
    (fun _ _ =>
       Call (CallReject entry_a)
         (fun _ _ => Call (CallFail entry_b) (fun _ _ => Finish Returned)))
    Plugin.NoValidator.

(** A manager with the four events of a download run, for any
    options. *)
Definition shop_manager (o : Manager.options) : Manager.t :=
  Manager.Make ["input"; "filter"; "download"; "output"]
    (fun event =>
       if String.eqb event "input" then [rss_module]
       else if String.eqb event "filter" then [judge_module]
       else if String.eqb event "download" then [download_module]
       else if String.eqb event "output" then [notify_module]
       else if String.eqb event "abort" then [notify_module]
       else [])
    (list_to_map [("rss", rss_module); ("judge", judge_module);
                  ("download", download_module); ("notify", notify_module)])
    o ∅ 730000 (fun s => s).

Definition shop_feed (o : Manager.options) : feed :=
  Feed.__init__ (shop_manager o) "shop"
    (list_to_map [("rss", CfgScalar (PStr "http://x/rss"));
                  ("download", CfgDict None {["url" := PStr "/tmp"]})]).

Definition shop_after_execute (o : Manager.options) : feed :=
  from_option fst (shop_feed o)
    (Feed.execute (shop_manager o) 3 (shop_feed o)).

Definition shop_after_terminate (o : Manager.options) : feed :=
  from_option fst (shop_after_execute o)
    (Feed.terminate (shop_manager o) 3 (shop_after_execute o)).

Definition learn_options : Manager.options :=
  Manager.MkOptions false false false true.

Definition validate_options : Manager.options :=
  Manager.MkOptions false false true false.

Definition details_options : Manager.options :=
  Manager.MkOptions false true false false.

(** A feed whose configuration names a keyword that no module has. *)
Definition typo_feed : feed :=
  Feed.__init__ (shop_manager no_options) "typo"
    {["rsss" := CfgScalar (PStr "http://x/rss")]}.

Definition typo_after_execute : feed :=
  from_option fst typo_feed
    (Feed.execute (shop_manager no_options) 3 typo_feed).

(** The event methods the dispatcher has to call for an event: those of
    the registered modules that are configured or built in, in dispatch
    order. *)
Definition event_calls (manager : Manager.t) (s : feed) (ev : string)
  : list (string * string) :=
  map (fun m => (ev, Plugin.name m))
    (filter (fun m => enabled (config s) m = true)
       (Feed.dispatch_order (Manager.get_modules_by_event manager ev) ev s)).

(** * Properties *)

(** ** Entry *)

Lemma has_key_true {V : Type} (k : string) (d : gmap string V) :
  has_key k d = true <-> is_Some (d !! k).
Proof.
  unfold has_key. destruct (d !! k) as [v|]; split; intros H;
    eauto; try done.
Qed.

Lemma has_key_false {V : Type} (k : string) (d : gmap string V) :
  has_key k d = false <-> d !! k = None.
Proof. unfold has_key. by destruct (d !! k). Qed.

Lemma setitem_other (k : string) (v : pyval) (e : entry) :
  k <> "url" -> k <> "original_url" ->
  Entry.__setitem__ k v e !! "original_url" = e !! "original_url".
Proof.
  intros Hu Ho. unfold Entry.__setitem__, Entry.dict_setitem.
  apply String.eqb_neq in Hu. rewrite Hu.
  by rewrite lookup_insert_ne.
Qed.

Lemma setitem_url_first (v : pyval) (e : entry) :
  e !! "original_url" = None ->
  Entry.__setitem__ "url" v e !! "original_url" = Some v.
Proof.
  intros Hn. unfold Entry.__setitem__, Entry.dict_setitem. simpl.
  apply has_key_false in Hn. rewrite Hn. simpl.
  rewrite lookup_insert_ne; [|done]. by rewrite lookup_insert_eq.
Qed.

Lemma setitem_url_later (v : pyval) (e : entry) :
  is_Some (e !! "original_url") ->
  Entry.__setitem__ "url" v e !! "original_url" = e !! "original_url".
Proof.
  intros Hs. unfold Entry.__setitem__, Entry.dict_setitem. simpl.
  apply has_key_true in Hs. rewrite Hs. simpl.
  by rewrite lookup_insert_ne.
Qed.

Lemma assign_all_keeps (h : list (string * pyval)) (e : entry) :
  Forall (fun kv => kv.1 <> "original_url") h ->
  is_Some (e !! "original_url") ->
  Entry.assign_all h e !! "original_url" = e !! "original_url".
Proof.
  unfold Entry.assign_all. revert e.
  induction h as [|[k v] h IH]; intros e Hh Hs; [done|].
  apply Forall_cons in Hh as [Hk Hh]. simpl in *.
  assert (Entry.__setitem__ k v e !! "original_url" = e !! "original_url")
    as Hstep.
  { destruct (decide (k = "url")) as [->|Hu].
    - by apply setitem_url_later.
    - by apply setitem_other. }
  rewrite IH; [done|done|by rewrite Hstep].
Qed.

Lemma assign_all_untouched (h : list (string * pyval)) (e : entry) :
  Forall (fun kv => kv.1 <> "url" /\ kv.1 <> "original_url") h ->
  Entry.assign_all h e !! "original_url" = e !! "original_url".
Proof.
  unfold Entry.assign_all. revert e.
  induction h as [|[k v] h IH]; intros e Hh; [done|].
  apply Forall_cons in Hh as [[Hu Ho] Hh]. simpl in *.
  rewrite IH; [|done]. by apply setitem_other.
Qed.

Lemma assign_all_app (h1 h2 : list (string * pyval)) (e : entry) :
  Entry.assign_all (h1 ++ h2) e = Entry.assign_all h2 (Entry.assign_all h1 e).
Proof. unfold Entry.assign_all. apply foldl_app. Qed.

(** C6, as stated: the first value assigned to [url] is stored under
    [original_url]. It fails for an entry that was given an
    [original_url] of its own beforehand. *)
Lemma C6_counterexample :
  let h := [("original_url", PStr "http://a")] in
  Forall (fun kv => kv.1 <> "url") h /\
  Entry.assign_all (h ++ [("url", PStr "http://b")]) ∅ !! "original_url"
    <> Some (PStr "http://b").
Proof.
  split.
  - repeat constructor. simpl. discriminate.
  - vm_compute. discriminate.
Qed.

(** C6, amended: when [original_url] is not yet present at the first
    assignment to [url], the value of that assignment is stored under
    [original_url], and it stays there through every later assignment to
    [url] and to any key other than [original_url]; an assignment to
    [url] made while [original_url] is present leaves [original_url]
    unchanged; an assignment to a key other than [url] and
    [original_url] leaves [original_url] unchanged. *)
Theorem C6_original_url_captured_once :
  (forall (e0 : entry) (before after : list (string * pyval)) (v : pyval),
     e0 !! "original_url" = None ->
     Forall (fun kv => kv.1 <> "url" /\ kv.1 <> "original_url") before ->
     Forall (fun kv => kv.1 <> "original_url") after ->
     Entry.assign_all (before ++ ("url", v) :: after) e0 !! "original_url"
       = Some v) /\
  (forall (e : entry) (v : pyval),
     is_Some (e !! "original_url") ->
     Entry.__setitem__ "url" v e !! "original_url" = e !! "original_url") /\
  (forall (e : entry) (k : string) (v : pyval),
     k <> "url" -> k <> "original_url" ->
     Entry.__setitem__ k v e !! "original_url" = e !! "original_url").
Proof.
  split; [|split].
  - intros e0 before after v Hnone Hb Ha.
    rewrite assign_all_app.
    change (Entry.assign_all (("url", v) :: after) ?e)
      with (Entry.assign_all after (Entry.__setitem__ "url" v e)).
    assert (Entry.__setitem__ "url" v (Entry.assign_all before e0)
              !! "original_url" = Some v) as Hfirst.
    { apply setitem_url_first. by rewrite assign_all_untouched. }
    rewrite assign_all_keeps; [done|done|by rewrite Hfirst].
  - intros e v Hs. by apply setitem_url_later.
  - intros e k v Hu Ho. by apply setitem_other.
Qed.

Lemma C6_original_url_captured_once_witness :
  Entry.assign_all
    ([("title", PStr "t")] ++ ("url", PStr "http://a")
       :: [("url", PStr "http://b"); ("size", PInt 3)]) ∅ !! "original_url"
    = Some (PStr "http://a") /\
  Entry.__setitem__ "url" (PStr "http://c") entry_a !! "original_url"
    = entry_a !! "original_url" /\
  Entry.__setitem__ "size" (PInt 3) entry_a !! "original_url"
    = entry_a !! "original_url".
Proof.
  split; [|split].
  - apply (proj1 C6_original_url_captured_once).
    + reflexivity.
    + repeat constructor; simpl; discriminate.
    + repeat constructor; simpl; discriminate.
  - apply (proj1 (proj2 C6_original_url_captured_once)).
    exists (PStr "http://x/a"). reflexivity.
  - apply (proj2 (proj2 C6_original_url_captured_once)); discriminate.
Defined.

(** C8, as stated: [safe_str] never fails on an entry with a title. It
    raises [KeyError] when [url] is absent. *)
Lemma C8_counterexample :
  let e : entry := <["title" := PStr "Some title"]> ∅ in
  has_key "title" e = true /\
  e !! "url" = None /\
  Entry.safe_str e = Raise (KeyError "url").
Proof. vm_compute. done. Qed.

(** C8, amended: for an entry with [title] and [url], [safe_str] returns
    the text "title | url"; for an entry with [title] and without [url]
    it raises [KeyError] for ['url']. *)
Theorem C8_safe_str (e : entry) (title : pyval) :
  e !! "title" = Some title ->
  Entry.safe_str e =
    match e !! "url" with
    | Some url => Ok (py_str title ++ " | " ++ py_str url)
    | None => Raise (KeyError "url")
    end.
Proof.
  intros Ht. unfold Entry.safe_str, Entry.getitem. rewrite Ht.
  by destruct (e !! "url").
Qed.

Lemma C8_safe_str_witness :
  Entry.safe_str (Entry.__init__ [PStr "Some title"; PStr "http://x/1"])
    = Ok "Some title | http://x/1" /\
  Entry.safe_str entry_no_url = Raise (KeyError "url").
Proof.
  split.
  - exact (C8_safe_str
             (Entry.__init__ [PStr "Some title"; PStr "http://x/1"])
             (PStr "Some title") eq_refl).
  - exact (C8_safe_str entry_no_url (PStr "c") eq_refl).
Defined.

(** ** ModuleCache *)

Lemma purge_keys_lookup (keys : list string) (today : Z)
    (c : gmap string ModuleCache.item) (k : string) :
  ModuleCache.purge_keys keys today c !! k =
    match c !! k with
    | Some it =>
        if ModuleCache.expired today it && bool_decide (k ∈ keys)
        then None else Some it
    | None => None
    end.
Proof.
  revert c. induction keys as [|key keys IH]; intros c; simpl.
  - destruct (c !! k) as [it|]; [|done].
    by rewrite andb_false_r.
  - assert (ModuleCache.purge_keys keys today c !! k =
            match c !! k with
            | Some it =>
                if ModuleCache.expired today it && bool_decide (k ∈ keys)
                then None else Some it
            | None => None
            end) as Hkeep by apply IH.
    destruct (decide (k = key)) as [->|Hne].
    + destruct (c !! key) as [it|] eqn:Hc.
      * rewrite (bool_decide_eq_true_2 (key ∈ key :: keys)); [|by left].
        rewrite andb_true_r.
        destruct (ModuleCache.expired today it) eqn:He.
        -- rewrite IH. by rewrite lookup_delete_eq.
        -- by rewrite Hkeep.
      * by rewrite Hkeep.
    + assert (bool_decide (k ∈ key :: keys) = bool_decide (k ∈ keys)) as Hin.
      { apply bool_decide_ext. rewrite elem_of_cons.
        split; [by intros [?|?]|by right]. }
      destruct (c !! key) as [it|] eqn:Hc.
      * destruct (ModuleCache.expired today it) eqn:He.
        -- rewrite IH. rewrite lookup_delete_ne; [|done].
           destruct (c !! k); [|done]. by rewrite Hin.
        -- rewrite Hkeep. destruct (c !! k); [|done]. by rewrite Hin.
      * rewrite Hkeep. destruct (c !! k); [|done]. by rewrite Hin.
Qed.

(** The purge keeps a record exactly when it has not expired. *)
Lemma purge_lookup (today : Z) (self : ModuleCache.t) (ns : string)
    (c : gmap string ModuleCache.item) (k : string) :
  ModuleCache.namespace self = Some ns ->
  ModuleCache._cache self = Some c ->
  exists c',
    ModuleCache._cache (ModuleCache.__purge today self) = Some c' /\
    ModuleCache.namespace (ModuleCache.__purge today self) = Some ns /\
    c' !! k = match c !! k with
              | Some it =>
                  if ModuleCache.expired today it then None else Some it
              | None => None
              end.
Proof.
  intros Hns Hc. unfold ModuleCache.__purge. rewrite Hns, Hc.
  eexists. split; [|split].
  - unfold ModuleCache._cache, ModuleCache.with_cache. simpl.
    rewrite Hns. by rewrite lookup_insert_eq.
  - done.
  - simpl. rewrite purge_keys_lookup.
    destruct (c !! k) as [it|] eqn:Hk; [|done].
    rewrite (bool_decide_eq_true_2 (k ∈ (map_to_list c).*1)).
    + by rewrite andb_true_r.
    + apply list_elem_of_fmap. exists (k, it). split; [done|].
      by apply elem_of_map_to_list.
Qed.

Lemma set_namespace_cache (name : string) (today : Z) (self : ModuleCache.t)
    (k : string) :
  exists c',
    ModuleCache._cache (ModuleCache.set_namespace name today self) = Some c' /\
    ModuleCache.namespace (ModuleCache.set_namespace name today self)
      = Some name /\
    c' !! k =
      match default ∅ (ModuleCache.storage self !! name) !! k with
      | Some it => if ModuleCache.expired today it then None else Some it
      | None => None
      end.
Proof.
  unfold ModuleCache.set_namespace.
  set (self1 := ModuleCache.Make _ (Some name)).
  assert (ModuleCache._cache self1
          = Some (default ∅ (ModuleCache.storage self !! name))) as Hc.
  { unfold ModuleCache._cache, self1. simpl. f_equal.
    destruct (ModuleCache.storage self !! name) as [c|] eqn:Hs.
    - by rewrite Hs.
    - by rewrite lookup_insert_eq. }
  destruct (purge_lookup today self1 name _ k eq_refl Hc) as (c' & H1 & H2 & H3).
  eauto.
Qed.

Lemma store_cache (key : string) (v : pyval) (days today : Z)
    (self : ModuleCache.t) (ns : string) :
  ModuleCache.namespace self = Some ns ->
  exists self' c,
    ModuleCache._cache self = Some c /\
    ModuleCache.store key v days today self = Ok self' /\
    ModuleCache.namespace self' = Some ns /\
    ModuleCache._cache self'
      = Some (<[key := ModuleCache.Item today days (Some v)]> c).
Proof.
  intros Hns. unfold ModuleCache.store, ModuleCache._cache. rewrite Hns.
  eexists _, _. split; [done|]. split; [done|]. split; [done|].
  simpl. rewrite Hns. by rewrite lookup_insert_eq.
Qed.

Lemma get_miss (key : string) (dflt : pyval) (today : Z)
    (self : ModuleCache.t) (ns : string) (c : gmap string ModuleCache.item) :
  ModuleCache.namespace self = Some ns ->
  ModuleCache._cache self = Some c ->
  c !! key = None ->
  ModuleCache.get key dflt today self = Ok (dflt, self).
Proof.
  intros Hns Hc Hk. unfold ModuleCache.get, ModuleCache.get_opt.
  by rewrite Hns, Hc, Hk.
Qed.

Lemma get_hit (key : string) (dflt : pyval) (today : Z)
    (self : ModuleCache.t) (ns : string) (c : gmap string ModuleCache.item)
    (it : ModuleCache.item) (v : pyval) :
  ModuleCache.namespace self = Some ns ->
  ModuleCache._cache self = Some c ->
  c !! key = Some it ->
  ModuleCache.value it = Some v ->
  exists self',
    ModuleCache.get key dflt today self = Ok (v, self') /\
    ModuleCache.namespace self' = Some ns /\
    ModuleCache._cache self'
      = Some (<[key := ModuleCache.Item today (ModuleCache.days it) (Some v)]> c).
Proof.
  intros Hns Hc Hk Hv. unfold ModuleCache.get, ModuleCache.get_opt.
  rewrite Hns, Hc, Hk. simpl. rewrite Hv. simpl.
  eexists. split; [done|]. split; [done|].
  unfold ModuleCache._cache, ModuleCache.with_cache. simpl.
  rewrite Hns. by rewrite lookup_insert_eq.
Qed.

Lemma cache_storage (self : ModuleCache.t) (ns : string)
    (c : gmap string ModuleCache.item) (k : string) :
  ModuleCache.namespace self = Some ns ->
  ModuleCache._cache self = Some c ->
  default ∅ (ModuleCache.storage self !! ns) !! k = c !! k.
Proof.
  unfold ModuleCache._cache. intros -> [= <-]. done.
Qed.

(** C5: a value stored for 10 days is returned by an immediate [get];
    once the record is more than 10 days old, selecting the namespace
    evicts it and [get] returns the caller's default; the purge run by
    [set_namespace] removes exactly the records whose age in days exceeds
    their own number of days. *)
Theorem C5_store_get_expire (self : ModuleCache.t) (ns k : string)
    (v dflt : pyval) (today : Z) :
  ModuleCache.namespace self = Some ns ->
  exists self1 self2,
    ModuleCache.store k v 10 today self = Ok self1 /\
    ModuleCache.get k dflt today self1 = Ok (v, self2) /\
    (forall later : Z,
       (later - today > 10)%Z ->
       let self3 := ModuleCache.set_namespace ns later self2 in
       ModuleCache.has_key k self3 = Ok false /\
       ModuleCache.get k dflt later self3 = Ok (dflt, self3)) /\
    (forall (other : ModuleCache.t) (name : string) (now : Z) (key : string),
       exists c',
         ModuleCache._cache (ModuleCache.set_namespace name now other)
           = Some c' /\
         c' !! key =
           match default ∅ (ModuleCache.storage other !! name) !! key with
           | Some it =>
               if bool_decide (now - ModuleCache.stored it
                               > ModuleCache.days it)%Z
               then None else Some it
           | None => None
           end).
Proof.
  intros Hns.
  destruct (store_cache k v 10 today self ns Hns)
    as (self1 & c & Hc & Hstore & Hns1 & Hc1).
  destruct (get_hit k dflt today self1 ns _ _ v Hns1 Hc1
              (lookup_insert_eq _ _ _) eq_refl)
    as (self2 & Hget & Hns2 & Hc2).
  exists self1, self2. split; [done|]. split; [done|]. split.
  - intros later Hlater self3.
    destruct (set_namespace_cache ns later self2 k) as (c3 & Hc3 & Hns3 & Hk).
    rewrite (cache_storage self2 ns _ k Hns2 Hc2) in Hk.
    rewrite lookup_insert_eq in Hk.
    unfold ModuleCache.expired in Hk. simpl in Hk.
    rewrite bool_decide_eq_true_2 in Hk; [|done].
    fold self3 in Hc3, Hns3. split.
    + unfold ModuleCache.has_key. rewrite Hc3. f_equal.
      by apply has_key_false.
    + by eapply get_miss.
  - intros other name now key.
    destruct (set_namespace_cache name now other key) as (c' & H1 & _ & H3).
    exists c'. split; [done|]. exact H3.
Qed.

Lemma C5_store_get_expire_witness :
  let self := ModuleCache.set_namespace "rss" 730000 (ModuleCache.__init__ ∅) in
  exists self1 self2,
    ModuleCache.store "seen" (PStr "yes") 10 730000 self = Ok self1 /\
    ModuleCache.get "seen" PNone 730000 self1 = Ok (PStr "yes", self2) /\
    (let self3 := ModuleCache.set_namespace "rss" 730011 self2 in
     ModuleCache.has_key "seen" self3 = Ok false /\
     ModuleCache.get "seen" PNone 730011 self3 = Ok (PNone, self3)).
Proof.
  intros self.
  destruct (C5_store_get_expire self "rss" "seen" (PStr "yes") PNone 730000
              eq_refl) as (self1 & self2 & Hstore & Hget & Hlater & _).
  exists self1, self2. split; [done|]. split; [done|].
  apply Hlater. lia.
Defined.

(** C9, as stated: [remove] returns the value that was passed to
    [store]. It returns the whole record kept for the key. *)
Lemma C9_counterexample :
  let self := ModuleCache.set_namespace "rss" 730000 (ModuleCache.__init__ ∅) in
  exists self1 r self2,
    ModuleCache.store "seen" (PStr "yes") 45 730000 self = Ok self1 /\
    ModuleCache.remove "seen" self1 = Ok (r, self2) /\
    r <> ModuleCache.ObjValue (PStr "yes").
Proof.
  eexists _, _, _. split; [reflexivity|]. split; [reflexivity|].
  discriminate.
Qed.

(** C9, amended: for a key present in the selected namespace, [remove]
    deletes the key and returns the record held for it, which after a
    [store] is the record made of the date, the number of days and the
    value; for an absent key it raises [KeyError], and the cache is as it
    was. *)
Theorem C9_remove (self : ModuleCache.t) (ns key : string)
    (c : gmap string ModuleCache.item) :
  ModuleCache.namespace self = Some ns ->
  ModuleCache._cache self = Some c ->
  match c !! key with
  | Some it =>
      exists self',
        ModuleCache.remove key self = Ok (ModuleCache.ObjItem it, self') /\
        ModuleCache.namespace self' = Some ns /\
        ModuleCache._cache self' = Some (delete key c) /\
        ModuleCache.has_key key self' = Ok false
  | None => ModuleCache.remove key self = Raise (KeyError key)
  end /\
  (forall (v : pyval) (days today : Z),
     exists self1 self2,
       ModuleCache.store key v days today self = Ok self1 /\
       ModuleCache.remove key self1
         = Ok (ModuleCache.ObjItem (ModuleCache.Item today days (Some v)),
               self2) /\
       ModuleCache._cache self2 = Some (delete key c)).
Proof.
  intros Hns Hc. split.
  - unfold ModuleCache.remove. rewrite Hns, Hc.
    destruct (c !! key) as [it|] eqn:Hk; [|done].
    eexists. split; [done|]. split; [done|].
    assert (ModuleCache._cache
              (ModuleCache.with_cache ns (delete key c) self)
            = Some (delete key c)) as Hc'.
    { unfold ModuleCache._cache, ModuleCache.with_cache. simpl.
      rewrite Hns. by rewrite lookup_insert_eq. }
    split; [done|].
    unfold ModuleCache.has_key. rewrite Hc'. f_equal.
    apply has_key_false. by rewrite lookup_delete_eq.
  - intros v days today.
    destruct (store_cache key v days today self ns Hns)
      as (self1 & c0 & Hc0 & Hstore & Hns1 & Hc1).
    rewrite Hc in Hc0. injection Hc0 as <-.
    exists self1. unfold ModuleCache.remove. rewrite Hns1, Hc1.
    rewrite lookup_insert_eq. eexists. split; [done|]. split; [done|].
    unfold ModuleCache._cache, ModuleCache.with_cache. simpl.
    rewrite Hns1. rewrite lookup_insert_eq. simpl. f_equal.
    by rewrite delete_insert_eq.
Qed.

Lemma C9_remove_witness :
  let it := ModuleCache.Item 730000 45 (Some (PStr "yes")) in
  let self := ModuleCache.Make {["rss" := {["seen" := it]}]} (Some "rss") in
  (exists self',
     ModuleCache.remove "seen" self = Ok (ModuleCache.ObjItem it, self') /\
     ModuleCache.namespace self' = Some "rss" /\
     ModuleCache._cache self' = Some (delete "seen" {["seen" := it]}) /\
     ModuleCache.has_key "seen" self' = Ok false) /\
  (forall (v : pyval) (days today : Z),
     exists self1 self2,
       ModuleCache.store "seen" v days today self = Ok self1 /\
       ModuleCache.remove "seen" self1
         = Ok (ModuleCache.ObjItem (ModuleCache.Item today days (Some v)),
               self2) /\
       ModuleCache._cache self2 = Some (delete "seen" {["seen" := it]})).
Proof.
  intros it self.
  exact (C9_remove self "rss" "seen" {["seen" := it]} eq_refl eq_refl).
Defined.

(** ** Sorting and dispatch order *)

Section Sorting.

Context {A : Type} (key : A -> Z).

Lemma py_insert_perm (x : A) (l : list A) : py_insert (by_key key) x l ≡ₚ x :: l.
Proof.
  induction l as [|y l IH]; simpl; [done|].
  destruct (by_key key x y); try done.
  rewrite IH. apply perm_swap.
Qed.

Lemma py_sort_perm (l : list A) : py_sort (by_key key) l ≡ₚ l.
Proof.
  induction l as [|x l IH]; simpl; [done|].
  by rewrite py_insert_perm, IH.
Qed.

Lemma py_insert_sorted (x : A) (l : list A) :
  StronglySorted (fun a b => key a <= key b)%Z l ->
  StronglySorted (fun a b => key a <= key b)%Z (py_insert (by_key key) x l).
Proof.
  induction l as [|y l IH]; intros Hs; simpl.
  - repeat constructor.
  - apply StronglySorted_inv in Hs as [Hs Hy].
    unfold by_key at 1.
    destruct (Z.compare_spec (key x) (key y)) as [Heq|Hlt|Hgt].
    + constructor; [by constructor|].
      constructor; [lia|].
      eapply Forall_impl; [exact Hy|]. simpl. intros z Hz. lia.
    + constructor; [by constructor|].
      constructor; [lia|].
      eapply Forall_impl; [exact Hy|]. simpl. intros z Hz. lia.
    + constructor; [by apply IH|].
      rewrite py_insert_perm. constructor; [lia|done].
Qed.

Lemma py_sort_sorted (l : list A) :
  StronglySorted (fun a b => key a <= key b)%Z (py_sort (by_key key) l).
Proof.
  induction l as [|x l IH]; simpl; [constructor|].
  by apply py_insert_sorted.
Qed.

Lemma py_insert_stable (p : Z) (x : A) (l : list A) :
  filter (fun a => key a = p) (py_insert (by_key key) x l)
  = filter (fun a => key a = p) (x :: l).
Proof.
  induction l as [|y l IH]; simpl; [done|].
  unfold by_key at 1.
  destruct (Z.compare_spec (key x) (key y)) as [Heq|Hlt|Hgt]; try done.
  rewrite filter_cons, IH, !filter_cons.
  destruct (decide (key y = p)) as [Hy|Hy];
    destruct (decide (key x = p)) as [Hx|Hx]; try done.
  lia.
Qed.

Lemma py_sort_stable (p : Z) (l : list A) :
  filter (fun a => key a = p) (py_sort (by_key key) l)
  = filter (fun a => key a = p) l.
Proof.
  induction l as [|x l IH]; simpl; [done|].
  by rewrite py_insert_stable, !filter_cons, IH.
Qed.

Lemma rev_sorted_desc (l : list A) :
  StronglySorted (fun a b => key a <= key b)%Z l ->
  StronglySorted (fun a b => key a >= key b)%Z (rev l).
Proof.
  induction 1 as [|x l Hs IH Hx]; simpl; [constructor|].
  apply StronglySorted_app_2; [|done|repeat constructor].
  intros a b Ha Hb. apply list_elem_of_singleton in Hb as ->.
  apply list_elem_of_In, in_rev, list_elem_of_In in Ha.
  rewrite Forall_forall in Hx. specialize (Hx a Ha). lia.
Qed.

Lemma filter_rev (P : A -> Prop) `{forall a, Decision (P a)} (l : list A) :
  filter P (rev l) = rev (filter P l).
Proof.
  induction l as [|x l IH]; simpl; [done|].
  rewrite filter_app, IH, !filter_cons, filter_nil.
  destruct (decide (P x)); simpl; [done|by rewrite app_nil_r].
Qed.

End Sorting.

Lemma dispatch_order_eq (modules : list Plugin.t) (event : string)
    (self : feed) :
  Feed.dispatch_order modules event self
  = rev (py_sort (by_key (fun m => Feed.__get_priority m event self))
           modules).
Proof. reflexivity. Qed.

Lemma dispatch_order_perm (modules : list Plugin.t) (event : string)
    (self : feed) :
  Feed.dispatch_order modules event self ≡ₚ modules.
Proof.
  rewrite dispatch_order_eq, <- Permutation_rev.
  apply (py_sort_perm (fun m => Feed.__get_priority m event self)).
Qed.

(** C1, as stated: modules of equal priority are dispatched in the order
    of the registry. The registry order [first; second] is dispatched as
    [second; first]. *)
Lemma C1_counterexample :
  let self := Feed.__init__ empty_manager "feed" ∅ in
  Feed.__get_priority tie_first "filter" self
    = Feed.__get_priority tie_second "filter" self /\
  Plugin.name <$> Feed.dispatch_order [tie_first; tie_second] "filter" self
    = ["second"; "first"].
Proof. split; reflexivity. Qed.

(** C1, amended: the dispatcher goes through the registry's modules of
    the event in an order that rearranges the registry's list in
    descending (not strictly) effective priority, where the effective
    priority of a module is the 'priority' of its configuration entry
    when that entry is a mapping containing 'priority', else the module's
    declared default for the event, else 0; modules of equal effective
    priority come in the reverse of the registry order. *)
Theorem C1_dispatch_order (manager : Manager.t) (event : string)
    (self : feed) :
  let registry := Manager.get_modules_by_event manager event in
  let prio := fun m => Feed.__get_priority m event self in
  let order := Feed.dispatch_order registry event self in
  (forall fuel,
     Feed.__run_event manager (S fuel) event self
     = Feed.run_modules manager (Feed.__run_event manager fuel) event
         order self) /\
  (forall m,
     prio m =
       match config self !! Plugin.name m with
       | Some (CfgDict (Some p) _) => p
       | _ =>
           match Plugin.priorities m with
           | Some declared =>
               match declared !! event with
               | Some d => d
               | None => 0%Z
               end
           | None => 0%Z
           end
       end) /\
  order ≡ₚ registry /\
  StronglySorted (fun a b => prio a >= prio b)%Z order /\
  (forall p : Z,
     filter (fun m => prio m = p) order
     = rev (filter (fun m => prio m = p) registry)).
Proof.
  intros registry prio order. split; [done|]. split; [|split; [|split]].
  - intros m. unfold prio, Feed.__get_priority.
    destruct (config self !! Plugin.name m) as [[v|[p|] others]|];
      try done; destruct (Plugin.priorities m) as [declared|]; try done;
      by destruct (declared !! event).
  - apply dispatch_order_perm.
  - unfold order. rewrite dispatch_order_eq.
    apply (rev_sorted_desc prio), py_sort_sorted.
  - intros p. unfold order. rewrite dispatch_order_eq.
    rewrite filter_rev. f_equal. apply (py_sort_stable prio).
Qed.

(** ** Python list operations *)

Open Scope list_scope.

Lemma py_in_true {A : Type} `{EqDecision A} (x : A) (l : list A) :
  py_in x l = true <-> x ∈ l.
Proof.
  unfold py_in. rewrite existsb_exists. split.
  - intros (y & Hy & Heq). apply bool_decide_eq_true in Heq. subst.
    by apply list_elem_of_In.
  - intros Hin. exists x. split; [by apply list_elem_of_In|].
    by apply bool_decide_eq_true.
Qed.

Lemma py_in_false {A : Type} `{EqDecision A} (x : A) (l : list A) :
  py_in x l = false <-> x ∉ l.
Proof.
  rewrite <- py_in_true. symmetry. apply not_true_iff_false.
Qed.

Lemma py_remove_app {A : Type} `{EqDecision A} (x : A) (k r : list A) :
  x ∉ k -> py_remove x (k ++ x :: r) = Some (k ++ r).
Proof.
  induction k as [|y k IH]; intros Hk; simpl.
  - by rewrite bool_decide_eq_true_2.
  - apply not_elem_of_cons in Hk as [Hne Hk].
    rewrite bool_decide_eq_false_2; [|done]. by rewrite IH.
Qed.

Lemma py_remove_Some {A : Type} `{EqDecision A} (x : A) (l r : list A) :
  py_remove x l = Some r ->
  exists k t, l = k ++ x :: t /\ r = k ++ t /\ (x ∉ k).
Proof.
  revert r. induction l as [|y l IH]; intros r; simpl; [done|].
  destruct (decide (x = y)) as [->|Hne].
  - rewrite bool_decide_eq_true_2; [|done]. intros [= <-].
    exists [], l. split; [done|]. split; [done|]. apply not_elem_of_nil.
  - rewrite bool_decide_eq_false_2; [|done].
    destruct (py_remove x l) as [r'|]; [|done]. intros [= <-].
    destruct (IH r' eq_refl) as (k & t & -> & -> & Hk).
    exists (y :: k), t. split; [done|]. split; [done|].
    apply not_elem_of_cons. done.
Qed.

Lemma py_remove_elem {A : Type} `{EqDecision A} (x : A) (l : list A) :
  x ∈ l -> exists k t, l = k ++ x :: t /\ (x ∉ k) /\
                       py_remove x l = Some (k ++ t).
Proof.
  induction l as [|y l IH]; intros Hin; [by apply elem_of_nil in Hin|].
  destruct (decide (x = y)) as [->|Hne].
  - exists [], l. split; [done|]. split; [apply not_elem_of_nil|].
    simpl. by rewrite bool_decide_eq_true_2.
  - apply elem_of_cons in Hin as [?|Hin]; [done|].
    destruct (IH Hin) as (k & t & -> & Hk & Hr).
    exists (y :: k), t. split; [done|].
    split; [by apply not_elem_of_cons|].
    simpl. rewrite bool_decide_eq_false_2; [|done]. by rewrite Hr.
Qed.

(** ** The purge loop *)

Lemma same_lists_refl (a : feed) : same_lists a a.
Proof. by repeat split. Qed.

Lemma same_lists_trans (a b c : feed) :
  same_lists a b -> same_lists b c -> same_lists a c.
Proof.
  unfold same_lists. intros (?&?&?&?&?) (?&?&?&?&?).
  repeat split; congruence.
Qed.

Section Purge.

Variables sel not_in_list : list entry.
Variable count : bool.

Lemma selected_test (x : entry) :
  py_in x sel && negb (py_in x not_in_list) = true <-> selected sel not_in_list x.
Proof.
  unfold selected. rewrite andb_true_iff, negb_true_iff.
  by rewrite py_in_true, py_in_false.
Qed.

(** What the loop does: up to the point where it stops, the selected
    entries are gone and counted; it stops early only at a selected
    entry whose text cannot be built. *)
Lemma purge_loop_shape (copy : list entry) :
  forall (self : feed) (kept : list entry),
    entries self = kept ++ copy ->
    Forall (fun x => ~ selected sel not_in_list x) kept ->
    exists done rest,
      copy = done ++ rest /\
      entries (Feed.purge_loop copy sel not_in_list count self).1
        = kept ++ filter (fun x => ~ selected sel not_in_list x) done ++ rest /\
      match (Feed.purge_loop copy sel not_in_list count self).2 with
      | None => rest = []
      | Some err =>
          exists x rest', rest = x :: rest' /\ selected sel not_in_list x /\
                          Entry.safe_str x = Raise err
      end /\
      (if count
       then __purged (Feed.purge_loop copy sel not_in_list count self).1
            + length (filter (fun x => ~ selected sel not_in_list x) done)
            = __purged self + length done
       else __purged (Feed.purge_loop copy sel not_in_list count self).1
            = __purged self) /\
      same_lists self (Feed.purge_loop copy sel not_in_list count self).1.
Proof.
  induction copy as [|e copy IH]; intros self kept Hent Hkept; simpl.
  - exists [], []. split; [done|]. split; [by rewrite Hent|].
    split; [done|]. split; [by destruct count|apply same_lists_refl].
  - destruct (py_in e sel && negb (py_in e not_in_list)) eqn:Htest.
    + apply selected_test in Htest.
      destruct (Entry.safe_str e) as [s|err] eqn:Hstr.
      * assert (e ∉ kept) as Hnotin.
        { intros Hin. rewrite Forall_forall in Hkept.
          by apply (Hkept e Hin). }
        simpl. rewrite Hent, (py_remove_app e kept copy Hnotin).
        set (self2 := set_entries (kept ++ copy)
                        (log DEBUG ("Purging entry " ++ s)%string self)).
        set (self3 := if count then set_purged (__purged self2 + 1) self2
                      else self2).
        assert (entries self3 = kept ++ copy) as Hent3.
        { unfold self3. by destruct count. }
        destruct (IH self3 kept Hent3 Hkept)
          as (done & rest & -> & Hres & Herr & Hcnt & Hsame).
        exists (e :: done), rest. split; [done|].
        rewrite filter_cons_False; [|by intros Hn; apply Hn].
        split; [done|]. split; [done|]. split.
        -- unfold self3 in *. destruct count; simpl in *; lia.
        -- eapply same_lists_trans; [|exact Hsame].
           unfold self3. by destruct count.
      * exists [], (e :: copy). split; [done|]. simpl.
        split; [by rewrite Hent|]. split; [by eauto|].
        split; [by destruct count|apply same_lists_refl].
    + assert (~ selected sel not_in_list e) as Hns.
      { intros Hs. apply selected_test in Hs. congruence. }
      assert (entries self = (kept ++ [e]) ++ copy) as Hent'.
      { by rewrite <- app_assoc. }
      assert (Forall (fun x => ~ selected sel not_in_list x) (kept ++ [e])) as Hkept'.
      { apply Forall_app. split; [done|]. by constructor. }
      destruct (IH self (kept ++ [e]) Hent' Hkept')
        as (done & rest & -> & Hres & Herr & Hcnt & Hsame).
      exists (e :: done), rest. split; [done|].
      rewrite filter_cons_True; [|done].
      split; [by rewrite Hres, <- app_assoc|]. split; [done|].
      split; [|done].
      destruct count; simpl; [lia|done].
Qed.

Lemma purge_shape (self : feed) :
  exists done rest,
    entries self = done ++ rest /\
    entries (Feed.__purge sel not_in_list count self).1
      = filter (fun x => ~ selected sel not_in_list x) done ++ rest /\
    match (Feed.__purge sel not_in_list count self).2 with
    | None => rest = []
    | Some err =>
        exists x rest', rest = x :: rest' /\ selected sel not_in_list x /\
                        Entry.safe_str x = Raise err
    end /\
    (if count
     then __purged (Feed.__purge sel not_in_list count self).1
          + length (filter (fun x => ~ selected sel not_in_list x) done)
          = __purged self + length done
     else __purged (Feed.__purge sel not_in_list count self).1
          = __purged self) /\
    same_lists self (Feed.__purge sel not_in_list count self).1.
Proof.
  unfold Feed.__purge.
  destruct (purge_loop_shape (entries self) self [] eq_refl (Forall_nil_2 _))
    as (done & rest & H1 & H2 & H3 & H4 & H5).
  exists done, rest. done.
Qed.

(** An entry that is not selected stays. *)
Lemma purge_keeps (self : feed) (x : entry) :
  x ∈ entries self -> ~ selected sel not_in_list x ->
  x ∈ entries (Feed.__purge sel not_in_list count self).1.
Proof.
  intros Hin Hns.
  destruct (purge_shape self) as (done & rest & H1 & H2 & _).
  rewrite H2. rewrite H1 in Hin.
  apply elem_of_app in Hin as [Hin|Hin]; apply elem_of_app.
  - left. by apply list_elem_of_filter.
  - by right.
Qed.

(** The purge adds nothing. *)
Lemma purge_subset (self : feed) (x : entry) :
  x ∈ entries (Feed.__purge sel not_in_list count self).1 ->
  x ∈ entries self.
Proof.
  destruct (purge_shape self) as (done & rest & H1 & H2 & _).
  rewrite H2, H1. intros Hin.
  apply elem_of_app in Hin as [Hin|Hin]; apply elem_of_app.
  - left. by apply list_elem_of_filter in Hin as [_ Hin].
  - by right.
Qed.

(** A purge that returns has removed every selected entry. *)
Lemma purge_returns (self : feed) :
  (Feed.__purge sel not_in_list count self).2 = None ->
  entries (Feed.__purge sel not_in_list count self).1
    = filter (fun x => ~ selected sel not_in_list x) (entries self).
Proof.
  intros Hr.
  destruct (purge_shape self) as (done & rest & H1 & H2 & H3 & _).
  rewrite Hr in H3. subst rest. by rewrite H2, H1, !app_nil_r.
Qed.

(** The purge returns when the text of every selected entry can be
    built. *)
Lemma purge_total (self : feed) :
  (forall x, x ∈ entries self -> selected sel not_in_list x ->
             exists s, Entry.safe_str x = Ok s) ->
  (Feed.__purge sel not_in_list count self).2 = None.
Proof.
  intros Hok.
  destruct (purge_shape self) as (done & rest & H1 & _ & H3 & _).
  destruct ((Feed.__purge sel not_in_list count self).2) as [err|];
    [|done].
  destruct H3 as (x & rest' & -> & Hsel & Hstr).
  destruct (Hok x) as [s Hs]; [|done|congruence].
  rewrite H1. apply elem_of_app. right. by left.
Qed.

Lemma purge_same_lists (self : feed) :
  same_lists self (Feed.__purge sel not_in_list count self).1.
Proof. by destruct (purge_shape self) as (? & ? & _ & _ & _ & _ & ?). Qed.

End Purge.

(** ** The classification calls *)

(** What [accept] does to the lists *)
Lemma accept_lists (e : entry) (self : feed) :
  let self' := (Feed.accept e self).1 in
  entries self' = entries self /\ rejected self' = rejected self /\
  failed self' = failed self /\ manager_failed self' = manager_failed self /\
  __purged self' = __purged self /\
  ((e ∈ accepted self /\ accepted self' = accepted self /\
    filtered self' = filtered self) \/
   ((e ∉ accepted self) /\ accepted self' = accepted self ++ [e] /\
    (((e ∉ filtered self) /\ filtered self' = filtered self) \/
     (exists k t, filtered self = k ++ e :: t /\ (e ∉ k) /\
                  filtered self' = k ++ t)))).
Proof.
  unfold Feed.accept. destruct (py_in e (accepted self)) eqn:Hacc; simpl.
  - apply py_in_true in Hacc. repeat split; try done. by left.
  - apply py_in_false in Hacc.
    destruct (py_in e (filtered self)) eqn:Hfil; simpl.
    + apply py_in_true in Hfil.
      destruct (py_remove_elem e (filtered self) Hfil) as (k & t & Hf & Hk & Hr).
      rewrite Hr. simpl. repeat split; try done.
      right. split; [done|]. split; [done|]. right. by exists k, t.
    + apply py_in_false in Hfil. repeat split; try done.
      right. split; [done|]. split; [done|]. by left.
Qed.

(** What [filter] does to the lists *)
Lemma filter_lists (e : entry) (self : feed) :
  let self' := (Feed.filter e self).1 in
  entries self' = entries self /\ accepted self' = accepted self /\
  rejected self' = rejected self /\ failed self' = failed self /\
  manager_failed self' = manager_failed self /\
  __purged self' = __purged self /\
  (((e ∉ filtered self) /\ (e ∉ accepted self) /\
    filtered self' = filtered self ++ [e]) \/
   ((e ∈ filtered self \/ e ∈ accepted self) /\
    filtered self' = filtered self)).
Proof.
  unfold Feed.filter.
  destruct (py_in e (filtered self)) eqn:Hfil;
    [apply py_in_true in Hfil|apply py_in_false in Hfil];
    (destruct (py_in e (accepted self)) eqn:Hacc;
     [apply py_in_true in Hacc|apply py_in_false in Hacc]);
    simpl; repeat split; try done; auto.
Qed.

(** What [reject] does to the lists *)
Lemma reject_lists (e : entry) (self : feed) :
  let self' := (Feed.reject e self).1 in
  entries self' = entries self /\ accepted self' = accepted self /\
  filtered self' = filtered self /\ failed self' = failed self /\
  manager_failed self' = manager_failed self /\
  __purged self' = __purged self /\
  (((e ∉ rejected self) /\ rejected self' = rejected self ++ [e]) \/
   (e ∈ rejected self /\ rejected self' = rejected self)).
Proof.
  unfold Feed.reject.
  destruct (py_in e (rejected self)) eqn:Hrej;
    [apply py_in_true in Hrej|apply py_in_false in Hrej];
    simpl; repeat split; try done; auto.
Qed.

(** What [fail] does to the lists *)
Lemma fail_lists (e : entry) (self : feed) :
  let self' := (Feed.fail e self).1 in
  entries self' = entries self /\ accepted self' = accepted self /\
  filtered self' = filtered self /\ rejected self' = rejected self /\
  __purged self' = __purged self /\
  (((e ∉ failed self) /\ is_Some (e !! "title") /\
    failed self' = failed self ++ [e] /\
    manager_failed self' = manager_failed self ++ [e]) \/
   ((e ∈ failed self \/ e !! "title" = None) /\
    failed self' = failed self /\
    manager_failed self' = manager_failed self)).
Proof.
  unfold Feed.fail, Entry.getitem.
  destruct (e !! "title") as [title|] eqn:Ht; simpl.
  - destruct (py_in e (failed self)) eqn:Hf;
      [apply py_in_true in Hf|apply py_in_false in Hf];
      simpl; repeat split; try done; auto.
  - repeat split; try done. right. auto.
Qed.

Lemma init_wf (manager : Manager.t) (name : string)
    (config : gmap string cfgval) :
  wf (Feed.__init__ manager name config).
Proof.
  repeat split; simpl; try constructor.
  intros x Hx. by apply elem_of_nil in Hx.
Qed.

Lemma wf_same_lists (s s' : feed) : same_lists s s' -> wf s -> wf s'.
Proof.
  intros (Ha & Hf & Hr & Hfa & Hm) (H1 & H2 & H3 & H4).
  unfold wf. rewrite Ha, Hf, Hfa, Hm. done.
Qed.

Ltac open_accept e s :=
  destruct (accept_lists e s)
    as (He & Hr & Hf & Hm & Hp &
        [(Hin & Ha & Hfi)
        |(Hnin & Ha & [(Hnf & Hfi)|(k & t & Hk & Hnk & Hfi)])]).

Ltac open_filter e s :=
  destruct (filter_lists e s)
    as (He & Ha & Hr & Hf & Hm & Hp & [(Hnf & Hna & Hfi)|(Hor & Hfi)]).

Ltac open_reject e s :=
  destruct (reject_lists e s)
    as (He & Ha & Hfi & Hf & Hm & Hp & [(Hnr & Hr)|(Hinr & Hr)]).

Ltac open_fail e s :=
  destruct (fail_lists e s)
    as (He & Ha & Hfi & Hr & Hp & [(Hnf & Ht & Hf & Hm)|(Hor & Hf & Hm)]).

Ltac open_purge sel excl count s :=
  destruct (purge_same_lists sel excl count s) as (Ha & Hfi & Hr & Hf & Hm).

(** Case analysis on an operation, with what it does to the lists *)
Ltac step_cases o s :=
  let e := fresh "e" in
  destruct o as [e|e|e|e|e| | |]; simpl in *;
  unfold Feed._purge, Feed.__purge_rejected, Feed.__purge_failed in *;
  [ open_accept e s
  | open_filter e s
  | open_reject e s
  | open_fail e s
  | idtac
  | open_purge (filtered s) (accepted s) true s
  | open_purge (rejected s) (@nil entry) true s
  | open_purge (failed s) (@nil entry) false s ].

Lemma NoDup_remove_middle {A : Type} (k t : list A) (e : A) :
  NoDup (k ++ e :: t) -> NoDup (k ++ t) /\ e ∉ k ++ t.
Proof.
  intros Hnd. apply NoDup_app in Hnd as (Hk & Hkt & Hnd).
  apply NoDup_cons in Hnd as (Het & Ht). split.
  - apply NoDup_app. split; [done|]. split; [|done].
    intros x Hx Hxt. apply (Hkt x Hx). by right.
  - intros Hin. apply elem_of_app in Hin as [Hin|Hin]; [|done].
    apply (Hkt e Hin). by left.
Qed.

Lemma step_wf (o : op) (s : feed) : wf s -> wf (step o s).
Proof.
  intros (Hnd & Hdis & Hmf & Hndf). unfold wf.
  step_cases o s.
  - rewrite Hfi, Ha, Hm, Hf. done.
  - rewrite Hfi, Ha, Hm, Hf. repeat split; try done.
    intros x Hx Hxa. apply elem_of_app in Hxa as [Hxa|Hxa].
    + by apply (Hdis x).
    + apply list_elem_of_singleton in Hxa as ->. done.
  - rewrite Hfi, Ha, Hm, Hf. rewrite Hk in Hnd, Hdis.
    apply NoDup_remove_middle in Hnd as [Hnd Hne].
    repeat split; try done.
    intros x Hx Hxa. apply elem_of_app in Hxa as [Hxa|Hxa].
    + apply (Hdis x); [|done].
      apply elem_of_app in Hx as [Hx|Hx]; apply elem_of_app; [by left|].
      right. by right.
    + apply list_elem_of_singleton in Hxa as ->. done.
  - rewrite Hfi, Ha, Hm, Hf. repeat split; try done.
    + apply NoDup_app. split; [done|]. split; [|apply NoDup_singleton].
      intros x Hx Hxe. apply list_elem_of_singleton in Hxe as ->. done.
    + intros x Hx. apply elem_of_app in Hx as [Hx|Hx]; [by apply Hdis|].
      apply list_elem_of_singleton in Hx as ->. done.
  - rewrite Hfi, Ha, Hm, Hf. done.
  - rewrite Hfi, Ha, Hm, Hf. done.
  - rewrite Hfi, Ha, Hm, Hf. done.
  - rewrite Hfi, Ha, Hm, Hf, Hmf. repeat split; try done.
    apply NoDup_app. split; [done|]. split; [|apply NoDup_singleton].
    intros x Hx Hxe. apply list_elem_of_singleton in Hxe as ->. done.
  - rewrite Hfi, Ha, Hm, Hf. done.
  - done.
  - rewrite Hfi, Ha, Hm, Hf. done.
  - rewrite Hfi, Ha, Hm, Hf. done.
  - rewrite Hfi, Ha, Hm, Hf. done.
Qed.

Lemma steps_app (a b : list op) (s : feed) :
  steps (a ++ b) s = steps b (steps a s).
Proof. unfold steps. apply foldl_app. Qed.

Lemma steps_wf (ops : list op) (s : feed) : wf s -> wf (steps ops s).
Proof.
  revert s. induction ops as [|o ops IH]; intros s Hs; [done|].
  simpl. apply IH. by apply step_wf.
Qed.

(** ** One operation at a time *)

Lemma step_accepted_mono (o : op) (s : feed) (x : entry) :
  x ∈ accepted s -> x ∈ accepted (step o s).
Proof.
  intros Hx. step_cases o s; rewrite ?Ha; try done;
    apply elem_of_app; by left.
Qed.

Lemma step_accept_adds (e : entry) (s : feed) :
  e ∈ accepted (step (OpAccept e) s).
Proof.
  simpl. open_accept e s; rewrite Ha; [done| |];
    apply elem_of_app; right; by left.
Qed.

Lemma step_rejected_mono (o : op) (s : feed) (x : entry) :
  x ∈ rejected s -> x ∈ rejected (step o s).
Proof.
  intros Hx. step_cases o s; rewrite ?Hr; try done.
  apply elem_of_app; by left.
Qed.

Lemma step_reject_adds (e : entry) (s : feed) :
  e ∈ rejected (step (OpReject e) s).
Proof.
  simpl. open_reject e s; rewrite Hr; [|done].
  apply elem_of_app; right; by left.
Qed.

Lemma step_rejected_inv (o : op) (s : feed) (x : entry) :
  x ∈ rejected (step o s) -> x ∈ rejected s \/ o = OpReject x.
Proof.
  intros Hx. step_cases o s; rewrite ?Hr in Hx; auto.
  apply elem_of_app in Hx as [Hx|Hx]; [by left|].
  apply list_elem_of_singleton in Hx as ->. by right.
Qed.

Lemma step_failed_inv (o : op) (s : feed) (x : entry) :
  x ∈ failed (step o s) -> x ∈ failed s \/ o = OpFail x.
Proof.
  intros Hx. step_cases o s; rewrite ?Hf in Hx; auto.
  apply elem_of_app in Hx as [Hx|Hx]; [by left|].
  apply list_elem_of_singleton in Hx as ->. by right.
Qed.

Lemma selected_nil (sel : list entry) (x : entry) :
  selected sel [] x <-> x ∈ sel.
Proof.
  unfold selected. split; [by intros [? _]|].
  intros Hx. split; [done|apply not_elem_of_nil].
Qed.

Lemma step_entries_keep (o : op) (s : feed) (x : entry) :
  x ∈ entries s -> x ∉ rejected s -> x ∉ failed s ->
  (o = OpPurge -> x ∉ filtered s \/ x ∈ accepted s) ->
  x ∈ entries (step o s).
Proof.
  intros Hx Hxr Hxf Hpurge.
  destruct o as [e|e|e|e|e| | |]; simpl.
  - open_accept e s; by rewrite He.
  - open_filter e s; by rewrite He.
  - open_reject e s; by rewrite He.
  - open_fail e s; by rewrite He.
  - apply elem_of_app. by left.
  - apply purge_keeps; [done|]. intros [Hfi Hna].
    destruct (Hpurge eq_refl); done.
  - apply purge_keeps; [done|]. by rewrite selected_nil.
  - apply purge_keeps; [done|]. by rewrite selected_nil.
Qed.

Lemma step_filtered_or_accepted (o : op) (s : feed) (x : entry) :
  x ∈ filtered s \/ x ∈ accepted s ->
  x ∈ filtered (step o s) \/ x ∈ accepted (step o s).
Proof.
  intros [Hx|Hx]; [|right; by apply step_accepted_mono].
  step_cases o s; rewrite ?Hfi, ?Ha; auto.
  - destruct (decide (x = e)) as [->|Hne].
    + right. apply elem_of_app. right. by left.
    + left. rewrite Hk in Hx.
      apply elem_of_app in Hx as [Hx|Hx]; apply elem_of_app; [by left|].
      apply elem_of_cons in Hx as [Hx|Hx]; [done|by right].
  - left. apply elem_of_app. by left.
Qed.

Lemma step_filter_adds (e : entry) (s : feed) :
  e ∈ filtered (step (OpFilter e) s) \/ e ∈ accepted (step (OpFilter e) s).
Proof.
  simpl. open_filter e s; rewrite Hfi, Ha; [|done].
  left. apply elem_of_app. right. by left.
Qed.

Lemma step_stays_unfiltered (o : op) (s : feed) (x : entry) :
  x ∈ accepted s -> x ∉ filtered s -> x ∉ filtered (step o s).
Proof.
  intros Hx Hnx. step_cases o s; rewrite ?Hfi; try done.
  - rewrite Hk in Hnx. intros Hin. apply Hnx.
    apply elem_of_app in Hin as [Hin|Hin]; apply elem_of_app; [by left|].
    right. by right.
  - intros Hin. apply elem_of_app in Hin as [Hin|Hin]; [done|].
    apply list_elem_of_singleton in Hin as ->. done.
Qed.

(** The purge counter: the filtered purge and the rejected purge count
    each entry they remove, nothing else changes the counter. *)
Lemma step_counter (o : op) (s : feed) :
  match o with
  | OpPurge | OpPurgeRejected =>
      __purged (step o s) + length (entries (step o s))
      = __purged s + length (entries s)
  | _ => __purged (step o s) = __purged s
  end.
Proof.
  destruct o as [e|e|e|e|e| | |]; simpl.
  - open_accept e s; done.
  - open_filter e s; done.
  - open_reject e s; done.
  - open_fail e s; done.
  - done.
  - unfold Feed._purge.
    destruct (purge_shape (filtered s) (accepted s) true s)
      as (done & rest & H1 & H2 & _ & H4 & _).
    rewrite H2, H1, !length_app. lia.
  - unfold Feed.__purge_rejected.
    destruct (purge_shape (rejected s) [] true s)
      as (done & rest & H1 & H2 & _ & H4 & _).
    rewrite H2, H1, !length_app. lia.
  - unfold Feed.__purge_failed.
    by destruct (purge_shape (failed s) [] false s)
      as (done & rest & _ & _ & _ & H4 & _).
Qed.

(** ** Runs of operations *)

Lemma steps_not_rejected (ops : list op) (s : feed) (x : entry) :
  x ∉ rejected s -> OpReject x ∉ ops -> x ∉ rejected (steps ops s).
Proof.
  revert s. induction ops as [|o ops IH]; intros s Hx Hops; [done|].
  apply not_elem_of_cons in Hops as [Hne Hops].
  simpl. apply IH; [|done]. intros Hin.
  apply step_rejected_inv in Hin as [Hin|Hin]; [done|congruence].
Qed.

Lemma steps_not_failed (ops : list op) (s : feed) (x : entry) :
  x ∉ failed s -> OpFail x ∉ ops -> x ∉ failed (steps ops s).
Proof.
  revert s. induction ops as [|o ops IH]; intros s Hx Hops; [done|].
  apply not_elem_of_cons in Hops as [Hne Hops].
  simpl. apply IH; [|done]. intros Hin.
  apply step_failed_inv in Hin as [Hin|Hin]; [done|congruence].
Qed.

Lemma steps_accepted_mono (ops : list op) (s : feed) (x : entry) :
  x ∈ accepted s -> x ∈ accepted (steps ops s).
Proof.
  revert s. induction ops as [|o ops IH]; intros s Hx; [done|].
  simpl. apply IH. by apply step_accepted_mono.
Qed.

Lemma steps_rejected_mono (ops : list op) (s : feed) (x : entry) :
  x ∈ rejected s -> x ∈ rejected (steps ops s).
Proof.
  revert s. induction ops as [|o ops IH]; intros s Hx; [done|].
  simpl. apply IH. by apply step_rejected_mono.
Qed.

Lemma steps_rejected (ops : list op) (s : feed) (x : entry) :
  OpReject x ∈ ops -> x ∈ rejected (steps ops s).
Proof.
  revert s. induction ops as [|o ops IH]; intros s Hin;
    [by apply elem_of_nil in Hin|].
  apply elem_of_cons in Hin as [<-|Hin]; simpl.
  - apply steps_rejected_mono, step_reject_adds.
  - by apply IH.
Qed.

Lemma steps_accepted (ops : list op) (s : feed) (x : entry) :
  OpAccept x ∈ ops -> x ∈ accepted (steps ops s).
Proof.
  revert s. induction ops as [|o ops IH]; intros s Hin;
    [by apply elem_of_nil in Hin|].
  apply elem_of_cons in Hin as [<-|Hin]; simpl.
  - apply steps_accepted_mono, step_accept_adds.
  - by apply IH.
Qed.

(** While an entry is filtered or accepted and neither rejected nor
    failed, it stays in [entries] through operations other than the
    filtered purge. *)
Lemma steps_pending (ops : list op) (s : feed) (x : entry) :
  OpReject x ∉ ops -> OpFail x ∉ ops -> OpPurge ∉ ops ->
  x ∈ entries s -> (x ∈ filtered s \/ x ∈ accepted s) ->
  x ∉ rejected s -> x ∉ failed s ->
  x ∈ entries (steps ops s) /\
  (x ∈ filtered (steps ops s) \/ x ∈ accepted (steps ops s)) /\
  (x ∉ rejected (steps ops s)) /\ x ∉ failed (steps ops s).
Proof.
  revert s. induction ops as [|o ops IH];
    intros s Hr Hf Hp Hx Hfa Hnr Hnf; [done|].
  apply not_elem_of_cons in Hr as [Hr1 Hr].
  apply not_elem_of_cons in Hf as [Hf1 Hf].
  apply not_elem_of_cons in Hp as [Hp1 Hp].
  simpl. apply IH; try done.
  - apply step_entries_keep; [done|done|done|]. intros ->. done.
  - by apply step_filtered_or_accepted.
  - intros Hin. apply step_rejected_inv in Hin as [Hin|Hin];
      [done|congruence].
  - intros Hin. apply step_failed_inv in Hin as [Hin|Hin];
      [done|congruence].
Qed.

(** An accepted entry that is neither filtered, rejected nor failed stays
    so, and stays in [entries], through every operation, the filtered
    purge included. *)
Lemma steps_rescued (ops : list op) (s : feed) (x : entry) :
  OpReject x ∉ ops -> OpFail x ∉ ops ->
  x ∈ entries s -> x ∈ accepted s -> x ∉ filtered s ->
  x ∉ rejected s -> x ∉ failed s ->
  x ∈ entries (steps ops s) /\ x ∈ accepted (steps ops s) /\
  (x ∉ filtered (steps ops s)) /\
  (x ∉ rejected (steps ops s)) /\ x ∉ failed (steps ops s).
Proof.
  revert s. induction ops as [|o ops IH];
    intros s Hr Hf Hx Ha Hnfi Hnr Hnf; [done|].
  apply not_elem_of_cons in Hr as [Hr1 Hr].
  apply not_elem_of_cons in Hf as [Hf1 Hf].
  simpl. apply IH; try done.
  - apply step_entries_keep; [done|done|done|]. intros _. by right.
  - by apply step_accepted_mono.
  - by apply step_stays_unfiltered.
  - intros Hin. apply step_rejected_inv in Hin as [Hin|Hin];
      [done|congruence].
  - intros Hin. apply step_failed_inv in Hin as [Hin|Hin];
      [done|congruence].
Qed.

(** ** Filtered, accepted and rejected entries *)

Lemma filter_iff {A : Type} (P Q : A -> Prop) `{forall x, Decision (P x)}
    `{forall x, Decision (Q x)} (l : list A) :
  (forall x, P x <-> Q x) -> filter P l = filter Q l.
Proof.
  intros HPQ. induction l as [|x l IH]; [done|].
  rewrite !filter_cons, IH.
  destruct (decide (P x)) as [HP|HP]; destruct (decide (Q x)) as [HQ|HQ];
    try done.
  - by apply HPQ in HP.
  - by apply HPQ in HQ.
Qed.

Lemma safe_str_ok (x : entry) :
  is_Some (x !! "title") -> is_Some (x !! "url") ->
  exists s, Entry.safe_str x = Ok s.
Proof.
  intros [t Ht] [u Hu]. unfold Entry.safe_str, Entry.getitem.
  rewrite Ht, Hu. by eexists.
Qed.

(** C3: an entry that is in the feed when a module filters it, and that a
    later module accepts before the filtered purge at the end of the
    event, and that is never rejected nor failed, is after that purge
    still in [entries], in [accepted], and not in [filtered]. *)
Theorem C3_filtered_then_accepted_survives (manager : Manager.t)
    (name : string) (config : gmap string cfgval)
    (before during after : list op) (e : entry) :
  let start := Feed.__init__ manager name config in
  let ops := before ++ OpFilter e :: during ++ OpAccept e :: after in
  OpReject e ∉ ops -> OpFail e ∉ ops -> OpPurge ∉ during ->
  e ∈ entries (steps before start) ->
  let final := step OpPurge (steps ops start) in
  e ∈ entries final /\ e ∈ accepted final /\ e ∉ filtered final.
Proof.
  intros start ops Hrej Hfail Hpurge Hin final.
  unfold ops in Hrej, Hfail.
  apply not_elem_of_app in Hrej as [Hr1 Hrej].
  apply not_elem_of_cons in Hrej as [_ Hrej].
  apply not_elem_of_app in Hrej as [Hr2 Hrej].
  apply not_elem_of_cons in Hrej as [_ Hr3].
  apply not_elem_of_app in Hfail as [Hf1 Hfail].
  apply not_elem_of_cons in Hfail as [_ Hfail].
  apply not_elem_of_app in Hfail as [Hf2 Hfail].
  apply not_elem_of_cons in Hfail as [_ Hf3].
  (* up to the call of filter *)
  set (s1 := steps before start) in *.
  assert (e ∉ rejected s1) as Hnr1.
  { apply steps_not_rejected; [apply not_elem_of_nil|done]. }
  assert (e ∉ failed s1) as Hnf1.
  { apply steps_not_failed; [apply not_elem_of_nil|done]. }
  set (s2 := step (OpFilter e) s1).
  assert (e ∈ entries s2) as Hin2.
  { by apply step_entries_keep. }
  assert (e ∈ filtered s2 \/ e ∈ accepted s2) as Hfa2
    by apply step_filter_adds.
  assert (e ∉ rejected s2) as Hnr2.
  { intros H. by apply step_rejected_inv in H as [H|H]. }
  assert (e ∉ failed s2) as Hnf2.
  { intros H. by apply step_failed_inv in H as [H|H]. }
  (* between filter and accept *)
  destruct (steps_pending during s2 e Hr2 Hf2 Hpurge Hin2 Hfa2 Hnr2 Hnf2)
    as (Hin3 & Hfa3 & Hnr3 & Hnf3).
  set (s3 := steps during s2) in *.
  (* the call of accept *)
  set (s4 := step (OpAccept e) s3).
  assert (wf s4) as Hwf4.
  { apply step_wf, steps_wf, step_wf, steps_wf, init_wf. }
  assert (e ∈ accepted s4) as Ha4 by apply step_accept_adds.
  assert (e ∉ filtered s4) as Hnfi4.
  { intros H. by apply (proj1 (proj2 Hwf4) e). }
  assert (e ∈ entries s4) as Hin4.
  { by apply step_entries_keep. }
  assert (e ∉ rejected s4) as Hnr4.
  { intros H. by apply step_rejected_inv in H as [H|H]. }
  assert (e ∉ failed s4) as Hnf4.
  { intros H. by apply step_failed_inv in H as [H|H]. }
  (* the rest of the event and its purge *)
  assert (final = steps (after ++ [OpPurge]) s4) as ->.
  { unfold final, ops, s4, s3, s2, s1.
    rewrite steps_app. simpl. rewrite !steps_app. done. }
  assert (OpReject e ∉ after ++ [OpPurge]) as Hr5.
  { apply not_elem_of_app. split; [done|].
    apply not_elem_of_cons. split; [done|apply not_elem_of_nil]. }
  assert (OpFail e ∉ after ++ [OpPurge]) as Hf5.
  { apply not_elem_of_app. split; [done|].
    apply not_elem_of_cons. split; [done|apply not_elem_of_nil]. }
  destruct (steps_rescued (after ++ [OpPurge]) s4 e Hr5 Hf5 Hin4 Ha4 Hnfi4
              Hnr4 Hnf4) as (H1 & H2 & H3 & _).
  done.
Qed.

Lemma C3_filtered_then_accepted_survives_witness :
  let start := Feed.__init__ empty_manager "feed" ∅ in
  let before := [OpAppend entry_a; OpAppend entry_b] in
  let during := [OpPurgeRejected; OpPurgeFailed; OpFilter entry_b] in
  let after := [OpPurgeRejected; OpPurgeFailed] in
  let ops := before ++ OpFilter entry_a :: during
             ++ OpAccept entry_a :: after in
  let final := step OpPurge (steps ops start) in
  entry_a ∈ entries final /\ entry_a ∈ accepted final /\
  entry_a ∉ filtered final.
Proof.
  intros start before during after ops final.
  apply (C3_filtered_then_accepted_survives empty_manager "feed" ∅
           before during after entry_a).
  - apply (bool_decide_unpack _). vm_compute. exact I.
  - apply (bool_decide_unpack _). vm_compute. exact I.
  - apply (bool_decide_unpack _). vm_compute. exact I.
  - apply (bool_decide_unpack _). vm_compute. exact I.
Defined.

(** C4: an entry both accepted and rejected has to be absent from
    [entries] after the next rejected purge; [Feed.__init__] says of
    [rejected] that its entries are removed unconditionally, even if
    accepted. The code misses this for an entry without url, which
    [isvalid] accepts: [__purge] builds its debug message with
    [safe_str] before it removes the entry, so the purge raises
    [KeyError] and the entry stays in [entries]. *)
Lemma C4_rejected_purge_raises :
  let s := steps [OpAppend entry_no_url; OpAccept entry_no_url;
                  OpReject entry_no_url]
             (Feed.__init__ empty_manager "feed" ∅) in
  Entry.isvalid entry_no_url = true /\
  entry_no_url ∈ accepted s /\ entry_no_url ∈ rejected s /\
  (Feed.__purge_rejected s).2 = Some (KeyError "url") /\
  entry_no_url ∈ entries (Feed.__purge_rejected s).1.
Proof.
  intros s. repeat split.
  - apply (bool_decide_unpack _). vm_compute. exact I.
  - apply (bool_decide_unpack _). vm_compute. exact I.
  - apply (bool_decide_unpack _). vm_compute. exact I.
Qed.

(** C7, as stated: the rejected purge removes entries without changing
    the purge counter. It counts the entry it removes. *)
Lemma C7_counterexample :
  let s := steps [OpAppend entry_a; OpReject entry_a]
             (Feed.__init__ empty_manager "feed" ∅) in
  __purged s = 0 /\
  (Feed.__purge_rejected s).2 = None /\
  entries (Feed.__purge_rejected s).1 = [] /\
  __purged (Feed.__purge_rejected s).1 = 1.
Proof. intros s. repeat split. Qed.

(** C7, amended: the purge counter is changed by the filtered purge and
    by the rejected purge, each adding one for every entry it removes;
    the failed purge removes entries without changing the counter, and
    accept, filter, reject and fail leave it as it is. *)
Theorem C7_purge_counter (s : feed) :
  __purged (Feed._purge s).1 + length (entries (Feed._purge s).1)
    = __purged s + length (entries s) /\
  __purged (Feed.__purge_rejected s).1
    + length (entries (Feed.__purge_rejected s).1)
    = __purged s + length (entries s) /\
  __purged (Feed.__purge_failed s).1 = __purged s /\
  (forall e,
     __purged (Feed.accept e s).1 = __purged s /\
     __purged (Feed.filter e s).1 = __purged s /\
     __purged (Feed.reject e s).1 = __purged s /\
     __purged (Feed.fail e s).1 = __purged s).
Proof.
  split; [exact (step_counter OpPurge s)|].
  split; [exact (step_counter OpPurgeRejected s)|].
  split; [exact (step_counter OpPurgeFailed s)|].
  intros e. repeat split.
  - exact (step_counter (OpAccept e) s).
  - exact (step_counter (OpFilter e) s).
  - exact (step_counter (OpReject e) s).
  - exact (step_counter (OpFail e) s).
Qed.

(** ** Traces *)

Lemma abort_only_app (a b : list observed) :
  abort_only (a ++ b) <-> abort_only a /\ abort_only b.
Proof.
  unfold abort_only. split.
  - intros H. split; intros ev m Hin; apply (H ev m), elem_of_app; auto.
  - intros [Ha Hb] ev m Hin. apply elem_of_app in Hin as [Hin|Hin]; eauto.
Qed.

Lemma has_raise_app (a b : list observed) :
  has_raise (a ++ b) <-> has_raise a \/ has_raise b.
Proof.
  unfold has_raise. split.
  - intros (ev & m & err & Hin).
    apply elem_of_app in Hin as [Hin|Hin]; [left|right]; eauto.
  - intros [(ev & m & err & Hin)|(ev & m & err & Hin)];
      exists ev, m, err; apply elem_of_app; auto.
Qed.

Lemma logs_abort_only (new : list observed) :
  Forall is_log new -> abort_only new.
Proof.
  intros Hl ev m Hin. rewrite Forall_forall in Hl.
  by apply Hl in Hin.
Qed.

Lemma logs_no_raise (new : list observed) :
  Forall is_log new -> ~ has_raise new.
Proof.
  intros Hl (ev & m & err & Hin). rewrite Forall_forall in Hl.
  by apply Hl in Hin.
Qed.

Lemma logs_settled (new : list observed) : Forall is_log new -> settled new.
Proof.
  induction 1 as [|o new Ho Hnew IH]; simpl; [done|].
  split; [|done]. by destruct o.
Qed.

Lemma settled_app (a b : list observed) :
  settled a -> settled b -> (has_raise a -> abort_only b) ->
  settled (a ++ b).
Proof.
  induction a as [|o a IH]; intros Ha Hb Hab; simpl; [done|].
  destruct Ha as [Ho Ha]. split.
  - destruct o as [ev m|ev m err|lvl msg]; try done.
    destruct Ho as [Hlog Hao]. split.
    + apply elem_of_app. by left.
    + apply abort_only_app. split; [done|].
      apply Hab. exists ev, m, err. by left.
  - apply IH; try done. intros (ev & m & err & Hin).
    apply Hab. exists ev, m, err. by right.
Qed.

Lemma settled_split (new pre post : list observed) (ev m : string)
    (err : pyerr) :
  settled new -> new = pre ++ Raised ev m err :: post ->
  Logged EXCEPTION (Feed.unhandled_msg m err) ∈ post /\ abort_only post.
Proof.
  revert new. induction pre as [|o pre IH]; intros new Hs ->; simpl in Hs.
  - by destruct Hs as [Hs _].
  - destruct Hs as [_ Hs]. by eapply IH.
Qed.

(** ** Composing the parts of a run *)

Lemma quiet_refl (s : feed) : quiet s s.
Proof. split; [done|]. exists []. by rewrite app_nil_r. Qed.

Lemma quiet_trans (s1 s2 s3 : feed) : quiet s1 s2 -> quiet s2 s3 -> quiet s1 s3.
Proof.
  intros [Ha1 (n1 & Ht1 & Hl1)] [Ha2 (n2 & Ht2 & Hl2)].
  split; [congruence|]. exists (n1 ++ n2).
  split; [by rewrite Ht2, Ht1, app_assoc|]. by apply Forall_app.
Qed.

Lemma quiet_log (lvl : level) (msg : string) (s : feed) :
  quiet s (log lvl msg s).
Proof.
  split; [done|]. exists [Logged lvl msg]. split; [done|].
  by repeat constructor.
Qed.

Lemma quiet_same (s s' : feed) :
  __abort s' = __abort s -> trace s' = trace s -> quiet s s'.
Proof.
  intros Ha Ht. split; [done|]. exists []. by rewrite app_nil_r.
Qed.

Lemma tr_ok_trans (s s1 s2 : feed) (n1 n2 : list observed) :
  tr_ok s s1 n1 -> tr_ok s1 s2 n2 -> (has_raise n1 -> abort_only n2) ->
  tr_ok s s2 (n1 ++ n2).
Proof.
  intros (Ht1 & Hs1 & Hm1 & Hr1) (Ht2 & Hs2 & Hm2 & Hr2) Hab.
  split; [by rewrite Ht2, Ht1, app_assoc|].
  split; [by apply settled_app|]. split; [auto|].
  intros Hr. apply has_raise_app in Hr as [Hr|Hr]; auto.
Qed.

Lemma tr_abort_trans (s s1 s2 : feed) (n1 n2 : list observed) :
  tr_abort s s1 n1 -> tr_abort s1 s2 n2 -> tr_abort s s2 (n1 ++ n2).
Proof.
  intros [H1 Ha1] [H2 Ha2]. split.
  - by apply (tr_ok_trans s s1 s2).
  - by apply abort_only_app.
Qed.

Lemma aborting_trans (s1 s2 s3 : feed) :
  aborting s1 s2 -> aborting s2 s3 -> aborting s1 s3.
Proof.
  intros [n1 H1] [n2 H2]. exists (n1 ++ n2). by eapply tr_abort_trans.
Qed.

Lemma quiet_aborting (s s' : feed) : quiet s s' -> aborting s s'.
Proof.
  intros [Ha (new & Ht & Hl)]. exists new. split; [split|].
  - done.
  - split; [by apply logs_settled|]. split; [congruence|].
    intros Hr. by apply logs_no_raise in Hr.
  - by apply logs_abort_only.
Qed.

Lemma aborting_flag (s s' : feed) :
  aborting s s' -> __abort s = true -> __abort s' = true.
Proof. intros (new & (_ & _ & Hm & _) & _). done. Qed.

(** ** The calls that only log *)

Lemma quiet_accept (e : entry) (s : feed) : quiet s (Feed.accept e s).1.
Proof.
  unfold Feed.accept. repeat case_match; simpl; by apply quiet_same.
Qed.

Lemma quiet_filter (e : entry) (s : feed) : quiet s (Feed.filter e s).1.
Proof.
  unfold Feed.filter. repeat case_match; simpl; by apply quiet_same.
Qed.

Lemma quiet_reject (e : entry) (s : feed) : quiet s (Feed.reject e s).1.
Proof.
  unfold Feed.reject. repeat case_match; simpl; by apply quiet_same.
Qed.

Lemma quiet_fail (e : entry) (s : feed) : quiet s (Feed.fail e s).1.
Proof.
  unfold Feed.fail. repeat case_match; simpl;
    try apply quiet_refl; try apply quiet_log.
Qed.

Lemma quiet_purge_loop (copy sel not_in_list : list entry) (count : bool) :
  forall s, quiet s (Feed.purge_loop copy sel not_in_list count s).1.
Proof.
  induction copy as [|e copy IH]; intros s; simpl; [apply quiet_refl|].
  repeat case_match; simpl; try apply quiet_refl; try apply quiet_log;
    try apply IH.
  - eapply quiet_trans; [apply quiet_log|].
    eapply quiet_trans; [|apply IH]. by apply quiet_same.
  - eapply quiet_trans; [apply quiet_log|].
    eapply quiet_trans; [|apply IH]. by apply quiet_same.
Qed.

Lemma quiet_purge (sel not_in_list : list entry) (count : bool) (s : feed) :
  quiet s (Feed.__purge sel not_in_list count s).1.
Proof. apply quiet_purge_loop. Qed.

Lemma quiet_log_once (manager : Manager.t) (msg : string) (s : feed) :
  quiet s (Feed.log_once manager msg s).1.
Proof.
  unfold Feed.log_once. repeat case_match; simpl;
    try apply quiet_refl; try (by apply quiet_same).
  eapply quiet_trans; [|apply quiet_log]. by apply quiet_same.
Qed.

Lemma quiet_verbose_progress (manager : Manager.t) (msg : string) (s : feed) :
  quiet s (Feed.verbose_progress manager msg s).
Proof.
  unfold Feed.verbose_progress. case_match;
    [apply quiet_log|apply quiet_refl].
Qed.

Lemma quiet_progress (manager : Manager.t) (event : string) (s : feed) :
  quiet s (Feed.progress manager event s).1.
Proof.
  unfold Feed.progress.
  repeat case_match; simplify_eq; simpl;
    try apply quiet_refl; try apply quiet_verbose_progress.
  all: eapply quiet_trans; apply quiet_verbose_progress.
Qed.

(** ** The dispatcher *)

Lemma aborting_set_abort (s : feed) : aborting s (set_abort true s).
Proof.
  exists []. split; [split|]; simpl.
  - by rewrite app_nil_r.
  - split; [done|]. split; [done|]. intros (ev & m & err & Hin).
    by apply elem_of_nil in Hin.
  - intros ev m Hin. by apply elem_of_nil in Hin.
Qed.

Section Run.

Variable manager : Manager.t.
Variable rec : string -> feed -> option (feed * option pyerr).
Hypothesis rec_ok :
  forall s s' r, rec "abort" s = Some (s', r) -> aborting s s'.

Lemma abort_ok (silent : bool) (s s' : feed) (r : option pyerr) :
  Feed.abort rec silent s = Some (s', r) ->
  aborting s s' /\ __abort s' = true.
Proof.
  unfold Feed.abort. intros Hrec.
  pose proof (rec_ok _ _ _ Hrec) as Hab. split.
  - eapply aborting_trans; [|exact Hab].
    eapply aborting_trans; [|apply aborting_set_abort].
    apply quiet_aborting. case_match; [apply quiet_log|apply quiet_refl].
  - by apply (aborting_flag _ _ Hab).
Qed.

Lemma do_call_ok (c : api_call) (s s' : feed) (r : option pyerr) :
  Feed.do_call manager rec c s = Some (s', r) -> aborting s s'.
Proof.
  destruct c as [e|e|e|e|e| |silent|[|] c]; simpl.
  - intros [= H]. apply quiet_aborting.
    pose proof (quiet_accept e s) as Hq. by rewrite H in Hq.
  - intros [= H]. apply quiet_aborting.
    pose proof (quiet_filter e s) as Hq. by rewrite H in Hq.
  - intros [= H]. apply quiet_aborting.
    pose proof (quiet_reject e s) as Hq. by rewrite H in Hq.
  - intros [= H]. apply quiet_aborting.
    pose proof (quiet_fail e s) as Hq. by rewrite H in Hq.
  - intros [= <- _]. by apply quiet_aborting, quiet_same.
  - intros [= H]. apply quiet_aborting.
    pose proof (quiet_purge (filtered s) (accepted s) true s) as Hq.
    unfold Feed._purge in H. by rewrite H in Hq.
  - intros H. by apply abort_ok in H as [H _].
  - destruct (Feed.run_cache_call manager c (shared_cache s)) as [mc r'].
    intros [= <- _]. by apply quiet_aborting, quiet_same.
  - destruct (Feed.run_cache_call manager c (cache s)) as [mc r'].
    intros [= <- _]. by apply quiet_aborting, quiet_same.
Qed.

Lemma run_module_ok (p : mprog) :
  forall (s s' : feed) (o : outcome),
    Feed.run_module manager rec p s = Some (s', o) -> aborting s s'.
Proof.
  induction p as [o|c k IH]; intros s s' o'; simpl.
  - intros [= <- _]. apply quiet_aborting, quiet_refl.
  - destruct (Feed.do_call manager rec c s) as [[s1 r]|] eqn:Hcall; [|done].
    intros Hrun. eapply aborting_trans.
    + by eapply do_call_ok.
    + by eapply IH.
Qed.

Lemma handle_ok (event keyword : string) (o : outcome) (s s' : feed)
    (r : option pyerr) :
  Feed.handle manager rec event keyword o s = Some (s', r) ->
  aborting s s'.
Proof.
  destruct o as [|[|] msg|err]; simpl.
  - intros [= <- _]. apply quiet_aborting, quiet_refl.
  - intros [= H]. apply quiet_aborting.
    pose proof (quiet_log_once manager msg s) as Hq. by rewrite H in Hq.
  - intros [= <- _]. apply quiet_aborting, quiet_log.
  - intros Hab. apply abort_ok in Hab as [(new & [Hok Hao]) Hflag].
    destruct Hok as (Ht & Hs & Hm & Hr). simpl in Ht.
    exists (Raised event keyword err
              :: Logged EXCEPTION (Feed.unhandled_msg keyword err) :: new).
    split; [split; [|split; [|split]]|].
    + rewrite Ht. by rewrite <- !app_assoc.
    + simpl. split; [split|].
      * by left.
      * intros ev m Hin. apply elem_of_cons in Hin as [?|Hin]; [done|].
        by apply (Hao ev m).
      * done.
    + done.
    + done.
    + intros ev m Hin. apply elem_of_cons in Hin as [?|Hin]; [done|].
      apply elem_of_cons in Hin as [?|Hin]; [done|].
      by apply (Hao ev m).
Qed.

Lemma quiet_set_namespace (keyword : string) (s : feed) :
  quiet s (Feed.__set_namespace manager keyword s).
Proof. by apply quiet_same. Qed.

(** One round of the loop, after the call of the event method has been
    recorded: whatever way it ends, only methods of the abort event
    were called in it. *)
Lemma run_modules_ok (event : string) (modules : list Plugin.t) :
  forall (s s' : feed) (r : option pyerr),
    Feed.run_modules manager rec event modules s = Some (s', r) ->
    exists new, tr_ok s s' new /\ (event = "abort" -> abort_only new).
Proof.
  induction modules as [|module modules IH]; intros s s' r; simpl.
  - intros [= <- _]. exists []. split.
    + destruct (quiet_aborting s s (quiet_refl s)) as (new & [Hok _]).
      split; [by rewrite app_nil_r|]. split; [done|]. split; [done|].
      intros (ev & m & err & Hin). by apply elem_of_nil in Hin.
    + intros _ ev m Hin. by apply elem_of_nil in Hin.
  - destruct (has_key (Plugin.name module) (config s)
              || Plugin.builtin module); [|apply IH].
    set (keyword := Plugin.name module).
    set (s3 := observe [Invoked event keyword]
                 (set_current event keyword
                    (Feed.__set_namespace manager keyword s))).
    (* every way out of the round *)
    assert (forall s7, aborting s3 s7 ->
              exists new, tr_ok s s7 new /\
                          (event = "abort" -> abort_only new)) as Hround.
    { intros s7 (new & [(Ht & Hs & Hm & Hr) Hao]).
      exists (Invoked event keyword :: new). split; [split|].
      - rewrite Ht. simpl. by rewrite <- app_assoc.
      - split; [done|]. split; [done|].
        intros (ev & m & err & Hin).
        apply elem_of_cons in Hin as [?|Hin]; [done|].
        apply Hr. by exists ev, m, err.
      - intros -> ev m Hin.
        apply elem_of_cons in Hin as [[= -> _]|Hin]; [done|].
        by apply (Hao ev m). }
    destruct (Feed.run_module manager rec (Plugin.instance module event s3) s3)
      as [[s4 o]|] eqn:Hrun; [|done].
    apply run_module_ok in Hrun.
    destruct (Feed.handle manager rec event keyword o s4)
      as [[s5 [err|]]|] eqn:Hh; [| |done].
    { intros [= <- _]. apply Hround.
      eapply aborting_trans; [exact Hrun|]. by eapply handle_ok. }
    apply handle_ok in Hh.
    assert (aborting s3 s5) as H5 by by eapply aborting_trans.
    destruct (Feed.__purge_rejected s5) as [s6 [err|]] eqn:Hp6.
    { intros [= <- _]. apply Hround.
      eapply aborting_trans; [exact H5|]. apply quiet_aborting.
      pose proof (quiet_purge (rejected s5) [] true s5) as Hq.
      unfold Feed.__purge_rejected in Hp6. by rewrite Hp6 in Hq. }
    assert (aborting s3 s6) as H6.
    { eapply aborting_trans; [exact H5|]. apply quiet_aborting.
      pose proof (quiet_purge (rejected s5) [] true s5) as Hq.
      unfold Feed.__purge_rejected in Hp6. by rewrite Hp6 in Hq. }
    destruct (Feed.__purge_failed s6) as [s7 [err|]] eqn:Hp7.
    { intros [= <- _]. apply Hround.
      eapply aborting_trans; [exact H6|]. apply quiet_aborting.
      pose proof (quiet_purge (failed s6) [] false s6) as Hq.
      unfold Feed.__purge_failed in Hp7. by rewrite Hp7 in Hq. }
    assert (aborting s3 s7) as H7.
    { eapply aborting_trans; [exact H6|]. apply quiet_aborting.
      pose proof (quiet_purge (failed s6) [] false s6) as Hq.
      unfold Feed.__purge_failed in Hp7. by rewrite Hp7 in Hq. }
    destruct (__abort s7) eqn:Hflag.
    { intros [= <- _]. by apply Hround. }
    intros Hrest.
    destruct (Hround s7 H7) as (n1 & Hok1 & Hab1).
    destruct (IH s7 s' r Hrest) as (n2 & Hok2 & Hab2).
    exists (n1 ++ n2). split.
    + eapply tr_ok_trans; [exact Hok1|exact Hok2|].
      intros Hraise. destruct Hok1 as (_ & _ & _ & Hr1).
      rewrite Hr1 in Hflag; done.
    + intros Hev. apply abort_only_app. auto.
Qed.

End Run.

Lemma run_event_ok (manager : Manager.t) (fuel : nat) :
  forall (event : string) (s s' : feed) (r : option pyerr),
    Feed.__run_event manager fuel event s = Some (s', r) ->
    exists new, tr_ok s s' new /\ (event = "abort" -> abort_only new).
Proof.
  induction fuel as [|fuel IH]; intros event s s' r; simpl; [done|].
  apply run_modules_ok.
  intros s1 s1' r1 Hrec.
  destruct (IH _ _ _ _ Hrec) as (new & Hok & Hab).
  exists new. split; [done|]. by apply Hab.
Qed.

Lemma run_event_aborting (manager : Manager.t) (fuel : nat) (s s' : feed)
    (r : option pyerr) :
  Feed.__run_event manager fuel "abort" s = Some (s', r) -> aborting s s'.
Proof.
  intros H. destruct (run_event_ok _ _ _ _ _ _ H) as (new & Hok & Hab).
  exists new. split; [done|]. by apply Hab.
Qed.

Lemma run_event_running (manager : Manager.t) (fuel : nat) (event : string)
    (s s' : feed) (r : option pyerr) :
  Feed.__run_event manager fuel event s = Some (s', r) -> running s s'.
Proof.
  intros H. destruct (run_event_ok _ _ _ _ _ _ H) as (new & Hok & _).
  by exists new.
Qed.

(** ** A whole run *)

Lemma aborting_running (s s' : feed) : aborting s s' -> running s s'.
Proof. intros (new & [Hok _]). by exists new. Qed.

Lemma running_then_aborting (s s1 s2 : feed) :
  running s s1 -> aborting s1 s2 -> running s s2.
Proof.
  intros [n1 H1] (n2 & [H2 Hab]). exists (n1 ++ n2).
  by apply (tr_ok_trans s s1 s2).
Qed.

Lemma running_trans (s s1 s2 : feed) :
  running s s1 -> __abort s1 = false -> running s1 s2 -> running s s2.
Proof.
  intros [n1 H1] Hflag [n2 H2]. exists (n1 ++ n2).
  apply (tr_ok_trans s s1 s2); try done.
  intros Hr. destruct H1 as (_ & _ & _ & Hr1).
  rewrite Hr1 in Hflag; done.
Qed.

Lemma quiet_running (s s1 s2 : feed) :
  quiet s s1 -> running s1 s2 -> running s s2.
Proof.
  intros [Ha (n1 & Ht & Hl)] [n2 H2]. exists (n1 ++ n2).
  apply (tr_ok_trans s s1 s2); [|done|].
  - split; [done|]. split; [by apply logs_settled|].
    split; [congruence|]. intros Hr. by apply logs_no_raise in Hr.
  - intros Hr. by apply logs_no_raise in Hr.
Qed.

Section WholeRun.

Variable manager : Manager.t.

Lemma quiet_validate_keyword (keyword : string) (acc : feed * list string) :
  quiet acc.1 (Feed.validate_keyword manager keyword acc).1.
Proof.
  destruct acc as [s errs]. unfold Feed.validate_keyword.
  repeat case_match; simpl; try apply quiet_refl; apply quiet_log.
Qed.

Lemma quiet_validate_loop (keywords : list string) :
  forall acc : feed * list string,
    quiet acc.1
      (foldl (fun acc keyword => Feed.validate_keyword manager keyword acc)
         acc keywords).1.
Proof.
  induction keywords as [|kw keywords IH]; intros acc; simpl;
    [apply quiet_refl|].
  eapply quiet_trans; [apply quiet_validate_keyword|apply IH].
Qed.

Lemma quiet_log_errors (errors : list string) :
  forall s, quiet s (foldl (fun s error => log ERROR error s) s errors).
Proof.
  induction errors as [|e errors IH]; intros s; simpl; [apply quiet_refl|].
  eapply quiet_trans; [apply quiet_log|apply IH].
Qed.

Lemma validate_ok (fuel : nat) (s s' : feed) (errors : list string)
    (r : option pyerr) :
  Feed.validate manager fuel s = Some (s', errors, r) -> aborting s s'.
Proof.
  unfold Feed.validate.
  pose proof (quiet_validate_loop (map_to_list (config s)).*1 (s, []))
    as Hloop.
  destruct (foldl _ _ _) as [s1 errs]. simpl in Hloop.
  destruct errs as [|e errs].
  - intros [= <- _ _]. by apply quiet_aborting.
  - destruct (Feed.abort _ _ _) as [[s4 r4]|] eqn:Hab; [|done].
    intros [= <- _ _].
    apply abort_ok in Hab as [Hab _];
      [|intros ? ? ?; apply run_event_aborting].
    eapply aborting_trans; [|exact Hab]. apply quiet_aborting.
    eapply quiet_trans; [exact Hloop|].
    eapply quiet_trans; [apply quiet_log|].
    apply (quiet_log_errors (e :: errs)).
Qed.

Lemma quiet_log_not_executed (event : string) (s : feed) :
  quiet s (Feed.log_not_executed manager event s).
Proof.
  unfold Feed.log_not_executed.
  generalize (Manager.get_modules_by_event manager event). intros ms.
  revert s. induction ms as [|m ms IH]; intros s; simpl;
    [apply quiet_refl|].
  eapply quiet_trans; [|apply IH].
  case_match; [apply quiet_log|apply quiet_refl].
Qed.

Lemma run_events_ok (fuel : nat) (events : list string) :
  forall (s s' : feed) (r : option pyerr),
    Feed.run_events manager fuel events s = Some (s', r) -> running s s'.
Proof.
  induction events as [|event events IH]; intros s s' r; simpl.
  - intros [= <- _]. apply aborting_running, quiet_aborting, quiet_refl.
  - case_match.
    { intros Hrest. apply IH in Hrest.
      eapply quiet_running; [|exact Hrest].
      apply quiet_log_not_executed. }
    destruct (Feed.__run_event manager fuel event s)
      as [[s1 [err|]]|] eqn:Hev; [| |done].
    { intros [= <- _]. by eapply run_event_running. }
    apply run_event_running in Hev.
    destruct (Feed._purge s1) as [s2 [err|]] eqn:Hp.
    { intros [= <- _]. eapply running_then_aborting; [exact Hev|].
      apply quiet_aborting.
      pose proof (quiet_purge (filtered s1) (accepted s1) true s1) as Hq.
      unfold Feed._purge in Hp. by rewrite Hp in Hq. }
    assert (running s s2) as H2.
    { eapply running_then_aborting; [exact Hev|]. apply quiet_aborting.
      pose proof (quiet_purge (filtered s1) (accepted s1) true s1) as Hq.
      unfold Feed._purge in Hp. by rewrite Hp in Hq. }
    destruct (Feed.progress manager event s2) as [s3 r3] eqn:Hpr.
    assert (running s s3) as H3.
    { eapply running_then_aborting; [exact H2|]. apply quiet_aborting.
      pose proof (quiet_progress manager event s2) as Hq.
      by rewrite Hpr in Hq. }
    destruct r3 as [err|]; [by intros [= <- _]|].
    destruct (__abort s3) eqn:Hflag; [by intros [= <- _]|].
    intros Hrest. apply IH in Hrest. by eapply running_trans.
Qed.

Lemma execute_ok (fuel : nat) (s s' : feed) (r : option pyerr) :
  Feed.execute manager fuel s = Some (s', r) -> running s s'.
Proof.
  unfold Feed.execute.
  destruct (Feed.validate manager fuel s) as [[[s1 errors] [err|]]|] eqn:Hv;
    [| |done].
  { intros [= <- _]. by eapply aborting_running, validate_ok. }
  apply validate_ok, aborting_running in Hv.
  destruct (__abort s1) eqn:Hflag; [by intros [= <- _]|].
  case_match; [by intros [= <- _]|].
  intros Hrun. apply run_events_ok in Hrun. by eapply running_trans.
Qed.

Lemma terminate_ok (fuel : nat) (s s' : feed) (r : option pyerr) :
  Feed.terminate manager fuel s = Some (s', r) -> running s s'.
Proof.
  unfold Feed.terminate. case_match.
  - intros [= <- _]. apply aborting_running, quiet_aborting, quiet_refl.
  - apply run_event_running.
Qed.

(** [execute] followed by [terminate] *)
Lemma run_ok (fuel : nat) (s s1 s2 : feed) (r1 r2 : option pyerr) :
  Feed.execute manager fuel s = Some (s1, r1) ->
  Feed.terminate manager fuel s1 = Some (s2, r2) ->
  running s s2.
Proof.
  intros He Ht. apply execute_ok in He.
  destruct (__abort s1) eqn:Hflag.
  - unfold Feed.terminate in Ht. rewrite Hflag in Ht.
    by injection Ht as <- _.
  - apply terminate_ok in Ht. by eapply running_trans.
Qed.

End WholeRun.

(** ** A run as far as it gets *)

(** Where a call returns, the dispatcher that keeps the feed gives what
    the dispatcher above gives; where it is pending, that one gives
    [None]. *)
Section Agree.

Variable manager : Manager.t.
Variable rec : string -> feed -> option (feed * option pyerr).
Variable rec' : string -> feed -> partial (feed * option pyerr).
Hypothesis rec_agree : forall event s, returned (rec' event s) = rec event s.

Lemma abort_returned (silent : bool) (s : feed) :
  returned (Feed.abort_so_far rec' silent s) = Feed.abort rec silent s.
Proof. apply rec_agree. Qed.

Lemma do_call_returned (c : api_call) (s : feed) :
  returned (Feed.do_call_so_far manager rec' c s)
  = Feed.do_call manager rec c s.
Proof.
  destruct c as [e|e|e|e|e| |silent|[|] c]; simpl; try done.
  - apply abort_returned.
  - by destruct (Feed.run_cache_call manager c (shared_cache s)).
  - by destruct (Feed.run_cache_call manager c (cache s)).
Qed.

Lemma run_module_returned (p : mprog) :
  forall s,
    returned (Feed.run_module_so_far manager rec' p s)
    = Feed.run_module manager rec p s.
Proof.
  induction p as [o|c k IH]; intros s; simpl; [done|].
  rewrite <- do_call_returned.
  destruct (Feed.do_call_so_far manager rec' c s) as [[s1 r]|s1]; simpl;
    [apply IH|done].
Qed.

Lemma handle_returned (event keyword : string) (o : outcome) (s : feed) :
  returned (Feed.handle_so_far manager rec' event keyword o s)
  = Feed.handle manager rec event keyword o s.
Proof.
  destruct o as [|[|] msg|err]; simpl; try done. apply abort_returned.
Qed.

Lemma run_modules_returned (event : string) (modules : list Plugin.t) :
  forall s,
    returned (Feed.run_modules_so_far manager rec' event modules s)
    = Feed.run_modules manager rec event modules s.
Proof.
  induction modules as [|module modules IH]; intros s; simpl; [done|].
  case_match; [|apply IH].
  rewrite <- run_module_returned.
  destruct (Feed.run_module_so_far _ _ _ _) as [[s4 o]|s4]; simpl; [|done].
  rewrite <- handle_returned.
  destruct (Feed.handle_so_far _ _ _ _ _ _) as [[s5 [err|]]|s5]; simpl;
    try done.
  repeat case_match; try done; apply IH.
Qed.

End Agree.

Lemma run_event_returned (manager : Manager.t) (fuel : nat) :
  forall event s,
    returned (Feed.__run_event_so_far manager fuel event s)
    = Feed.__run_event manager fuel event s.
Proof.
  induction fuel as [|fuel IH]; intros event s; simpl; [done|].
  by apply run_modules_returned.
Qed.

Lemma validate_returned (manager : Manager.t) (fuel : nat) (s : feed) :
  returned (Feed.validate_so_far manager fuel s)
  = Feed.validate manager fuel s.
Proof.
  unfold Feed.validate_so_far, Feed.validate.
  destruct (foldl _ _ _) as [s1 errs]. destruct errs as [|e errs]; [done|].
  rewrite <- (abort_returned _ (Feed.__run_event_so_far manager fuel)
                (run_event_returned manager fuel)).
  by destruct (Feed.abort_so_far _ _ _) as [[s4 r]|s4].
Qed.

Lemma run_events_returned (manager : Manager.t) (fuel : nat)
    (events : list string) :
  forall s,
    returned (Feed.run_events_so_far manager fuel events s)
    = Feed.run_events manager fuel events s.
Proof.
  induction events as [|event events IH]; intros s; simpl; [done|].
  case_match; [apply IH|].
  rewrite <- run_event_returned.
  destruct (Feed.__run_event_so_far _ _ _ _) as [[s1 [err|]]|s1]; simpl;
    try done.
  repeat case_match; try done; apply IH.
Qed.

Lemma execute_returned (manager : Manager.t) (fuel : nat) (s : feed) :
  returned (Feed.execute_so_far manager fuel s)
  = Feed.execute manager fuel s.
Proof.
  unfold Feed.execute_so_far, Feed.execute.
  rewrite <- validate_returned.
  destruct (Feed.validate_so_far _ _ _) as [[[s1 errors] [err|]]|s1]; simpl;
    try done.
  repeat case_match; try done; apply run_events_returned.
Qed.

Lemma terminate_returned (manager : Manager.t) (fuel : nat) (s : feed) :
  returned (Feed.terminate_so_far manager fuel s)
  = Feed.terminate manager fuel s.
Proof.
  unfold Feed.terminate_so_far, Feed.terminate.
  case_match; [done|apply run_event_returned].
Qed.

(** A run that returns has reached the feed it returns with. *)
Lemma run_so_far_returned (manager : Manager.t) (fuel : nat)
    (s s1 s2 : feed) (r1 r2 : option pyerr) :
  Feed.execute manager fuel s = Some (s1, r1) ->
  Feed.terminate manager fuel s1 = Some (s2, r2) ->
  run_so_far manager fuel s = s2.
Proof.
  rewrite <- execute_returned. unfold run_so_far.
  destruct (Feed.execute_so_far _ _ _) as [[s1' r1']|s1']; simpl; [|done].
  intros [= -> ->]. rewrite <- terminate_returned.
  destruct (Feed.terminate_so_far _ _ _) as [[s2' r2']|s2']; simpl; [|done].
  by intros [= -> ->].
Qed.

(** What holds of the parts of a run that returns holds of the feed that
    any run has reached. *)
Section RunSoFar.

Variable manager : Manager.t.
Variable rec : string -> feed -> partial (feed * option pyerr).
Hypothesis rec_ok : forall s, aborting s (reached fst (rec "abort" s)).

Lemma abort_so_far_ok (silent : bool) (s : feed) :
  aborting s (reached fst (Feed.abort_so_far rec silent s)) /\
  __abort (reached fst (Feed.abort_so_far rec silent s)) = true.
Proof.
  unfold Feed.abort_so_far.
  match goal with
  | |- context [rec "abort" ?s1] => pose proof (rec_ok s1) as Hab
  end.
  split.
  - eapply aborting_trans; [|exact Hab].
    eapply aborting_trans; [|apply aborting_set_abort].
    apply quiet_aborting. case_match; [apply quiet_log|apply quiet_refl].
  - by apply (aborting_flag _ _ Hab).
Qed.

Lemma do_call_so_far_ok (c : api_call) (s : feed) :
  aborting s (reached fst (Feed.do_call_so_far manager rec c s)).
Proof.
  destruct c as [e|e|e|e|e| |silent|[|] c]; simpl.
  - apply quiet_aborting, quiet_accept.
  - apply quiet_aborting, quiet_filter.
  - apply quiet_aborting, quiet_reject.
  - apply quiet_aborting, quiet_fail.
  - by apply quiet_aborting, quiet_same.
  - apply quiet_aborting, quiet_purge.
  - apply abort_so_far_ok.
  - destruct (Feed.run_cache_call manager c (shared_cache s)) as [mc r'].
    by apply quiet_aborting, quiet_same.
  - destruct (Feed.run_cache_call manager c (cache s)) as [mc r'].
    by apply quiet_aborting, quiet_same.
Qed.

Lemma run_module_so_far_ok (p : mprog) :
  forall s, aborting s (reached fst (Feed.run_module_so_far manager rec p s)).
Proof.
  induction p as [o|c k IH]; intros s; simpl.
  - apply quiet_aborting, quiet_refl.
  - pose proof (do_call_so_far_ok c s) as Hcall.
    destruct (Feed.do_call_so_far manager rec c s) as [[s1 r]|s1];
      simpl in *; [|done].
    eapply aborting_trans; [exact Hcall|apply IH].
Qed.

Lemma handle_so_far_ok (event keyword : string) (o : outcome) (s : feed) :
  aborting s
    (reached fst (Feed.handle_so_far manager rec event keyword o s)).
Proof.
  destruct o as [|[|] msg|err]; simpl.
  - apply quiet_aborting, quiet_refl.
  - apply quiet_aborting, quiet_log_once.
  - apply quiet_aborting, quiet_log.
  - match goal with
    | |- aborting _ (reached fst (Feed.abort_so_far rec false ?s1)) =>
        destruct (abort_so_far_ok false s1)
          as [(new & [Hok Hao]) Hflag]
    end.
    destruct Hok as (Ht & Hs & Hm & Hr). simpl in Ht.
    exists (Raised event keyword err
              :: Logged EXCEPTION (Feed.unhandled_msg keyword err) :: new).
    split; [split; [|split; [|split]]|].
    + rewrite Ht. by rewrite <- !app_assoc.
    + simpl. split; [split|].
      * by left.
      * intros ev m Hin. apply elem_of_cons in Hin as [?|Hin]; [done|].
        by apply (Hao ev m).
      * done.
    + done.
    + done.
    + intros ev m Hin. apply elem_of_cons in Hin as [?|Hin]; [done|].
      apply elem_of_cons in Hin as [?|Hin]; [done|].
      by apply (Hao ev m).
Qed.

Lemma run_modules_so_far_ok (event : string) (modules : list Plugin.t) :
  forall s, exists new,
    tr_ok s (reached fst (Feed.run_modules_so_far manager rec event modules s))
      new /\
    (event = "abort" -> abort_only new).
Proof.
  induction modules as [|module modules IH]; intros s; simpl.
  - exists []. split.
    + split; [by rewrite app_nil_r|]. split; [done|]. split; [done|].
      intros (ev & m & err & Hin). by apply elem_of_nil in Hin.
    + intros _ ev m Hin. by apply elem_of_nil in Hin.
  - destruct (has_key (Plugin.name module) (config s)
              || Plugin.builtin module); [|apply IH].
    set (keyword := Plugin.name module).
    set (s3 := observe [Invoked event keyword]
                 (set_current event keyword
                    (Feed.__set_namespace manager keyword s))).
    (* every way out of the round *)
    assert (forall s7, aborting s3 s7 ->
              exists new, tr_ok s s7 new /\
                          (event = "abort" -> abort_only new)) as Hround.
    { intros s7 (new & [(Ht & Hs & Hm & Hr) Hao]).
      exists (Invoked event keyword :: new). split; [split|].
      - rewrite Ht. simpl. by rewrite <- app_assoc.
      - split; [done|]. split; [done|].
        intros (ev & m & err & Hin).
        apply elem_of_cons in Hin as [?|Hin]; [done|].
        apply Hr. by exists ev, m, err.
      - intros -> ev m Hin.
        apply elem_of_cons in Hin as [[= -> _]|Hin]; [done|].
        by apply (Hao ev m). }
    pose proof (run_module_so_far_ok (Plugin.instance module event s3) s3)
      as Hrun.
    destruct (Feed.run_module_so_far manager rec
                (Plugin.instance module event s3) s3)
      as [[s4 o]|s4]; simpl in Hrun; [|by apply Hround].
    pose proof (handle_so_far_ok event keyword o s4) as Hh.
    destruct (Feed.handle_so_far manager rec event keyword o s4)
      as [[s5 r5]|s5]; simpl in Hh.
    2:{ apply Hround. by eapply aborting_trans. }
    assert (aborting s3 s5) as H5 by by eapply aborting_trans.
    destruct r5 as [err|]; [by apply Hround|].
    assert (aborting s3 (Feed.__purge_rejected s5).1) as H6.
    { eapply aborting_trans; [exact H5|].
      apply quiet_aborting, quiet_purge. }
    destruct (Feed.__purge_rejected s5) as [s6 [err|]]; simpl in H6;
      [by apply Hround|].
    assert (aborting s3 (Feed.__purge_failed s6).1) as H7.
    { eapply aborting_trans; [exact H6|].
      apply quiet_aborting, quiet_purge. }
    destruct (Feed.__purge_failed s6) as [s7 [err|]]; simpl in H7;
      [by apply Hround|].
    destruct (__abort s7) eqn:Hflag; [by apply Hround|].
    destruct (Hround s7 H7) as (n1 & Hok1 & Hab1).
    destruct (IH s7) as (n2 & Hok2 & Hab2).
    exists (n1 ++ n2). split.
    + eapply tr_ok_trans; [exact Hok1|exact Hok2|].
      intros Hraise. destruct Hok1 as (_ & _ & _ & Hr1).
      rewrite Hr1 in Hflag; done.
    + intros Hev. apply abort_only_app. auto.
Qed.

End RunSoFar.

Lemma run_event_so_far_ok (manager : Manager.t) (fuel : nat) :
  forall (event : string) (s : feed), exists new,
    tr_ok s (reached fst (Feed.__run_event_so_far manager fuel event s)) new /\
    (event = "abort" -> abort_only new).
Proof.
  induction fuel as [|fuel IH]; intros event s; simpl.
  - exists []. split.
    + split; [by rewrite app_nil_r|]. split; [done|]. split; [done|].
      intros (ev & m & err & Hin). by apply elem_of_nil in Hin.
    + intros _ ev m Hin. by apply elem_of_nil in Hin.
  - apply run_modules_so_far_ok. intros s1.
    destruct (IH "abort" s1) as (new & Hok & Hab).
    exists new. split; [done|]. by apply Hab.
Qed.

Lemma run_event_so_far_aborting (manager : Manager.t) (fuel : nat) (s : feed) :
  aborting s (reached fst (Feed.__run_event_so_far manager fuel "abort" s)).
Proof.
  destruct (run_event_so_far_ok manager fuel "abort" s) as (new & Hok & Hab).
  exists new. split; [done|]. by apply Hab.
Qed.

Lemma run_event_so_far_running (manager : Manager.t) (fuel : nat)
    (event : string) (s : feed) :
  running s (reached fst (Feed.__run_event_so_far manager fuel event s)).
Proof.
  destruct (run_event_so_far_ok manager fuel event s) as (new & Hok & _).
  by exists new.
Qed.

Lemma validate_so_far_ok (manager : Manager.t) (fuel : nat) (s : feed) :
  aborting s
    (reached (fun x => x.1.1) (Feed.validate_so_far manager fuel s)).
Proof.
  unfold Feed.validate_so_far.
  pose proof (quiet_validate_loop manager (map_to_list (config s)).*1 (s, []))
    as Hloop.
  destruct (foldl _ _ _) as [s1 errs]. simpl in Hloop.
  destruct errs as [|e errs]; [by apply quiet_aborting|].
  match goal with
  | |- context [Feed.abort_so_far ?rec false ?s3] =>
      destruct (abort_so_far_ok rec (run_event_so_far_aborting manager fuel)
                  false s3) as [Hab _];
      assert (aborting s s3) as Hpre
  end.
  { apply quiet_aborting.
    eapply quiet_trans; [exact Hloop|].
    eapply quiet_trans; [apply quiet_log|].
    apply (quiet_log_errors (e :: errs)). }
  destruct (Feed.abort_so_far _ _ _) as [[s4 r4]|s4]; simpl in *;
    by eapply aborting_trans.
Qed.

Lemma run_events_so_far_ok (manager : Manager.t) (fuel : nat)
    (events : list string) :
  forall s,
    running s (reached fst (Feed.run_events_so_far manager fuel events s)).
Proof.
  induction events as [|event events IH]; intros s; simpl.
  - apply aborting_running, quiet_aborting, quiet_refl.
  - case_match.
    { eapply quiet_running; [apply quiet_log_not_executed|apply IH]. }
    pose proof (run_event_so_far_running manager fuel event s) as Hev.
    destruct (Feed.__run_event_so_far manager fuel event s)
      as [[s1 [err|]]|s1]; simpl in Hev; try done.
    assert (running s (Feed._purge s1).1) as H2.
    { eapply running_then_aborting; [exact Hev|].
      apply quiet_aborting, quiet_purge. }
    destruct (Feed._purge s1) as [s2 [err|]]; simpl in H2; [done|].
    assert (running s (Feed.progress manager event s2).1) as H3.
    { eapply running_then_aborting; [exact H2|].
      apply quiet_aborting, quiet_progress. }
    destruct (Feed.progress manager event s2) as [s3 [err|]]; simpl in H3;
      [done|].
    destruct (__abort s3) eqn:Hflag; [done|].
    eapply running_trans; [exact H3|exact Hflag|apply IH].
Qed.

Lemma execute_so_far_ok (manager : Manager.t) (fuel : nat) (s : feed) :
  running s (reached fst (Feed.execute_so_far manager fuel s)).
Proof.
  unfold Feed.execute_so_far.
  pose proof (aborting_running _ _ (validate_so_far_ok manager fuel s)) as Hv.
  destruct (Feed.validate_so_far manager fuel s)
    as [[[s1 errors] [err|]]|s1]; simpl in Hv; try done.
  destruct (__abort s1) eqn:Hflag; [done|].
  case_match; [done|].
  eapply running_trans; [exact Hv|exact Hflag|apply run_events_so_far_ok].
Qed.

Lemma terminate_so_far_ok (manager : Manager.t) (fuel : nat) (s : feed) :
  running s (reached fst (Feed.terminate_so_far manager fuel s)).
Proof.
  unfold Feed.terminate_so_far. case_match.
  - apply aborting_running, quiet_aborting, quiet_refl.
  - apply run_event_so_far_running.
Qed.

(** [execute] followed by [terminate], as far as they get *)
Lemma run_so_far_ok (manager : Manager.t) (fuel : nat) (s : feed) :
  running s (run_so_far manager fuel s).
Proof.
  unfold run_so_far.
  pose proof (execute_so_far_ok manager fuel s) as He.
  destruct (Feed.execute_so_far manager fuel s) as [[s1 r1]|s1];
    simpl in He; [|done].
  destruct (__abort s1) eqn:Hflag.
  - unfold Feed.terminate_so_far. by rewrite Hflag.
  - eapply running_trans; [exact He|exact Hflag|apply terminate_so_far_ok].
Qed.

(** A run that returns without an exception, in terms of its result *)
Lemma run_result {A : Type} (x : option (A * option pyerr)) (d : A) :
  match x with
  | Some (_, None) => true
  | _ => false
  end = true ->
  x = Some (from_option fst d x, None).
Proof. by destruct x as [[a [e|]]|]. Qed.

Lemma pair_result {A : Type} (p : A * option pyerr) :
  p.2 = None -> p = (p.1, None).
Proof. destruct p as [a r]. simpl. by intros ->. Qed.

(** Closing a decidable goal, or the equation of a run, by evaluation *)
Ltac by_decide := apply (bool_decide_unpack _); vm_compute; exact I.
Ltac by_run := apply run_result; vm_compute; reflexivity.

(** C2, as stated: after an exception of a module that is no warning, no
    further module of that event is called. The handler of the
    dispatcher calls [abort], and [abort] dispatches the abort event
    whoever calls it; when the exception is of a module of the abort
    event, the modules of that event are therefore called again. Here
    the module "flaky" of the abort event raises, and is then called
    once more, in a run of [execute] that returns. *)
Lemma C2_counterexample :
  Feed.execute flaky_manager 3 flaky_feed = Some (flaky_after_execute, None) /\
  trace flaky_after_execute
  = trace flaky_feed ++ flaky_pre
    ++ Raised "abort" "flaky" (OtherError "again") :: flaky_post /\
  Invoked "abort" "flaky" ∈ flaky_post.
Proof.
  split; [|split].
  - by_run.
  - by_decide.
  - by_decide.
Qed.

(** C2, amended: when a call of a module's event method raises an
    exception that is no warning, the exception is logged, the abort
    flag is set, and from then on no module method is called except for
    the abort event that [abort] dispatches: no further module of the
    event, unless it is the abort event itself, and no module of any
    later event of the run ([execute] followed by [terminate]). This
    holds of the feed wherever the run has got to, whether it returns or
    not: [run_so_far] is the feed the run returns with
    ([run_so_far_returned]) or the feed at the depth [fuel] of a run
    whose abort event keeps re-entering the dispatcher. *)
Theorem C2_unhandled_error_aborts (manager : Manager.t) (fuel : nat)
    (s : feed) (pre post : list observed)
    (event module : string) (err : pyerr) :
  trace (run_so_far manager fuel s)
  = trace s ++ pre ++ Raised event module err :: post ->
  Logged EXCEPTION (Feed.unhandled_msg module err) ∈ post /\
  __abort (run_so_far manager fuel s) = true /\
  (forall event' module',
     Invoked event' module' ∈ post -> event' = "abort") /\
  (event <> "abort" -> forall module', Invoked event module' ∉ post) /\
  (forall event' module',
     event' ∈ Manager.events manager -> event' <> "abort" ->
     Invoked event' module' ∉ post).
Proof.
  intros Htrace.
  destruct (run_so_far_ok manager fuel s) as (new & Hnew & Hs & _ & Hr).
  rewrite Hnew in Htrace. apply app_inv_head in Htrace.
  destruct (settled_split new pre post event module err Hs Htrace)
    as [Hlog Hab].
  split; [done|]. split; [|split; [done|split]].
  - apply Hr. exists event, module, err. rewrite Htrace.
    apply elem_of_app. right. by left.
  - intros Hne module' Hin. by apply Hab in Hin.
  - intros event' module' _ Hne Hin. by apply Hab in Hin.
Qed.

(** With a module for the abort event that raises every time, the
    dispatch of the abort event does not return, whatever the fuel, and
    neither does a run in which a module raises. *)
Lemma alarm_round_pending
    (rec : string -> feed -> option (feed * option pyerr)) (event : string)
    (module : Plugin.t) (s : feed) :
  (forall s', rec "abort" s' = None) ->
  Plugin.builtin module = true ->
  (forall s', exists s'' err,
     Feed.run_module alarm_manager rec (Plugin.instance module event s') s'
     = Some (s'', Failed err)) ->
  Feed.run_modules alarm_manager rec event [module] s = None.
Proof.
  intros Hrec Hb Hrun. simpl. rewrite Hb, orb_true_r.
  match goal with
  | |- context [Feed.run_module _ _ _ ?s3] =>
      destruct (Hrun s3) as (s4 & err & ->)
  end.
  simpl. unfold Feed.abort. by rewrite Hrec.
Qed.

Lemma alarm_abort_pending (fuel : nat) :
  forall s, Feed.__run_event alarm_manager fuel "abort" s = None.
Proof.
  induction fuel as [|fuel IH]; intros s; [done|].
  apply (alarm_round_pending _ "abort" alarm_module); [done|done|].
  intros s'. by exists s', (OtherError "no mail").
Qed.

Lemma alarm_run_pending (fuel : nat) :
  Feed.execute alarm_manager fuel alarm_feed = None.
Proof.
  destruct fuel as [|fuel]; [done|].
  assert (forall s, Feed.__run_event alarm_manager (S fuel) "filter" s = None)
    as Hfilter.
  { intros s.
    apply (alarm_round_pending _ "filter" broken_module); [|done|].
    - apply alarm_abort_pending.
    - intros s'. simpl. destruct (Feed.filter entry_a s') as [s'' r].
      by exists s'', (OtherError "boom"). }
  unfold Feed.execute.
  assert (Feed.validate alarm_manager (S fuel) alarm_feed
          = Some (alarm_feed, [], None)) as -> by reflexivity.
  change (Feed.run_events alarm_manager (S fuel) ["filter"; "output"]
            alarm_feed = None).
  cbn [Feed.run_events]. by rewrite Hfilter.
Qed.

(** The run of [alarm_feed] does not return ([alarm_run_pending]). At
    depth 3 the
    exception of "broken" is logged, the flag is set and only the abort
    event has been dispatched since. *)
Lemma C2_unhandled_error_aborts_witness :
  Logged EXCEPTION (Feed.unhandled_msg "broken" (OtherError "boom"))
    ∈ alarm_post /\
  __abort (run_so_far alarm_manager 3 alarm_feed) = true /\
  (forall event' module',
     Invoked event' module' ∈ alarm_post -> event' = "abort") /\
  ("filter" <> "abort" ->
   forall module', Invoked "filter" module' ∉ alarm_post) /\
  (forall event' module',
     event' ∈ Manager.events alarm_manager -> event' <> "abort" ->
     Invoked event' module' ∉ alarm_post).
Proof.
  apply (C2_unhandled_error_aborts alarm_manager 3 alarm_feed
           [Invoked "filter" "broken"] alarm_post
           "filter" "broken" (OtherError "boom")).
  by_decide.
Defined.

(** ** Enough fuel *)

Section Returns.

Variable manager : Manager.t.

Lemma run_module_calm (rec : string -> feed -> option (feed * option pyerr))
    (p : mprog) :
  calm p ->
  forall s, exists s' o,
    Feed.run_module manager rec p s = Some (s', o) /\ forall err, o <> Failed err.
Proof.
  induction p as [o|c k IH]; simpl.
  - intros Ho s. by exists s, o.
  - intros [Hc Hk] s.
    assert (exists s1 r, Feed.do_call manager rec c s = Some (s1, r))
      as (s1 & r & ->).
    { destruct c as [e|e|e|e|e| |silent|[|] c]; simpl.
      - destruct (Feed.accept e s); eauto.
      - destruct (Feed.filter e s); eauto.
      - destruct (Feed.reject e s); eauto.
      - destruct (Feed.fail e s); eauto.
      - eauto.
      - destruct (Feed._purge s); eauto.
      - by destruct (Hc silent).
      - destruct (Feed.run_cache_call manager c (shared_cache s)); eauto.
      - destruct (Feed.run_cache_call manager c (cache s)); eauto. }
    by apply IH.
Qed.

(** With a dispatcher that returns for the abort event, a round of any
    event returns. *)
Section Total.

Variable rec : string -> feed -> option (feed * option pyerr).
Hypothesis rec_total : forall s, is_Some (rec "abort" s).

Lemma abort_total (silent : bool) (s : feed) :
  is_Some (Feed.abort rec silent s).
Proof. unfold Feed.abort. apply rec_total. Qed.

Lemma run_module_total (p : mprog) :
  forall s, is_Some (Feed.run_module manager rec p s).
Proof.
  induction p as [o|c k IH]; intros s; simpl; [done|].
  assert (is_Some (Feed.do_call manager rec c s)) as [[s1 r] ->].
  { destruct c as [e|e|e|e|e| |silent|[|] c]; simpl; try done.
    - apply abort_total.
    - by destruct (Feed.run_cache_call manager c (shared_cache s)).
    - by destruct (Feed.run_cache_call manager c (cache s)). }
  apply IH.
Qed.

Lemma handle_total (event keyword : string) (o : outcome) (s : feed) :
  is_Some (Feed.handle manager rec event keyword o s).
Proof.
  destruct o as [|[|] msg|err]; simpl; try done. apply abort_total.
Qed.

Lemma run_modules_total (event : string) (modules : list Plugin.t) :
  forall s, is_Some (Feed.run_modules manager rec event modules s).
Proof.
  induction modules as [|m modules IH]; intros s; simpl; [done|].
  case_match; [|apply IH].
  match goal with
  | |- context [Feed.run_module manager rec ?p ?s3] =>
      destruct (run_module_total p s3) as [[s4 o] ->]
  end.
  destruct (handle_total event (Plugin.name m) o s4) as [[s5 r5] ->].
  repeat case_match; done.
Qed.

End Total.

(** The modules of the abort event are calm. *)
Hypothesis abort_calm :
  forall m s,
    m ∈ Manager.get_modules_by_event manager "abort" ->
    calm (Plugin.instance m "abort" s).

Lemma run_modules_calm (rec : string -> feed -> option (feed * option pyerr))
    (modules : list Plugin.t) :
  (forall m, m ∈ modules ->
             m ∈ Manager.get_modules_by_event manager "abort") ->
  forall s, is_Some (Feed.run_modules manager rec "abort" modules s).
Proof.
  induction modules as [|m modules IH]; intros Hin s; simpl; [done|].
  assert (forall m', m' ∈ modules ->
            m' ∈ Manager.get_modules_by_event manager "abort") as Hin'.
  { intros m' Hm'. apply Hin. by right. }
  case_match; [|by apply IH].
  match goal with
  | |- context [Feed.run_module manager rec ?p ?s3] =>
      destruct (run_module_calm rec p) with (s := s3)
        as (s4 & o & -> & Ho);
        [apply abort_calm, Hin; by left|]
  end.
  destruct o as [|[|] msg|err]; simpl; try (by destruct (Ho err));
    repeat case_match; simplify_eq; try done; by apply IH.
Qed.

Lemma run_event_abort_returns (fuel : nat) (s : feed) :
  is_Some (Feed.__run_event manager (S fuel) "abort" s).
Proof.
  simpl. apply run_modules_calm. intros m Hm.
  by rewrite dispatch_order_perm in Hm.
Qed.

Lemma run_event_returns (fuel : nat) (event : string) (s : feed) :
  is_Some (Feed.__run_event manager (S (S fuel)) event s).
Proof.
  change (is_Some
            (Feed.run_modules manager
               (Feed.__run_event manager (S fuel)) event
               (Feed.dispatch_order
                  (Manager.get_modules_by_event manager event) event s) s)).
  apply run_modules_total. intros s'. apply run_event_abort_returns.
Qed.

Lemma run_events_returns (fuel : nat) (events : list string) :
  forall s, is_Some (Feed.run_events manager (S (S fuel)) events s).
Proof.
  induction events as [|event events IH]; intros s; [done|].
  cbn [Feed.run_events]. case_match; [apply IH|].
  destruct (run_event_returns fuel event s) as [[s1 r1] ->].
  repeat case_match; done.
Qed.

Lemma validate_returns (fuel : nat) (s : feed) :
  is_Some (Feed.validate manager (S fuel) s).
Proof.
  unfold Feed.validate. destruct (foldl _ _ _) as [s1 errs].
  destruct errs as [|e errs]; [done|].
  match goal with
  | |- context [Feed.abort ?rec ?b ?st] =>
      destruct (abort_total rec
                  (fun s' => run_event_abort_returns fuel s') b st)
        as [[s4 r4] ->]
  end.
  done.
Qed.

(** When the modules of the abort event neither call [abort] nor raise,
    [execute] and [terminate] return with any fuel from 2 on. *)
Lemma run_returns (fuel : nat) (s : feed) :
  exists s1 r1,
    Feed.execute manager (S (S fuel)) s = Some (s1, r1) /\
    is_Some (Feed.terminate manager (S (S fuel)) s1).
Proof.
  assert (is_Some (Feed.execute manager (S (S fuel)) s)) as [[s1 r1] He].
  { unfold Feed.execute.
    destruct (validate_returns (S fuel) s) as [[[s1 errors] r] ->].
    repeat case_match; try done. apply run_events_returns. }
  exists s1, r1. split; [done|].
  unfold Feed.terminate. case_match; [done|apply run_event_returns].
Qed.

End Returns.

(** ** A run acts on the lists as a sequence of operations *)

Lemma lists_eq_refl (a : feed) : lists_eq a a.
Proof. by repeat split. Qed.

Lemma lists_eq_sym (a b : feed) : lists_eq a b -> lists_eq b a.
Proof. unfold lists_eq. intros (?&?&?&?&?&?&?). by repeat split. Qed.

Lemma lists_eq_trans (a b c : feed) :
  lists_eq a b -> lists_eq b c -> lists_eq a c.
Proof.
  unfold lists_eq. intros (?&?&?&?&?&?&?) (?&?&?&?&?&?&?).
  repeat split; congruence.
Qed.

Lemma purge_loop_lists_eq (copy sel not_in_list : list entry) (count : bool) :
  forall a b,
    lists_eq a b ->
    lists_eq (Feed.purge_loop copy sel not_in_list count a).1
             (Feed.purge_loop copy sel not_in_list count b).1.
Proof.
  induction copy as [|e copy IH]; intros a b Hab; simpl; [done|].
  destruct (py_in e sel && negb (py_in e not_in_list)); [|by apply IH].
  destruct (Entry.safe_str e) as [txt|err]; [|done].
  assert (entries a = entries b) as Hent by apply Hab.
  simpl. rewrite Hent.
  destruct (py_remove e (entries b)) as [l|].
  - apply IH. destruct Hab as (?&?&?&?&?&?&Hp).
    destruct count; simpl; repeat split; simpl; congruence.
  - simpl. destruct Hab as (?&?&?&?&?&?&?). by repeat split.
Qed.

Lemma step_lists_eq (o : op) (a b : feed) :
  lists_eq a b -> lists_eq (step o a) (step o b).
Proof.
  intros Hab. destruct o as [e|e|e|e|e| | |]; simpl.
  - destruct Hab as (He & Ha & Hf & Hr & Hfa & Hm & Hp).
    unfold Feed.accept. rewrite Ha. simpl. rewrite Hf.
    repeat case_match; simpl; repeat split; simpl; congruence.
  - destruct Hab as (He & Ha & Hf & Hr & Hfa & Hm & Hp).
    unfold Feed.filter. rewrite Ha, Hf.
    repeat case_match; simpl; repeat split; simpl; congruence.
  - destruct Hab as (He & Ha & Hf & Hr & Hfa & Hm & Hp).
    unfold Feed.reject. rewrite Hr.
    repeat case_match; simpl; repeat split; simpl; congruence.
  - destruct Hab as (He & Ha & Hf & Hr & Hfa & Hm & Hp).
    unfold Feed.fail. destruct (Entry.getitem "title" e); [|by repeat split].
    simpl. rewrite Hfa.
    repeat case_match; simpl; repeat split; simpl; congruence.
  - destruct Hab as (He & Ha & Hf & Hr & Hfa & Hm & Hp).
    repeat split; simpl; congruence.
  - unfold Feed._purge, Feed.__purge.
    destruct Hab as (He & Ha & Hf & Hr & Hfa & Hm & Hp).
    rewrite He, Ha, Hf. apply purge_loop_lists_eq. by repeat split.
  - unfold Feed.__purge_rejected, Feed.__purge.
    destruct Hab as (He & Ha & Hf & Hr & Hfa & Hm & Hp).
    rewrite He, Hr. apply purge_loop_lists_eq. by repeat split.
  - unfold Feed.__purge_failed, Feed.__purge.
    destruct Hab as (He & Ha & Hf & Hr & Hfa & Hm & Hp).
    rewrite He, Hfa. apply purge_loop_lists_eq. by repeat split.
Qed.

Lemma steps_lists_eq (ops : list op) :
  forall a b, lists_eq a b -> lists_eq (steps ops a) (steps ops b).
Proof.
  induction ops as [|o ops IH]; intros a b Hab; [done|].
  simpl. by apply IH, step_lists_eq.
Qed.

Lemma reaches_refl (s : feed) : reaches s s.
Proof. exists []. apply lists_eq_refl. Qed.

Lemma reaches_same (s s' : feed) : lists_eq s s' -> reaches s s'.
Proof. intros H. by exists []. Qed.

Lemma reaches_step (o : op) (s : feed) : reaches s (step o s).
Proof. exists [o]. apply lists_eq_refl. Qed.

Lemma reaches_trans (s1 s2 s3 : feed) :
  reaches s1 s2 -> reaches s2 s3 -> reaches s1 s3.
Proof.
  intros [ops1 H1] [ops2 H2]. exists (ops1 ++ ops2).
  rewrite steps_app. eapply lists_eq_trans; [|exact H2].
  by apply steps_lists_eq.
Qed.

Lemma reaches_log_once (manager : Manager.t) (msg : string) (s : feed) :
  reaches s (Feed.log_once manager msg s).1.
Proof.
  apply reaches_same. unfold Feed.log_once.
  repeat case_match; simpl; by repeat split.
Qed.

Lemma reaches_progress (manager : Manager.t) (event : string) (s : feed) :
  reaches s (Feed.progress manager event s).1.
Proof.
  apply reaches_same. unfold Feed.progress, Feed.verbose_progress.
  repeat case_match; simplify_eq; simpl; by repeat split.
Qed.

Section Simulation.

Variable manager : Manager.t.
Variable rec : string -> feed -> option (feed * option pyerr).
Hypothesis rec_reaches :
  forall s s' r, rec "abort" s = Some (s', r) -> reaches s s'.

Lemma abort_reaches (silent : bool) (s s' : feed) (r : option pyerr) :
  Feed.abort rec silent s = Some (s', r) -> reaches s s'.
Proof.
  unfold Feed.abort. intros H. apply rec_reaches in H.
  eapply reaches_trans; [|exact H]. apply reaches_same.
  case_match; by repeat split.
Qed.

Lemma do_call_reaches (c : api_call) (s s' : feed) (r : option pyerr) :
  Feed.do_call manager rec c s = Some (s', r) -> reaches s s'.
Proof.
  destruct c as [e|e|e|e|e| |silent|[|] c]; simpl.
  - intros [= H]. pose proof (reaches_step (OpAccept e) s) as Hs.
    simpl in Hs. by rewrite H in Hs.
  - intros [= H]. pose proof (reaches_step (OpFilter e) s) as Hs.
    simpl in Hs. by rewrite H in Hs.
  - intros [= H]. pose proof (reaches_step (OpReject e) s) as Hs.
    simpl in Hs. by rewrite H in Hs.
  - intros [= H]. pose proof (reaches_step (OpFail e) s) as Hs.
    simpl in Hs. by rewrite H in Hs.
  - intros [= <- _]. apply (reaches_step (OpAppend e) s).
  - intros [= H]. pose proof (reaches_step OpPurge s) as Hs.
    simpl in Hs. by rewrite H in Hs.
  - apply abort_reaches.
  - destruct (Feed.run_cache_call manager c (shared_cache s)) as [mc r'].
    intros [= <- _]. by apply reaches_same.
  - destruct (Feed.run_cache_call manager c (cache s)) as [mc r'].
    intros [= <- _]. by apply reaches_same.
Qed.

Lemma run_module_reaches (p : mprog) :
  forall (s s' : feed) (o : outcome),
    Feed.run_module manager rec p s = Some (s', o) -> reaches s s'.
Proof.
  induction p as [o|c k IH]; intros s s' o'; simpl.
  - intros [= <- _]. apply reaches_refl.
  - destruct (Feed.do_call manager rec c s) as [[s1 r]|] eqn:Hcall; [|done].
    intros Hrun. eapply reaches_trans.
    + by eapply do_call_reaches.
    + by eapply IH.
Qed.

Lemma handle_reaches (event keyword : string) (o : outcome) (s s' : feed)
    (r : option pyerr) :
  Feed.handle manager rec event keyword o s = Some (s', r) ->
  reaches s s'.
Proof.
  destruct o as [|[|] msg|err]; simpl.
  - intros [= <- _]. apply reaches_refl.
  - intros [= H]. pose proof (reaches_log_once manager msg s) as Hq.
    by rewrite H in Hq.
  - intros [= <- _]. by apply reaches_same.
  - intros H. apply abort_reaches in H.
    eapply reaches_trans; [|exact H]. by apply reaches_same.
Qed.

Lemma run_modules_reaches (event : string) (modules : list Plugin.t) :
  forall (s s' : feed) (r : option pyerr),
    Feed.run_modules manager rec event modules s = Some (s', r) ->
    reaches s s'.
Proof.
  induction modules as [|module modules IH]; intros s s' r; simpl.
  - intros [= <- _]. apply reaches_refl.
  - destruct (has_key (Plugin.name module) (config s)
              || Plugin.builtin module); [|apply IH].
    set (keyword := Plugin.name module).
    set (s3 := observe [Invoked event keyword]
                 (set_current event keyword
                    (Feed.__set_namespace manager keyword s))).
    assert (reaches s s3) as H3 by by apply reaches_same.
    destruct (Feed.run_module manager rec (Plugin.instance module event s3) s3)
      as [[s4 o]|] eqn:Hrun; [|done].
    apply run_module_reaches in Hrun.
    destruct (Feed.handle manager rec event keyword o s4)
      as [[s5 r5]|] eqn:Hh; [|done].
    apply handle_reaches in Hh.
    assert (reaches s s5) as H5.
    { eapply reaches_trans; [exact H3|].
      by eapply reaches_trans. }
    destruct r5 as [err|]; [by intros [= <- _]|].
    pose proof (reaches_step OpPurgeRejected s5) as H6. simpl in H6.
    destruct (Feed.__purge_rejected s5) as [s6 r6]. simpl in H6.
    assert (reaches s s6) as H6' by by eapply reaches_trans.
    destruct r6 as [err|]; [by intros [= <- _]|].
    pose proof (reaches_step OpPurgeFailed s6) as H7. simpl in H7.
    destruct (Feed.__purge_failed s6) as [s7 r7]. simpl in H7.
    assert (reaches s s7) as H7' by by eapply reaches_trans.
    destruct r7 as [err|]; [by intros [= <- _]|].
    destruct (__abort s7); [by intros [= <- _]|].
    intros Hrest. apply IH in Hrest. by eapply reaches_trans.
Qed.

End Simulation.

Lemma run_event_reaches (manager : Manager.t) (fuel : nat) :
  forall (event : string) (s s' : feed) (r : option pyerr),
    Feed.__run_event manager fuel event s = Some (s', r) -> reaches s s'.
Proof.
  induction fuel as [|fuel IH]; intros event s s' r; simpl; [done|].
  apply run_modules_reaches. intros s1 s1' r1. apply IH.
Qed.

Lemma validate_reaches (manager : Manager.t) (fuel : nat) (s s' : feed)
    (errors : list string) (r : option pyerr) :
  Feed.validate manager fuel s = Some (s', errors, r) -> reaches s s'.
Proof.
  unfold Feed.validate.
  assert (forall keywords (acc : feed * list string),
            lists_eq acc.1
              (foldl (fun acc keyword =>
                        Feed.validate_keyword manager keyword acc)
                 acc keywords).1) as Hloop.
  { induction keywords as [|kw keywords IH]; intros acc; simpl;
      [apply lists_eq_refl|].
    eapply lists_eq_trans; [|apply IH].
    destruct acc as [s0 errs]. unfold Feed.validate_keyword.
    repeat case_match; simpl; by repeat split. }
  specialize (Hloop (map_to_list (config s)).*1 (s, [])).
  destruct (foldl _ _ _) as [s1 errs]. simpl in Hloop.
  destruct errs as [|e errs].
  - intros [= <- _ _]. by apply reaches_same.
  - destruct (Feed.abort _ _ _) as [[s4 r4]|] eqn:Hab; [|done].
    intros [= <- _ _].
    apply abort_reaches in Hab;
      [|intros ? ? ?; apply run_event_reaches].
    eapply reaches_trans; [|exact Hab]. apply reaches_same.
    eapply lists_eq_trans; [exact Hloop|].
    assert (forall errors s0,
              lists_eq s0 (foldl (fun s error => log ERROR error s) s0 errors))
      as Hlog.
    { induction errors0 as [|x errors0 IH]; intros s0; simpl;
        [apply lists_eq_refl|].
      eapply lists_eq_trans; [|apply IH]. by repeat split. }
    eapply lists_eq_trans; [|apply Hlog]. by repeat split.
Qed.

Lemma run_events_reaches (manager : Manager.t) (fuel : nat)
    (events : list string) :
  forall (s s' : feed) (r : option pyerr),
    Feed.run_events manager fuel events s = Some (s', r) -> reaches s s'.
Proof.
  induction events as [|event events IH]; intros s s' r; simpl.
  - intros [= <- _]. apply reaches_refl.
  - case_match.
    { intros Hrest. apply IH in Hrest.
      eapply reaches_trans; [|exact Hrest]. apply reaches_same.
      unfold Feed.log_not_executed.
      generalize (Manager.get_modules_by_event manager event). intros ms.
      generalize s. induction ms as [|m ms IHm]; intros s0; simpl;
        [apply lists_eq_refl|].
      eapply lists_eq_trans; [|apply IHm].
      case_match; by repeat split. }
    destruct (Feed.__run_event manager fuel event s)
      as [[s1 r1]|] eqn:Hev; [|done].
    apply run_event_reaches in Hev.
    destruct r1 as [err|]; [by intros [= <- _]|].
    pose proof (reaches_step OpPurge s1) as H2. simpl in H2.
    destruct (Feed._purge s1) as [s2 r2]. simpl in H2.
    assert (reaches s s2) as H2' by by eapply reaches_trans.
    destruct r2 as [err|]; [by intros [= <- _]|].
    pose proof (reaches_progress manager event s2) as H3.
    destruct (Feed.progress manager event s2) as [s3 r3]. simpl in H3.
    assert (reaches s s3) as H3' by by eapply reaches_trans.
    destruct r3 as [err|]; [by intros [= <- _]|].
    destruct (__abort s3); [by intros [= <- _]|].
    intros Hrest. apply IH in Hrest. by eapply reaches_trans.
Qed.

(** The lists at the end of [execute] followed by [terminate] are those
    of some sequence of operations. *)
Lemma run_reaches (manager : Manager.t) (fuel : nat) (s s1 s2 : feed)
    (r1 r2 : option pyerr) :
  Feed.execute manager fuel s = Some (s1, r1) ->
  Feed.terminate manager fuel s1 = Some (s2, r2) ->
  reaches s s2.
Proof.
  intros He Ht.
  assert (reaches s s1) as H1.
  { unfold Feed.execute in He.
    destruct (Feed.validate manager fuel s) as [[[s0 errors] r0]|] eqn:Hv;
      [|done].
    apply validate_reaches in Hv.
    destruct r0 as [err|]; [by injection He as <- _|].
    destruct (__abort s0); [by injection He as <- _|].
    case_match; [by injection He as <- _|].
    apply run_events_reaches in He. by eapply reaches_trans. }
  unfold Feed.terminate in Ht. case_match.
  - by injection Ht as <- _.
  - apply run_event_reaches in Ht. by eapply reaches_trans.
Qed.

(** ** Failed entries *)

(** C10: in a run, [manager.add_failed] is called at most once for an
    entry, over every sequence of operations on a fresh feed and so at
    the end of [execute] followed by [terminate]; failing an entry that
    is already in [failed] changes neither [failed] nor the calls of
    [manager.add_failed]; and failing an entry a second time changes
    nothing the first time did not. *)
Theorem C10_fail_once (manager : Manager.t) (name : string)
    (config : gmap string cfgval) :
  (forall ops : list op,
     NoDup (manager_failed (steps ops (Feed.__init__ manager name config)))) /\
  (forall (fuel : nat) (s1 s2 : feed) (r1 r2 : option pyerr),
     Feed.execute manager fuel (Feed.__init__ manager name config)
       = Some (s1, r1) ->
     Feed.terminate manager fuel s1 = Some (s2, r2) ->
     NoDup (manager_failed s2)) /\
  (forall (s : feed) (e : entry),
     e ∈ failed s ->
     failed (Feed.fail e s).1 = failed s /\
     manager_failed (Feed.fail e s).1 = manager_failed s) /\
  (forall (s : feed) (e : entry),
     failed (Feed.fail e (Feed.fail e s).1).1 = failed (Feed.fail e s).1 /\
     manager_failed (Feed.fail e (Feed.fail e s).1).1
       = manager_failed (Feed.fail e s).1).
Proof.
  assert (forall (s : feed) (e : entry),
            e ∈ failed s ->
            failed (Feed.fail e s).1 = failed s /\
            manager_failed (Feed.fail e s).1 = manager_failed s) as Hsecond.
  { intros s e Hin. by open_fail e s. }
  assert (forall ops : list op,
            NoDup (manager_failed
                     (steps ops (Feed.__init__ manager name config))))
    as Honce.
  { intros ops.
    destruct (steps_wf ops _ (init_wf manager name config))
      as (_ & _ & -> & Hnd).
    done. }
  split; [done|]. split; [|split; [done|]].
  - intros fuel s1 s2 r1 r2 He Ht.
    destruct (run_reaches manager fuel _ s1 s2 r1 r2 He Ht)
      as (ops & _ & _ & _ & _ & _ & Hm & _).
    rewrite <- Hm. apply Honce.
  - intros s e.
    destruct (fail_lists e s)
      as (_ & _ & _ & _ & _ & [(_ & _ & Hf & _)|([Hin|Hnt] & Hf & Hm)]).
    + apply Hsecond. rewrite Hf. apply elem_of_app. right. by left.
    + apply Hsecond. by rewrite Hf.
    + unfold Feed.fail, Entry.getitem. by rewrite Hnt.
Qed.

Lemma C10_fail_once_witness :
  let s := steps [OpAppend entry_a; OpFail entry_a]
             (Feed.__init__ empty_manager "feed" ∅) in
  (failed (Feed.fail entry_a s).1 = failed s /\
   manager_failed (Feed.fail entry_a s).1 = manager_failed s) /\
  NoDup (manager_failed demo_after_terminate).
Proof.
  intros s. split.
  - apply (proj1 (proj2 (proj2 (C10_fail_once empty_manager "feed" ∅)))).
    apply (bool_decide_unpack _). vm_compute. exact I.
  - apply (proj1 (proj2 (C10_fail_once demo_manager "demo"
                           {["rss" := CfgScalar (PStr "http://x/rss")]}))
             3 demo_after_execute demo_after_terminate None None).
    + vm_compute. reflexivity.
    + vm_compute. reflexivity.
Defined.

(** ** Two runs of the dispatcher *)

(** In the filter event of [rescue_feed] the configured priority 5 of
    "regexp" overrides its declared 1, so it runs before "series" with its
    declared 3; "series" accepts the entry that "regexp" filtered. The
    entry is still in [entries] at the end, accepted and not filtered;
    the call of [accept] raised after changing the lists, and the feed
    is aborted. *)
Example rescue_run :
  Plugin.name <$>
    Feed.dispatch_order
      (Manager.get_modules_by_event rescue_manager "filter") "filter"
      rescue_feed
    = ["regexp"; "series"] /\
  Feed.execute rescue_manager 3 rescue_feed
    = Some (rescue_after_execute, None) /\
  entries rescue_after_execute = [entry_a; entry_b] /\
  accepted rescue_after_execute = [entry_a] /\
  filtered rescue_after_execute = [] /\
  __abort rescue_after_execute = true /\
  Raised "filter" "series" Feed.missing_reason ∈ trace rescue_after_execute.
Proof.
  split; [vm_compute; reflexivity|].
  split; [vm_compute; reflexivity|].
  split; [vm_compute; reflexivity|].
  split; [vm_compute; reflexivity|].
  split; [vm_compute; reflexivity|].
  split; [vm_compute; reflexivity|].
  apply (bool_decide_unpack _). vm_compute. exact I.
Qed.

(** In the run of [demo_feed] the module "broken" filters an entry and
    raises: the module "accept_all" of the same event is not called, the
    output event is not run, and the filtered entry is purged. *)
Example broken_run :
  Feed.execute demo_manager 3 demo_feed = Some (demo_after_execute, None) /\
  Feed.terminate demo_manager 3 demo_after_execute
    = Some (demo_after_terminate, None) /\
  trace demo_after_terminate
    = demo_pre ++ Raised "filter" "broken" (OtherError "boom") :: demo_post /\
  entries demo_after_terminate = [entry_b] /\
  __purged demo_after_terminate = 1.
Proof.
  split; [vm_compute; reflexivity|].
  split; [vm_compute; reflexivity|].
  split; [vm_compute; reflexivity|].
  split; vm_compute; reflexivity.
Qed.

(** * Further properties *)

(** ** Entries: construction and validity *)

Lemma isvalid_title (e : entry) :
  Entry.isvalid e = true <-> is_Some (e !! "title").
Proof.
  unfold Entry.isvalid. rewrite <- has_key_true.
  destruct (has_key "title" e); simpl; [|done].
  by destruct (has_key "url" e).
Qed.

Lemma setitem_same (k : string) (v : pyval) (e : entry) :
  Entry.__setitem__ k v e !! k = Some v.
Proof.
  unfold Entry.__setitem__, Entry.dict_setitem. apply lookup_insert_eq.
Qed.

(** An assignment removes no key. *)
Lemma setitem_keeps_key (k k' : string) (v : pyval) (e : entry) :
  is_Some (e !! k') -> is_Some (Entry.__setitem__ k v e !! k').
Proof.
  intros Hs. unfold Entry.__setitem__, Entry.dict_setitem.
  destruct (decide (k = k')) as [->|Hne].
  - rewrite lookup_insert_eq. by eexists.
  - rewrite lookup_insert_ne; [|done].
    repeat case_match; try done.
    destruct (decide ("original_url" = k')) as [<-|Hne'].
    + rewrite lookup_insert_eq. by eexists.
    + by rewrite lookup_insert_ne.
Qed.

Lemma assign_all_keeps_key (h : list (string * pyval)) (k' : string) :
  forall e : entry,
    is_Some (e !! k') -> is_Some (Entry.assign_all h e !! k').
Proof.
  unfold Entry.assign_all.
  induction h as [|[k v] h IH]; intros e Hs; [done|].
  simpl. apply IH. by apply setitem_keeps_key.
Qed.

(** The items of [Entry(title, url)] *)
Lemma Entry_init_pair (title url : pyval) :
  Entry.__init__ [title; url] !! "title" = Some title /\
  Entry.__init__ [title; url] !! "url" = Some url /\
  Entry.__init__ [title; url] !! "original_url" = Some url.
Proof.
  assert (Entry.__init__ [title; url]
          = <["url" := url]> (<["original_url" := url]>
                                (<["title" := title]> ∅))) as -> by done.
  split; [by rewrite !lookup_insert_ne, lookup_insert_eq by done|].
  split; [by rewrite lookup_insert_eq|].
  by rewrite lookup_insert_ne, lookup_insert_eq by done.
Qed.

(** X1: [Entry(title, url)] holds exactly the keys [title], [url] and
    [original_url], the last with the url; its text is "title | url"; it
    is valid and stays valid under every later sequence of assignments.
    Called with any other number of arguments, [Entry] gives an empty
    entry, which is not valid. *)
Theorem Entry_init_valid (title url : pyval) :
  let e := Entry.__init__ [title; url] in
  e !! "title" = Some title /\ e !! "url" = Some url /\
  e !! "original_url" = Some url /\
  dom e = {["title"; "url"; "original_url"]} /\
  Entry.safe_str e = Ok (py_str title ++ " | " ++ py_str url)%string /\
  (forall h, Entry.isvalid (Entry.assign_all h e) = true) /\
  (forall args,
     length args <> 2 ->
     Entry.__init__ args = ∅ /\ Entry.isvalid (Entry.__init__ args) = false).
Proof.
  intros e. destruct (Entry_init_pair title url) as (Ht & Hu & Ho).
  fold e in Ht, Hu, Ho.
  split; [done|]. split; [done|]. split; [done|]. split.
  { assert (e = <["url" := url]> (<["original_url" := url]>
                                    (<["title" := title]> ∅))) as -> by done.
    rewrite !dom_insert_L, dom_empty_L. set_solver. }
  split.
  { unfold Entry.safe_str, Entry.getitem. by rewrite Ht, Hu. }
  split.
  - intros h. apply isvalid_title, assign_all_keeps_key. by eexists.
  - intros args Hlen.
    assert (Entry.__init__ args = ∅) as ->.
    { destruct args as [|a [|b [|c args]]]; try done. }
    done.
Qed.

(** An entry with a url has an original url. *)
Lemma setitem_url_original (k : string) (v : pyval) (e : entry) :
  (is_Some (e !! "url") -> is_Some (e !! "original_url")) ->
  is_Some (Entry.__setitem__ k v e !! "url") ->
  is_Some (Entry.__setitem__ k v e !! "original_url").
Proof.
  intros Hinv Hs.
  destruct (decide (k = "url")) as [->|Hne].
  - destruct (e !! "original_url") as [o|] eqn:Ho.
    + rewrite setitem_url_later; [|by eexists]. by eexists.
    + rewrite setitem_url_first; [|done]. by eexists.
  - destruct (decide (k = "original_url")) as [->|Hne'].
    + rewrite setitem_same. by eexists.
    + rewrite setitem_other; [|done|done]. apply Hinv.
      unfold Entry.__setitem__, Entry.dict_setitem in Hs.
      apply String.eqb_neq in Hne. rewrite Hne in Hs.
      rewrite lookup_insert_ne in Hs; [done|].
      apply String.eqb_neq in Hne. congruence.
Qed.

(** X2: whatever is assigned to an entry after its construction, and in
    whatever order, an entry that has a [url] has an [original_url]. *)
Theorem Entry_url_has_original (args : list pyval)
    (h : list (string * pyval)) :
  let e := Entry.assign_all h (Entry.__init__ args) in
  is_Some (e !! "url") -> is_Some (e !! "original_url").
Proof.
  assert (forall e0 : entry,
            (is_Some (e0 !! "url") -> is_Some (e0 !! "original_url")) ->
            is_Some (Entry.assign_all h e0 !! "url") ->
            is_Some (Entry.assign_all h e0 !! "original_url")) as Hall.
  { unfold Entry.assign_all.
    induction h as [|[k v] h IH]; intros e0 Hinv; [done|].
    simpl. apply IH. by apply setitem_url_original. }
  intros e. apply Hall.
  destruct args as [|a [|b [|c args]]]; simpl;
    try (rewrite lookup_empty; by intros [? ?]).
  intros _. fold (Entry.__init__ [a; b]).
  destruct (Entry_init_pair a b) as (_ & _ & Ho). rewrite Ho. by eexists.
Qed.

Lemma Entry_url_has_original_witness :
  is_Some
    (Entry.assign_all
       [("url", PStr "http://x/1"); ("title", PStr "t");
        ("url", PStr "http://y/2")]
       (Entry.__init__ []) !! "original_url").
Proof.
  apply (Entry_url_has_original []
           [("url", PStr "http://x/1"); ("title", PStr "t");
            ("url", PStr "http://y/2")]).
  vm_compute. by eexists.
Defined.

(** ** The module cache: records, namespaces and errors *)

Lemma record_with_cache (ns ns' k : string)
    (c : gmap string ModuleCache.item) (self : ModuleCache.t) :
  record ns' k (ModuleCache.with_cache ns c self)
  = if decide (ns' = ns) then c !! k else record ns' k self.
Proof.
  unfold record, ModuleCache.with_cache. simpl.
  destruct (decide (ns' = ns)) as [->|Hne].
  - by rewrite lookup_insert_eq.
  - by rewrite lookup_insert_ne.
Qed.

Lemma cache_selected (self : ModuleCache.t) (ns : string) :
  ModuleCache.namespace self = Some ns ->
  exists c, ModuleCache._cache self = Some c /\
            forall k, c !! k = record ns k self.
Proof.
  intros Hns. unfold ModuleCache._cache, record. rewrite Hns.
  eexists. split; [done|]. intros k.
  by destruct (ModuleCache.storage self !! ns).
Qed.

Lemma namespace_with_cache (ns : string) (c : gmap string ModuleCache.item)
    (self : ModuleCache.t) :
  ModuleCache.namespace (ModuleCache.with_cache ns c self)
  = ModuleCache.namespace self.
Proof. done. Qed.

(** What [get] returns and what it leaves behind *)
Lemma get_effect (self : ModuleCache.t) (ns k : string) (dflt : pyval)
    (today : Z) :
  ModuleCache.namespace self = Some ns ->
  exists self',
    ModuleCache.get k dflt today self
    = Ok (match record ns k self with
          | Some it => default dflt (ModuleCache.value it)
          | None => dflt
          end, self') /\
    ModuleCache.namespace self' = Some ns /\
    record ns k self' = touched today <$> record ns k self /\
    (forall ns' k', (ns', k') <> (ns, k) ->
                    record ns' k' self' = record ns' k' self) /\
    (forall ns', ns' <> ns ->
                 ModuleCache.storage self' !! ns'
                 = ModuleCache.storage self !! ns') /\
    (forall ns', is_Some (ModuleCache.storage self !! ns') ->
                 is_Some (ModuleCache.storage self' !! ns')).
Proof.
  intros Hns. destruct (cache_selected self ns Hns) as (c & Hc & Hrec).
  unfold ModuleCache.get, ModuleCache.get_opt. rewrite Hns, Hc.
  rewrite <- (Hrec k).
  destruct (c !! k) as [it|] eqn:Hk.
  - simpl. eexists. split; [done|].
    split; [done|]. split; [|split; [|split]].
    + rewrite record_with_cache. rewrite decide_True; [|done].
      by rewrite lookup_insert_eq.
    + intros ns' k' Hne. rewrite record_with_cache.
      destruct (decide (ns' = ns)) as [->|Hn]; [|done].
      rewrite lookup_insert_ne; [apply Hrec|]. congruence.
    + intros ns' Hne. simpl. by rewrite lookup_insert_ne.
    + intros ns' Hs. simpl. destruct (decide (ns = ns')) as [->|Hn].
      * rewrite lookup_insert_eq. by eexists.
      * by rewrite lookup_insert_ne.
  - exists self. rewrite <- (Hrec k), Hk. done.
Qed.

(** What [store] leaves behind *)
Lemma store_effect (self : ModuleCache.t) (ns k : string) (v : pyval)
    (days today : Z) :
  ModuleCache.namespace self = Some ns ->
  exists self',
    ModuleCache.store k v days today self = Ok self' /\
    ModuleCache.namespace self' = Some ns /\
    record ns k self' = Some (ModuleCache.Item today days (Some v)) /\
    (forall ns' k', (ns', k') <> (ns, k) ->
                    record ns' k' self' = record ns' k' self) /\
    (forall ns', ns' <> ns ->
                 ModuleCache.storage self' !! ns'
                 = ModuleCache.storage self !! ns') /\
    (forall ns', is_Some (ModuleCache.storage self !! ns') ->
                 is_Some (ModuleCache.storage self' !! ns')).
Proof.
  intros Hns. destruct (cache_selected self ns Hns) as (c & Hc & Hrec).
  unfold ModuleCache.store. rewrite Hns, Hc.
  eexists. split; [done|]. split; [done|]. split; [|split; [|split]].
  - rewrite record_with_cache. rewrite decide_True; [|done].
    by rewrite lookup_insert_eq.
  - intros ns' k' Hne. rewrite record_with_cache.
    destruct (decide (ns' = ns)) as [->|Hn]; [|done].
    rewrite lookup_insert_ne; [apply Hrec|]. congruence.
  - intros ns' Hne. simpl. by rewrite lookup_insert_ne.
  - intros ns' Hs. simpl. destruct (decide (ns = ns')) as [->|Hn].
    + rewrite lookup_insert_eq. by eexists.
    + by rewrite lookup_insert_ne.
Qed.

(** What [remove] returns and what it leaves behind *)
Lemma remove_effect (self : ModuleCache.t) (ns k : string) :
  ModuleCache.namespace self = Some ns ->
  match record ns k self with
  | Some it =>
      exists self',
        ModuleCache.remove k self = Ok (ModuleCache.ObjItem it, self') /\
        ModuleCache.namespace self' = Some ns /\
        record ns k self' = None /\
        (forall ns' k', (ns', k') <> (ns, k) ->
                        record ns' k' self' = record ns' k' self) /\
        (forall ns', ns' <> ns ->
                     ModuleCache.storage self' !! ns'
                     = ModuleCache.storage self !! ns') /\
        (forall ns', is_Some (ModuleCache.storage self !! ns') ->
                     is_Some (ModuleCache.storage self' !! ns'))
  | None => ModuleCache.remove k self = Raise (KeyError k)
  end.
Proof.
  intros Hns. destruct (cache_selected self ns Hns) as (c & Hc & Hrec).
  unfold ModuleCache.remove. rewrite Hns, Hc. rewrite <- (Hrec k).
  destruct (c !! k) as [it|] eqn:Hk; [|done].
  eexists. split; [done|]. split; [done|]. split; [|split; [|split]].
  - rewrite record_with_cache. rewrite decide_True; [|done].
    by rewrite lookup_delete_eq.
  - intros ns' k' Hne. rewrite record_with_cache.
    destruct (decide (ns' = ns)) as [->|Hn]; [|done].
    rewrite lookup_delete_ne; [apply Hrec|]. congruence.
  - intros ns' Hne. simpl. by rewrite lookup_insert_ne.
  - intros ns' Hs. simpl. destruct (decide (ns = ns')) as [->|Hn].
    + rewrite lookup_insert_eq. by eexists.
    + by rewrite lookup_insert_ne.
Qed.

(** What [set_namespace] leaves behind *)
Lemma set_namespace_effect (name : string) (today : Z) (self : ModuleCache.t) :
  ModuleCache.namespace (ModuleCache.set_namespace name today self)
  = Some name /\
  (forall k,
     record name k (ModuleCache.set_namespace name today self)
     = match record name k self with
       | Some it => if ModuleCache.expired today it then None else Some it
       | None => None
       end) /\
  (forall ns', ns' <> name ->
               ModuleCache.storage (ModuleCache.set_namespace name today self)
                 !! ns'
               = ModuleCache.storage self !! ns') /\
  (forall ns', is_Some (ModuleCache.storage self !! ns') ->
               is_Some (ModuleCache.storage
                          (ModuleCache.set_namespace name today self) !! ns')) /\
  is_Some (ModuleCache.storage (ModuleCache.set_namespace name today self)
             !! name).
Proof.
  assert (forall self1 : ModuleCache.t,
            ModuleCache.namespace self1 = Some name ->
            ModuleCache.storage (ModuleCache.__purge today self1)
            = <[name := ModuleCache.purge_keys
                          (map_to_list
                             (default ∅ (ModuleCache.storage self1 !! name))).*1
                          today
                          (default ∅ (ModuleCache.storage self1 !! name))]>
                (ModuleCache.storage self1)) as Hpurge.
  { intros self1 Hn. unfold ModuleCache.__purge, ModuleCache._cache.
    by rewrite Hn. }
  split; [|split; [|split; [|split]]].
  - destruct (set_namespace_cache name today self "") as (c' & _ & Hn & _).
    done.
  - intros k.
    destruct (set_namespace_cache name today self k) as (c' & Hc & Hn & Hk).
    destruct (cache_selected _ name Hn) as (c2 & Hc2 & Hrec).
    rewrite Hc in Hc2. injection Hc2 as <-. rewrite <- Hrec, Hk.
    unfold record. by destruct (ModuleCache.storage self !! name).
  - intros ns' Hne. unfold ModuleCache.set_namespace.
    rewrite Hpurge; [|done]. simpl.
    rewrite lookup_insert_ne; [|done].
    destruct (ModuleCache.storage self !! name); [done|].
    by rewrite lookup_insert_ne.
  - intros ns' Hs. unfold ModuleCache.set_namespace.
    rewrite Hpurge; [|done]. simpl.
    destruct (decide (name = ns')) as [->|Hne].
    + rewrite lookup_insert_eq. by eexists.
    + rewrite lookup_insert_ne; [|done].
      destruct (ModuleCache.storage self !! name); [done|].
      by rewrite lookup_insert_ne.
  - unfold ModuleCache.set_namespace. rewrite Hpurge; [|done].
    rewrite lookup_insert_eq. by eexists.
Qed.

(** X3: a successful [get] refreshes the date of the record it reads: a
    record read on day [today], however old it was, is found again when
    its namespace is next selected up to [days] days after [today], and
    is gone when it is selected later than that. *)
Theorem get_refreshes (self : ModuleCache.t) (ns k : string)
    (it : ModuleCache.item) (v dflt : pyval) (today : Z) :
  ModuleCache.namespace self = Some ns ->
  record ns k self = Some it ->
  ModuleCache.value it = Some v ->
  exists self1,
    ModuleCache.get k dflt today self = Ok (v, self1) /\
    forall later : Z,
      let self2 := ModuleCache.set_namespace ns later self1 in
      ((later - today <= ModuleCache.days it)%Z ->
       exists self3, ModuleCache.get k dflt later self2 = Ok (v, self3)) /\
      ((later - today > ModuleCache.days it)%Z ->
       ModuleCache.get k dflt later self2 = Ok (dflt, self2)).
Proof.
  intros Hns Hrec Hv.
  destruct (get_effect self ns k dflt today Hns)
    as (self1 & Hget & Hns1 & Hrec1 & _).
  rewrite Hrec, Hv in Hget. simpl in Hget.
  exists self1. split; [done|]. intros later self2.
  destruct (set_namespace_effect ns later self1) as (Hns2 & Hrec2 & _).
  fold self2 in Hns2, Hrec2.
  destruct (get_effect self2 ns k dflt later Hns2)
    as (self3 & Hget3 & _ & _ & _).
  rewrite Hrec2, Hrec1, Hrec in Hget3. simpl in Hget3.
  unfold ModuleCache.expired in Hget3. simpl in Hget3.
  split.
  - intros Hle. exists self3.
    rewrite bool_decide_eq_false_2 in Hget3 by lia.
    simpl in Hget3. by rewrite Hv in Hget3.
  - intros Hgt. rewrite bool_decide_eq_true_2 in Hget3 by lia.
    destruct (cache_selected self2 ns Hns2) as (c & Hc & Hck).
    apply (get_miss k dflt later self2 ns c Hns2 Hc).
    rewrite Hck, Hrec2, Hrec1, Hrec. simpl.
    unfold ModuleCache.expired. simpl.
    by rewrite bool_decide_eq_true_2 by lia.
Qed.

Lemma get_refreshes_witness :
  exists self1,
    ModuleCache.get "seen" PNone 100
      (ModuleCache.Make
         {["rss" := {["seen" := ModuleCache.Item 60 45 (Some (PInt 7))]}]}
         (Some "rss"))
    = Ok (PInt 7, self1) /\
    forall later : Z,
      let self2 := ModuleCache.set_namespace "rss" later self1 in
      ((later - 100 <= 45)%Z ->
       exists self3, ModuleCache.get "seen" PNone later self2
                     = Ok (PInt 7, self3)) /\
      ((later - 100 > 45)%Z ->
       ModuleCache.get "seen" PNone later self2 = Ok (PNone, self2)).
Proof.
  exact (get_refreshes
           (ModuleCache.Make
              {["rss" := {["seen" := ModuleCache.Item 60 45 (Some (PInt 7))]}]}
              (Some "rss"))
           "rss" "seen" (ModuleCache.Item 60 45 (Some (PInt 7)))
           (PInt 7) PNone 100 eq_refl eq_refl eq_refl).
Defined.

(** X4: with a namespace selected, [get] never raises; it returns the
    default exactly for a key without record or with a record without
    value; and the only thing it changes in the whole cache is the date
    of the record it reads. *)
Theorem get_touches_one_record (self : ModuleCache.t) (ns k : string)
    (dflt : pyval) (today : Z) :
  ModuleCache.namespace self = Some ns ->
  exists v self',
    ModuleCache.get k dflt today self = Ok (v, self') /\
    v = match record ns k self with
        | Some it => default dflt (ModuleCache.value it)
        | None => dflt
        end /\
    ModuleCache.namespace self' = Some ns /\
    record ns k self' = touched today <$> record ns k self /\
    (forall ns' k', (ns', k') <> (ns, k) ->
                    record ns' k' self' = record ns' k' self).
Proof.
  intros Hns.
  destruct (get_effect self ns k dflt today Hns)
    as (self' & Hget & Hns' & Hrec & Hother & _).
  eexists _, self'. split; [exact Hget|]. done.
Qed.

Lemma get_touches_one_record_witness :
  exists v self',
    ModuleCache.get "seen" (PStr "none") 100
      (ModuleCache.Make
         {["rss" := {["seen" := ModuleCache.Item 60 45 None]}]} (Some "rss"))
    = Ok (v, self') /\
    v = PStr "none" /\
    ModuleCache.namespace self' = Some "rss" /\
    record "rss" "seen" self' = Some (ModuleCache.Item 100 45 None) /\
    (forall ns' k', (ns', k') <> ("rss", "seen") ->
                    record ns' k' self'
                    = record ns' k'
                        (ModuleCache.Make
                           {["rss" := {["seen" := ModuleCache.Item 60 45 None]}]}
                           (Some "rss"))).
Proof.
  exact (get_touches_one_record
           (ModuleCache.Make
              {["rss" := {["seen" := ModuleCache.Item 60 45 None]}]}
              (Some "rss"))
           "rss" "seen" (PStr "none") 100 eq_refl).
Defined.

(** What [storedefault] returns and what it leaves behind *)
Lemma storedefault_effect (self : ModuleCache.t) (ns k : string) (v : pyval)
    (days today : Z) :
  ModuleCache.namespace self = Some ns ->
  let kept :=
    match record ns k self with
    | Some it => ModuleCache.value it
    | None => None
    end in
  exists self',
    ModuleCache.storedefault k v days today self
    = Ok (default v kept, self') /\
    ModuleCache.namespace self' = Some ns /\
    record ns k self'
    = Some (match kept, record ns k self with
            | Some _, Some it => touched today it
            | _, _ => ModuleCache.Item today days (Some v)
            end) /\
    (forall ns' k', (ns', k') <> (ns, k) ->
                    record ns' k' self' = record ns' k' self) /\
    (forall ns', ns' <> ns ->
                 ModuleCache.storage self' !! ns'
                 = ModuleCache.storage self !! ns') /\
    (forall ns', is_Some (ModuleCache.storage self !! ns') ->
                 is_Some (ModuleCache.storage self' !! ns')).
Proof.
  intros Hns kept.
  destruct (get_effect self ns k PNone today Hns)
    as (self1 & Hget & Hns1 & Hrec1 & Hoth1 & Hsto1 & Hdom1).
  assert (ModuleCache.get_opt k today self = Ok (kept, self1)) as Hopt.
  { unfold ModuleCache.get in Hget.
    destruct (ModuleCache.get_opt k today self) as [[o s1]|err] eqn:Ho;
      [|done].
    injection Hget as _ <-. f_equal. f_equal.
    unfold ModuleCache.get_opt in Ho. rewrite Hns in Ho.
    destruct (cache_selected self ns Hns) as (c & Hc & Hck).
    rewrite Hc in Ho. rewrite (Hck k) in Ho. unfold kept.
    destruct (record ns k self) as [it|]; simpl in Ho; congruence. }
  unfold ModuleCache.storedefault. rewrite Hopt.
  destruct kept as [old|] eqn:Hkept.
  - exists self1. split; [done|]. split; [done|]. split; [|done].
    rewrite Hrec1. unfold kept in Hkept.
    by destruct (record ns k self) as [it|].
  - destruct (store_effect self1 ns k v days today Hns1)
      as (self2 & Hst & Hns2 & Hrec2 & Hoth2 & Hsto2 & Hdom2).
    rewrite Hst.
    destruct (get_effect self2 ns k PNone today Hns2)
      as (self3 & Hget3 & Hns3 & Hrec3 & Hoth3 & Hsto3 & Hdom3).
    rewrite Hrec2 in Hget3. simpl in Hget3.
    exists self3. split; [done|]. split; [done|]. split; [|split; [|split]].
    + rewrite Hrec3, Hrec2. simpl.
      by destruct (record ns k self).
    + intros ns' k' Hne. rewrite Hoth3, Hoth2, Hoth1; done.
    + intros ns' Hne. rewrite Hsto3, Hsto2, Hsto1; done.
    + intros ns' Hs. by apply Hdom3, Hdom2, Hdom1.
Qed.

(** X5: [storedefault] is the dictionary's [setdefault]. With a
    namespace selected it never raises; for a key whose record has a
    value it returns that value and keeps the record's value and number
    of days; otherwise it stores the given value for the given days and
    returns it. Either way a following [get] returns what it
    returned. *)
Theorem storedefault_setdefault (self : ModuleCache.t) (ns k : string)
    (v : pyval) (days today : Z) :
  ModuleCache.namespace self = Some ns ->
  exists r self',
    ModuleCache.storedefault k v days today self = Ok (r, self') /\
    (forall it old,
       record ns k self = Some it -> ModuleCache.value it = Some old ->
       r = old /\
       record ns k self'
       = Some (ModuleCache.Item today (ModuleCache.days it) (Some old))) /\
    ((forall it, record ns k self = Some it -> ModuleCache.value it = None) ->
     r = v /\
     record ns k self' = Some (ModuleCache.Item today days (Some v))) /\
    (forall dflt, exists self'',
       ModuleCache.get k dflt today self' = Ok (r, self'')).
Proof.
  intros Hns.
  destruct (storedefault_effect self ns k v days today Hns)
    as (self' & Hsd & Hns' & Hrec & _).
  eexists _, self'. split; [exact Hsd|]. split; [|split].
  - intros it old Hit Hold. rewrite Hrec, Hit, Hold. simpl.
    split; [done|]. unfold touched. by rewrite Hold.
  - intros Hnone. rewrite Hrec.
    destruct (record ns k self) as [it|]; [|done].
    by rewrite (Hnone it eq_refl).
  - intros dflt.
    destruct (get_effect self' ns k dflt today Hns')
      as (self'' & Hget & _).
    exists self''. rewrite Hget, Hrec. f_equal. f_equal.
    destruct (record ns k self) as [it|]; [|done].
    unfold touched.
    destruct (ModuleCache.value it) as [old|] eqn:Hv; simpl;
      rewrite ?Hv; done.
Qed.

Lemma storedefault_setdefault_witness :
  exists r self',
    ModuleCache.storedefault "etag" (PStr "new") 7 100
      (ModuleCache.Make
         {["rss" := {["etag" := ModuleCache.Item 90 30 (Some (PStr "old"))]}]}
         (Some "rss"))
    = Ok (r, self') /\ r = PStr "old".
Proof.
  destruct (storedefault_setdefault
              (ModuleCache.Make
                 {["rss" :=
                     {["etag" := ModuleCache.Item 90 30 (Some (PStr "old"))]}]}
                 (Some "rss"))
              "rss" "etag" (PStr "new") 7 100 eq_refl)
    as (r & self' & Hsd & Hold & _).
  exists r, self'. split; [exact Hsd|].
  exact (proj1 (Hold (ModuleCache.Item 90 30 (Some (PStr "old"))) (PStr "old")
                  eq_refl eq_refl)).
Defined.

(** X6: the calls on the cache stay in the selected namespace: [store],
    [get], [storedefault] and [remove] leave the dictionary of every
    other namespace as it is and keep the selection, and selecting a
    namespace changes no other namespace's dictionary. *)
Theorem cache_calls_stay_in_namespace (self : ModuleCache.t)
    (ns other : string) (today : Z) :
  ModuleCache.namespace self = Some ns -> other <> ns ->
  (forall k v days self',
     ModuleCache.store k v days today self = Ok self' ->
     ModuleCache.namespace self' = Some ns /\
     ModuleCache.storage self' !! other = ModuleCache.storage self !! other) /\
  (forall k dflt r self',
     ModuleCache.get k dflt today self = Ok (r, self') ->
     ModuleCache.namespace self' = Some ns /\
     ModuleCache.storage self' !! other = ModuleCache.storage self !! other) /\
  (forall k v days r self',
     ModuleCache.storedefault k v days today self = Ok (r, self') ->
     ModuleCache.namespace self' = Some ns /\
     ModuleCache.storage self' !! other = ModuleCache.storage self !! other) /\
  (forall k r self',
     ModuleCache.remove k self = Ok (r, self') ->
     ModuleCache.namespace self' = Some ns /\
     ModuleCache.storage self' !! other = ModuleCache.storage self !! other) /\
  (forall name,
     name <> other ->
     ModuleCache.storage (ModuleCache.set_namespace name today self) !! other
     = ModuleCache.storage self !! other).
Proof.
  intros Hns Hne. split; [|split; [|split; [|split]]].
  - intros k v days self' Hst.
    destruct (store_effect self ns k v days today Hns)
      as (self1 & Hst1 & Hns1 & _ & _ & Hsto & _).
    rewrite Hst in Hst1. injection Hst1 as ->. auto.
  - intros k dflt r self' Hget.
    destruct (get_effect self ns k dflt today Hns)
      as (self1 & Hg1 & Hns1 & _ & _ & Hsto & _).
    rewrite Hget in Hg1. injection Hg1 as _ ->. auto.
  - intros k v days r self' Hsd.
    destruct (storedefault_effect self ns k v days today Hns)
      as (self1 & Hs1 & Hns1 & _ & _ & Hsto & _).
    rewrite Hsd in Hs1. injection Hs1 as _ ->. auto.
  - intros k r self' Hrm.
    pose proof (remove_effect self ns k Hns) as Heff.
    destruct (record ns k self) as [it|].
    + destruct Heff as (self1 & Hr1 & Hns1 & _ & _ & Hsto & _).
      rewrite Hrm in Hr1. injection Hr1 as _ ->. auto.
    + by rewrite Hrm in Heff.
  - intros name Hname.
    destruct (set_namespace_effect name today self) as (_ & _ & Hsto & _).
    by apply Hsto.
Qed.

Lemma cache_calls_stay_in_namespace_witness :
  ModuleCache.storage
    (ModuleCache.set_namespace "rss" 100
       (ModuleCache.Make
          {["seen" := {["a" := ModuleCache.Item 1 2 (Some PNone)]}]}
          (Some "rss"))) !! "seen"
  = Some {["a" := ModuleCache.Item 1 2 (Some PNone)]}.
Proof.
  exact (proj2 (proj2 (proj2 (proj2
           (cache_calls_stay_in_namespace
              (ModuleCache.Make
                 {["seen" := {["a" := ModuleCache.Item 1 2 (Some PNone)]}]}
                 (Some "rss"))
              "rss" "seen" 100 eq_refl ltac:(done)))))
           "rss" ltac:(done)).
Defined.

(** X7: a value stored under one namespace is not seen under another and
    is found again on return: after [store] under [a], a [get] of the
    key under [b] returns the default when [b] holds no record of its
    own for it, and after selecting [a] again within the record's days
    [get] returns the stored value. *)
Theorem namespace_round_trip (self : ModuleCache.t) (a b k : string)
    (v dflt : pyval) (days today later : Z) :
  a <> b -> (later - today <= days)%Z ->
  exists self1,
    ModuleCache.store k v days today (ModuleCache.set_namespace a today self)
    = Ok self1 /\
    (record b k self = None ->
     ModuleCache.get k dflt later (ModuleCache.set_namespace b later self1)
     = Ok (dflt, ModuleCache.set_namespace b later self1)) /\
    exists self2,
      ModuleCache.get k dflt later
        (ModuleCache.set_namespace a later
           (ModuleCache.set_namespace b later self1))
      = Ok (v, self2).
Proof.
  intros Hab Hle.
  destruct (set_namespace_effect a today self) as (Hns0 & _ & Hsto0 & _).
  destruct (store_effect _ a k v days today Hns0)
    as (self1 & Hst & Hns1 & Hrec1 & _ & Hsto1 & _).
  exists self1. split; [done|].
  destruct (set_namespace_effect b later self1) as (Hnsb & Hrecb & Hstob & _).
  split.
  - intros Hnone.
    destruct (get_effect _ b k dflt later Hnsb) as (self3 & Hget & _).
    destruct (cache_selected _ b Hnsb) as (c & Hc & Hck).
    apply (get_miss k dflt later _ b c Hnsb Hc).
    rewrite Hck, Hrecb.
    assert (record b k self1 = None) as ->; [|done].
    unfold record. rewrite Hsto1, Hsto0; [done|done|done].
  - destruct (set_namespace_effect a later
                (ModuleCache.set_namespace b later self1))
      as (Hnsa & Hreca & _).
    destruct (get_effect _ a k dflt later Hnsa) as (self2 & Hget & _).
    exists self2. rewrite Hget. f_equal. f_equal.
    rewrite Hreca.
    assert (record a k (ModuleCache.set_namespace b later self1)
            = Some (ModuleCache.Item today days (Some v))) as ->.
    { unfold record. rewrite Hstob; [|done]. exact Hrec1. }
    unfold ModuleCache.expired. simpl.
    by rewrite bool_decide_eq_false_2 by lia.
Qed.

Lemma namespace_round_trip_witness :
  exists self1,
    ModuleCache.store "etag" (PStr "abc") 30 100
      (ModuleCache.set_namespace "rss" 100 (ModuleCache.__init__ ∅))
    = Ok self1 /\
    (record "seen" "etag" (ModuleCache.__init__ ∅) = None ->
     ModuleCache.get "etag" PNone 120
       (ModuleCache.set_namespace "seen" 120 self1)
     = Ok (PNone, ModuleCache.set_namespace "seen" 120 self1)) /\
    exists self2,
      ModuleCache.get "etag" PNone 120
        (ModuleCache.set_namespace "rss" 120
           (ModuleCache.set_namespace "seen" 120 self1))
      = Ok (PStr "abc", self2).
Proof.
  apply (namespace_round_trip (ModuleCache.__init__ ∅) "rss" "seen" "etag"
           (PStr "abc") PNone 30 100 120); [done|lia].
Defined.

Lemma elem_of_get_namespaces (ns : string) (self : ModuleCache.t) :
  ns ∈ ModuleCache.get_namespaces self
  <-> is_Some (ModuleCache.storage self !! ns).
Proof.
  unfold ModuleCache.get_namespaces. rewrite list_elem_of_fmap. split.
  - intros ([k c] & -> & Hin). apply elem_of_map_to_list in Hin.
    by eexists.
  - intros [c Hc]. exists (ns, c). split; [done|].
    by apply elem_of_map_to_list.
Qed.

(** X8: the cache never forgets a namespace. A new cache over an empty
    session knows none; selecting a namespace makes it known; and
    whatever is known stays known after every selection, [store], [get],
    [storedefault] and [remove], also when all its records are gone. *)
Theorem namespaces_never_forgotten (self : ModuleCache.t) (today : Z) :
  ModuleCache.get_namespaces (ModuleCache.__init__ ∅) = [] /\
  (forall name,
     name ∈ ModuleCache.get_namespaces
              (ModuleCache.set_namespace name today self)) /\
  (forall ns,
     ns ∈ ModuleCache.get_namespaces self ->
     (forall name,
        ns ∈ ModuleCache.get_namespaces
               (ModuleCache.set_namespace name today self)) /\
     (forall k v days self',
        ModuleCache.store k v days today self = Ok self' ->
        ns ∈ ModuleCache.get_namespaces self') /\
     (forall k dflt r self',
        ModuleCache.get k dflt today self = Ok (r, self') ->
        ns ∈ ModuleCache.get_namespaces self') /\
     (forall k v days r self',
        ModuleCache.storedefault k v days today self = Ok (r, self') ->
        ns ∈ ModuleCache.get_namespaces self') /\
     (forall k r self',
        ModuleCache.remove k self = Ok (r, self') ->
        ns ∈ ModuleCache.get_namespaces self')).
Proof.
  split; [done|]. split.
  { intros name. apply elem_of_get_namespaces.
    by destruct (set_namespace_effect name today self) as (_ & _ & _ & _ & H). }
  intros ns Hin. apply elem_of_get_namespaces in Hin.
  split; [|split; [|split; [|split]]].
  - intros name. apply elem_of_get_namespaces.
    destruct (set_namespace_effect name today self) as (_ & _ & _ & H & _).
    by apply H.
  - intros k v days self' Hst. apply elem_of_get_namespaces.
    destruct (ModuleCache.namespace self) as [sel|] eqn:Hns;
      [|unfold ModuleCache.store in Hst; by rewrite Hns in Hst].
    destruct (store_effect self sel k v days today Hns)
      as (self1 & Hst1 & _ & _ & _ & _ & Hdom).
    rewrite Hst in Hst1. injection Hst1 as ->. by apply Hdom.
  - intros k dflt r self' Hget. apply elem_of_get_namespaces.
    destruct (ModuleCache.namespace self) as [sel|] eqn:Hns;
      [|unfold ModuleCache.get, ModuleCache.get_opt in Hget;
        by rewrite Hns in Hget].
    destruct (get_effect self sel k dflt today Hns)
      as (self1 & Hg1 & _ & _ & _ & _ & Hdom).
    rewrite Hget in Hg1. injection Hg1 as _ ->. by apply Hdom.
  - intros k v days r self' Hsd. apply elem_of_get_namespaces.
    destruct (ModuleCache.namespace self) as [sel|] eqn:Hns;
      [|unfold ModuleCache.storedefault, ModuleCache.get_opt in Hsd;
        by rewrite Hns in Hsd].
    destruct (storedefault_effect self sel k v days today Hns)
      as (self1 & Hs1 & _ & _ & _ & _ & Hdom).
    rewrite Hsd in Hs1. injection Hs1 as _ ->. by apply Hdom.
  - intros k r self' Hrm. apply elem_of_get_namespaces.
    destruct (ModuleCache.namespace self) as [sel|] eqn:Hns;
      [|unfold ModuleCache.remove in Hrm; by rewrite Hns in Hrm].
    pose proof (remove_effect self sel k Hns) as Heff.
    destruct (record sel k self) as [it|].
    + destruct Heff as (self1 & Hr1 & _ & _ & _ & _ & Hdom).
      rewrite Hrm in Hr1. injection Hr1 as _ ->. by apply Hdom.
    + by rewrite Hrm in Heff.
Qed.

Lemma namespaces_never_forgotten_witness :
  "rss" ∈ ModuleCache.get_namespaces
            (ModuleCache.set_namespace "seen" 100
               (ModuleCache.set_namespace "rss" 100 (ModuleCache.__init__ ∅))).
Proof.
  apply (proj1 (proj2 (proj2 (namespaces_never_forgotten
                                (ModuleCache.set_namespace "rss" 100
                                   (ModuleCache.__init__ ∅)) 100))
                  "rss"
                  (proj1 (proj2 (namespaces_never_forgotten
                                   (ModuleCache.__init__ ∅) 100)) "rss"))
           "seen").
Defined.

(** X9: before a namespace is selected the cache cannot be used. On a
    new cache, whatever the session holds, [get_namespace] answers
    [None]; [has_key] raises [AttributeError]; each of [store], [get],
    [storedefault] and [remove] raises ([TypeError] for [store],
    [AttributeError] for the others); and after any number of such calls
    the cache is as it was constructed. *)
Theorem cache_needs_namespace (manager : Manager.t)
    (persisted : gmap string (gmap string ModuleCache.item))
    (calls : list cache_call) :
  let self := ModuleCache.__init__ persisted in
  ModuleCache.get_namespace self = None /\
  (forall k,
     ModuleCache.has_key k self
     = Raise (AttributeError "'NoneType' object has no attribute 'has_key'")) /\
  (forall c,
     Feed.run_cache_call manager c self
     = (self,
        Some match c with
             | CacheStore _ _ _ =>
                 TypeError "'NoneType' object does not support item assignment"
             | CacheGet _ _ | CacheStoredefault _ _ _ =>
                 AttributeError "'NoneType' object has no attribute 'get'"
             | CacheRemove _ =>
                 AttributeError "'NoneType' object has no attribute 'pop'"
             end)) /\
  foldl (fun mc c => (Feed.run_cache_call manager c mc).1) self calls = self.
Proof.
  intros self.
  assert (forall c,
            Feed.run_cache_call manager c self
            = (self,
               Some match c with
                    | CacheStore _ _ _ =>
                        TypeError
                          "'NoneType' object does not support item assignment"
                    | CacheGet _ _ | CacheStoredefault _ _ _ =>
                        AttributeError
                          "'NoneType' object has no attribute 'get'"
                    | CacheRemove _ =>
                        AttributeError
                          "'NoneType' object has no attribute 'pop'"
                    end)) as Hcall.
  { by intros [k v d|k dflt|k v d|k]. }
  split; [done|]. split; [done|]. split; [done|].
  induction calls as [|c calls IH]; [done|].
  simpl. by rewrite Hcall.
Qed.

(** X10: [has_key] tells whether the key has a record, with or without
    value: it is true after [store], false after [remove], and true
    exactly when [remove] returns and false exactly when [remove] raises
    [KeyError]. *)
Theorem has_key_predicts_remove (self : ModuleCache.t) (ns k : string) :
  ModuleCache.namespace self = Some ns ->
  (ModuleCache.has_key k self = Ok true <->
   exists it self', ModuleCache.remove k self
                    = Ok (ModuleCache.ObjItem it, self')) /\
  (ModuleCache.has_key k self = Ok false <->
   ModuleCache.remove k self = Raise (KeyError k)) /\
  (forall v days today self',
     ModuleCache.store k v days today self = Ok self' ->
     ModuleCache.has_key k self' = Ok true) /\
  (forall r self',
     ModuleCache.remove k self = Ok (r, self') ->
     ModuleCache.has_key k self' = Ok false).
Proof.
  intros Hns.
  assert (forall s : ModuleCache.t,
            ModuleCache.namespace s = Some ns ->
            ModuleCache.has_key k s
            = Ok (bool_decide (is_Some (record ns k s)))) as Hhk.
  { intros s Hs. destruct (cache_selected s ns Hs) as (c & Hc & Hck).
    unfold ModuleCache.has_key, has_key. rewrite Hc, (Hck k).
    by destruct (record ns k s). }
  pose proof (remove_effect self ns k Hns) as Heff.
  split; [|split; [|split]].
  - rewrite (Hhk self Hns). destruct (record ns k self) as [it|].
    + destruct Heff as (self1 & Hr1 & _). split; [|done].
      intros _. by exists it, self1.
    + split; [done|]. intros (it & self' & Hrm). by rewrite Hrm in Heff.
  - rewrite (Hhk self Hns). destruct (record ns k self) as [it|].
    + destruct Heff as (self1 & Hr1 & _). split; [done|].
      intros Hrm. by rewrite Hrm in Hr1.
    + done.
  - intros v days today self' Hst.
    destruct (store_effect self ns k v days today Hns)
      as (self1 & Hst1 & Hns1 & Hrec1 & _).
    rewrite Hst in Hst1. injection Hst1 as ->.
    rewrite (Hhk self1 Hns1), Hrec1. done.
  - intros r self' Hrm. destruct (record ns k self) as [it|].
    + destruct Heff as (self1 & Hr1 & Hns1 & Hrec1 & _).
      rewrite Hrm in Hr1. injection Hr1 as _ ->.
      rewrite (Hhk self1 Hns1), Hrec1. done.
    + by rewrite Hrm in Heff.
Qed.

Lemma has_key_predicts_remove_witness :
  ModuleCache.has_key "seen"
    (ModuleCache.Make {["rss" := {["seen" := ModuleCache.Item 60 45 None]}]}
       (Some "rss")) = Ok true <->
  exists it self',
    ModuleCache.remove "seen"
      (ModuleCache.Make {["rss" := {["seen" := ModuleCache.Item 60 45 None]}]}
         (Some "rss"))
    = Ok (ModuleCache.ObjItem it, self').
Proof.
  exact (proj1 (has_key_predicts_remove
                  (ModuleCache.Make
                     {["rss" := {["seen" := ModuleCache.Item 60 45 None]}]}
                     (Some "rss"))
                  "rss" "seen" eq_refl)).
Defined.

(** ** The lists of a feed: invariants, purges and errors *)

Lemma NoDup_snoc_fresh {A : Type} (l : list A) (e : A) :
  NoDup l -> e ∉ l -> NoDup (l ++ [e]).
Proof.
  intros Hnd Hne. apply NoDup_app. split; [done|].
  split; [|apply NoDup_singleton].
  intros x Hx Hxe. apply list_elem_of_singleton in Hxe as ->. done.
Qed.

Lemma step_nodup_accepted (o : op) (s : feed) :
  NoDup (accepted s) -> NoDup (accepted (step o s)).
Proof.
  intros Hnd. step_cases o s; rewrite ?Ha; try done;
    by apply NoDup_snoc_fresh.
Qed.

Lemma step_nodup_rejected (o : op) (s : feed) :
  NoDup (rejected s) -> NoDup (rejected (step o s)).
Proof.
  intros Hnd. step_cases o s; rewrite ?Hr; try done.
  by apply NoDup_snoc_fresh.
Qed.

Lemma step_nodup_failed (o : op) (s : feed) :
  NoDup (failed s) -> NoDup (failed (step o s)).
Proof.
  intros Hnd. step_cases o s; rewrite ?Hf; try done.
  by apply NoDup_snoc_fresh.
Qed.

Lemma step_filtered_tidy (o : op) (s : feed) :
  NoDup (filtered s) -> (forall x, x ∈ filtered s -> x ∉ accepted s) ->
  NoDup (filtered (step o s)) /\
  (forall x, x ∈ filtered (step o s) -> x ∉ accepted (step o s)).
Proof.
  intros Hnd Hdis. step_cases o s; rewrite ?Hfi, ?Ha; try done.
  - split; [done|]. intros x Hx Hxa.
    apply elem_of_app in Hxa as [Hxa|Hxa]; [by apply (Hdis x)|].
    apply list_elem_of_singleton in Hxa as ->. done.
  - rewrite Hk in Hnd, Hdis.
    apply NoDup_remove_middle in Hnd as [Hnd Hne]. split; [done|].
    intros x Hx Hxa. apply elem_of_app in Hxa as [Hxa|Hxa].
    + apply (Hdis x); [|done].
      apply elem_of_app in Hx as [Hx|Hx]; apply elem_of_app; [by left|].
      right. by right.
    + apply list_elem_of_singleton in Hxa as ->. done.
  - split; [by apply NoDup_snoc_fresh|].
    intros x Hx. apply elem_of_app in Hx as [Hx|Hx]; [by apply Hdis|].
    apply list_elem_of_singleton in Hx as ->. done.
Qed.

Lemma step_tidy (o : op) (s : feed) : tidy s -> tidy (step o s).
Proof.
  intros (Ha & Hfi & Hr & Hf & Hdis).
  destruct (step_filtered_tidy o s Hfi Hdis) as [Hfi' Hdis'].
  split; [by apply step_nodup_accepted|]. split; [done|].
  split; [by apply step_nodup_rejected|].
  split; [by apply step_nodup_failed|done].
Qed.

Lemma steps_tidy (ops : list op) (s : feed) : tidy s -> tidy (steps ops s).
Proof.
  revert s. induction ops as [|o ops IH]; intros s Hs; [done|].
  simpl. apply IH. by apply step_tidy.
Qed.

Lemma tidy_lists_eq (a b : feed) : lists_eq a b -> tidy a -> tidy b.
Proof.
  intros (_ & Ha & Hfi & Hr & Hf & _) Ht. unfold tidy.
  by rewrite <- Ha, <- Hfi, <- Hr, <- Hf.
Qed.

Lemma tidy_reaches (s s' : feed) : reaches s s' -> tidy s -> tidy s'.
Proof.
  intros (ops & Heq) Ht. eapply tidy_lists_eq; [exact Heq|].
  by apply steps_tidy.
Qed.

(** The lists at the end of [execute] are those of some sequence of
    operations. *)
Lemma execute_reaches (manager : Manager.t) (fuel : nat) (s s1 : feed)
    (r1 : option pyerr) :
  Feed.execute manager fuel s = Some (s1, r1) -> reaches s s1.
Proof.
  intros He. unfold Feed.execute in He.
  destruct (Feed.validate manager fuel s) as [[[s0 errors] r0]|] eqn:Hv;
    [|done].
  apply validate_reaches in Hv.
  destruct r0 as [err|]; [by injection He as <- _|].
  destruct (__abort s0); [by injection He as <- _|].
  case_match; [by injection He as <- _|].
  apply run_events_reaches in He. by eapply reaches_trans.
Qed.

Lemma terminate_reaches (manager : Manager.t) (fuel : nat) (s s1 : feed)
    (r1 : option pyerr) :
  Feed.terminate manager fuel s = Some (s1, r1) -> reaches s s1.
Proof.
  unfold Feed.terminate. case_match.
  - intros [= <- _]. apply reaches_refl.
  - apply run_event_reaches.
Qed.

(** X11: the lists of classified entries stay tidy. Starting from lists
    in which no entry occurs twice and no entry is both filtered and
    accepted (as in a new feed), this is so after every sequence of
    calls of accept, filter, reject, fail, appends and purges, whether
    they return or raise, and so at the end of [execute] and of
    [terminate]. *)
Theorem lists_stay_tidy (manager : Manager.t) (s : feed) :
  tidy s ->
  (forall ops, tidy (steps ops s)) /\
  (forall fuel s1 r1,
     Feed.execute manager fuel s = Some (s1, r1) ->
     tidy s1 /\
     forall s2 r2,
       Feed.terminate manager fuel s1 = Some (s2, r2) -> tidy s2).
Proof.
  intros Ht. split; [intros ops; by apply steps_tidy|].
  intros fuel s1 r1 He. apply execute_reaches in He.
  assert (tidy s1) as H1 by by eapply tidy_reaches.
  split; [done|]. intros s2 r2 Hterm. apply terminate_reaches in Hterm.
  by eapply tidy_reaches.
Qed.

Lemma init_tidy (manager : Manager.t) (name : string)
    (config : gmap string cfgval) :
  tidy (Feed.__init__ manager name config).
Proof.
  repeat split; simpl; try constructor.
  intros x Hx. by apply elem_of_nil in Hx.
Qed.

Lemma lists_stay_tidy_witness :
  tidy (steps [OpAppend entry_a; OpFilter entry_a; OpAccept entry_a;
               OpFilter entry_a; OpReject entry_a; OpReject entry_a]
          (Feed.__init__ empty_manager "feed" ∅)) /\
  tidy demo_after_execute /\ tidy demo_after_terminate.
Proof.
  destruct (lists_stay_tidy demo_manager demo_feed
              (init_tidy demo_manager "demo" _)) as [_ Hrun].
  destruct (Hrun 3 demo_after_execute None) as [H1 H2];
    [by_run|].
  split; [|split; [exact H1|]].
  - apply (lists_stay_tidy empty_manager
             (Feed.__init__ empty_manager "feed" ∅)
             (init_tidy empty_manager "feed" ∅)).
  - apply (H2 demo_after_terminate None). by_run.
Defined.

(** X12: the filtered purge at the end of an event. It returns when
    every entry it has to remove has a title and a url; when it returns,
    [entries] holds exactly the entries that were not filtered or were
    accepted, in their order, and no other list has changed. *)
Theorem filtered_purge_removes (s : feed) :
  ((forall x, x ∈ entries s -> x ∈ filtered s -> x ∉ accepted s ->
              is_Some (x !! "title") /\ is_Some (x !! "url")) ->
   (Feed._purge s).2 = None) /\
  ((Feed._purge s).2 = None ->
   entries (Feed._purge s).1
   = filter (fun x => x ∉ filtered s \/ x ∈ accepted s) (entries s) /\
   same_lists s (Feed._purge s).1).
Proof.
  unfold Feed._purge. split.
  - intros Hok. apply purge_total. intros x Hx [Hfi Hna].
    destruct (Hok x Hx Hfi Hna) as [Ht Hu]. by apply safe_str_ok.
  - intros Hret. split; [|apply purge_same_lists].
    rewrite (purge_returns _ _ _ _ Hret).
    apply filter_iff. intros x. unfold selected. split.
    + intros Hn. destruct (decide (x ∈ filtered s)) as [Hf|Hf]; [|by left].
      destruct (decide (x ∈ accepted s)) as [Ha|Ha]; [by right|].
      by destruct Hn.
    + intros [Hf|Ha] [Hf' Ha']; done.
Qed.

Lemma filtered_purge_removes_witness :
  let s := steps [OpAppend entry_a; OpAppend entry_b; OpFilter entry_a;
                  OpFilter entry_b; OpAccept entry_b]
             (Feed.__init__ empty_manager "feed" ∅) in
  entries s = [entry_a; entry_b] /\
  entries (Feed._purge s).1
  = filter (fun x => x ∉ filtered s \/ x ∈ accepted s) (entries s) /\
  entries (Feed._purge s).1 = [entry_b].
Proof.
  intros s. split; [by_decide|]. split.
  - apply (proj2 (filtered_purge_removes s)). vm_compute. reflexivity.
  - by_decide.
Defined.

(** X13: how a purge fails. A purge raises nothing but a [KeyError], for
    the first entry it has to remove that lacks a title or a url; the
    entries before that one have been purged, that one and those after
    it are still in [entries], and no other list has changed. *)
Theorem purge_raises_only_KeyError (sel not_in_list : list entry)
    (count : bool) (s : feed) (err : pyerr) :
  (Feed.__purge sel not_in_list count s).2 = Some err ->
  exists done x rest,
    entries s = done ++ x :: rest /\
    selected sel not_in_list x /\
    ((x !! "title" = None /\ err = KeyError "title") \/
     (is_Some (x !! "title") /\ x !! "url" = None /\ err = KeyError "url")) /\
    entries (Feed.__purge sel not_in_list count s).1
    = filter (fun y => ~ selected sel not_in_list y) done ++ x :: rest /\
    same_lists s (Feed.__purge sel not_in_list count s).1.
Proof.
  intros Herr.
  destruct (purge_shape sel not_in_list count s)
    as (done & rest & H1 & H2 & H3 & _ & H5).
  rewrite Herr in H3. destruct H3 as (x & rest' & -> & Hsel & Hstr).
  exists done, x, rest'. split; [done|]. split; [done|].
  split; [|done].
  unfold Entry.safe_str, Entry.getitem in Hstr.
  destruct (x !! "title") as [t|] eqn:Ht.
  - right. split; [by eexists|].
    destruct (x !! "url") as [u|] eqn:Hu; [done|].
    split; [done|congruence].
  - left. split; [done|congruence].
Qed.

Lemma purge_raises_only_KeyError_witness :
  let s := steps [OpAppend entry_a; OpAppend entry_no_url; OpAppend entry_b;
                  OpReject entry_a; OpReject entry_no_url; OpReject entry_b]
             (Feed.__init__ empty_manager "feed" ∅) in
  exists done x rest,
    entries s = done ++ x :: rest /\
    selected (rejected s) [] x /\
    ((x !! "title" = None /\ KeyError "url" = KeyError "title") \/
     (is_Some (x !! "title") /\ x !! "url" = None /\
      KeyError "url" = KeyError "url")) /\
    entries (Feed.__purge (rejected s) [] true s).1
    = filter (fun y => ~ selected (rejected s) [] y) done ++ x :: rest /\
    same_lists s (Feed.__purge (rejected s) [] true s).1.
Proof.
  intros s.
  apply (purge_raises_only_KeyError (rejected s) [] true s (KeyError "url")).
  vm_compute. reflexivity.
Defined.

(** X14: what [accept] does and raises. For an entry already accepted it
    does nothing. Otherwise it appends the entry to [accepted]; if the
    entry was not filtered, [filtered] stays and the call raises only
    for an entry without title; if the entry was filtered, its first
    occurrence is taken out of [filtered] and the call then raises:
    [KeyError] for an entry without title, else the [TypeError] of the
    call of [verbose_details] without its [reason] argument. *)
Theorem accept_outcomes (e : entry) (s : feed) :
  (e ∈ accepted s -> Feed.accept e s = (s, None)) /\
  (e ∉ accepted s ->
   accepted (Feed.accept e s).1 = accepted s ++ [e] /\
   (e ∉ filtered s ->
    filtered (Feed.accept e s).1 = filtered s /\
    (Feed.accept e s).2
    = match e !! "title" with
      | Some _ => None
      | None => Some (KeyError "title")
      end) /\
   (e ∈ filtered s ->
    (exists k t, filtered s = k ++ e :: t /\ (e ∉ k) /\
                 filtered (Feed.accept e s).1 = k ++ t) /\
    (Feed.accept e s).2
    = Some match e !! "title" with
           | Some _ => Feed.missing_reason
           | None => KeyError "title"
           end)).
Proof.
  split.
  - intros Hin. apply py_in_true in Hin. unfold Feed.accept.
    by rewrite Hin.
  - intros Hnin. apply py_in_false in Hnin. unfold Feed.accept.
    rewrite Hnin. simpl. split.
    { destruct (py_in e (filtered s)); [|done].
      by destruct (py_remove e (filtered s)). }
    split.
    + intros Hnf. apply py_in_false in Hnf. rewrite Hnf. simpl.
      split; [done|]. unfold Feed.title_of, Entry.getitem.
      by destruct (e !! "title").
    + intros Hf. pose proof Hf as Hf'. apply py_in_true in Hf'.
      rewrite Hf'.
      destruct (py_remove_elem e (filtered s) Hf) as (k & t & Hk & Hnk & Hr).
      rewrite Hr. simpl. split; [by exists k, t|].
      unfold Feed.title_of, Entry.getitem. by destruct (e !! "title").
Qed.

Lemma accept_outcomes_witness :
  let s := steps [OpAppend entry_a; OpFilter entry_a]
             (Feed.__init__ empty_manager "feed" ∅) in
  (Feed.accept entry_a s).2 = Some Feed.missing_reason /\
  accepted (Feed.accept entry_a s).1 = [entry_a] /\
  filtered (Feed.accept entry_a s).1 = [].
Proof.
  intros s.
  destruct (accept_outcomes entry_a s) as [_ Hnew].
  destruct Hnew as (Ha & _ & Hfi).
  { by_decide. }
  destruct Hfi as [_ Hr].
  { by_decide. }
  split; [exact Hr|]. split; [exact Ha|]. by_decide.
Defined.

(** X15: entries without title. [fail] builds its message first, so for
    an entry without title it raises [KeyError] and records nothing;
    [accept], [filter] and [reject] build theirs after recording, so
    they record the entry and then raise [KeyError]; on an entry they
    have already recorded they do nothing and raise nothing. *)
Theorem untitled_entry_calls (e : entry) (s : feed) :
  e !! "title" = None ->
  Feed.fail e s = (s, Some (KeyError "title")) /\
  (e ∉ accepted s ->
   accepted (Feed.accept e s).1 = accepted s ++ [e] /\
   (Feed.accept e s).2 = Some (KeyError "title")) /\
  (e ∉ filtered s -> e ∉ accepted s ->
   filtered (Feed.filter e s).1 = filtered s ++ [e] /\
   (Feed.filter e s).2 = Some (KeyError "title")) /\
  (e ∉ rejected s ->
   rejected (Feed.reject e s).1 = rejected s ++ [e] /\
   (Feed.reject e s).2 = Some (KeyError "title")) /\
  (e ∈ accepted s -> Feed.accept e s = (s, None)) /\
  (e ∈ filtered s \/ e ∈ accepted s -> Feed.filter e s = (s, None)) /\
  (e ∈ rejected s -> Feed.reject e s = (s, None)).
Proof.
  intros Ht.
  assert (Feed.title_of e = Some (KeyError "title")) as Htitle.
  { unfold Feed.title_of, Entry.getitem. by rewrite Ht. }
  split; [unfold Feed.fail, Entry.getitem; by rewrite Ht|].
  split; [|split; [|split; [|split; [|split]]]].
  - intros Hna. apply py_in_false in Hna. unfold Feed.accept.
    rewrite Hna. simpl.
    destruct (py_in e (filtered s)) eqn:Hf; [|by rewrite Htitle].
    apply py_in_true in Hf.
    destruct (py_remove_elem e (filtered s) Hf) as (k & t & _ & _ & ->).
    simpl. by rewrite Htitle.
  - intros Hnf Hna. apply py_in_false in Hnf, Hna.
    unfold Feed.filter. rewrite Hnf, Hna. simpl. by rewrite Htitle.
  - intros Hnr. apply py_in_false in Hnr.
    unfold Feed.reject. rewrite Hnr. simpl. by rewrite Htitle.
  - intros Hin. apply py_in_true in Hin. unfold Feed.accept.
    by rewrite Hin.
  - intros [Hin|Hin]; apply py_in_true in Hin; unfold Feed.filter;
      rewrite Hin; simpl; [done|by rewrite andb_false_r].
  - intros Hin. apply py_in_true in Hin. unfold Feed.reject.
    by rewrite Hin.
Qed.

Lemma untitled_entry_calls_witness :
  Feed.fail (Entry.__init__ []) (Feed.__init__ empty_manager "feed" ∅)
  = (Feed.__init__ empty_manager "feed" ∅, Some (KeyError "title")).
Proof.
  exact (proj1 (untitled_entry_calls (Entry.__init__ [])
                  (Feed.__init__ empty_manager "feed" ∅) eq_refl)).
Defined.

(** ** What a run does to the lists *)

Lemma step_accepted_prefix (o : op) (s : feed) :
  accepted s `prefix_of` accepted (step o s).
Proof.
  step_cases o s; rewrite ?Ha; try done; by apply prefix_app_r.
Qed.

Lemma step_rejected_prefix (o : op) (s : feed) :
  rejected s `prefix_of` rejected (step o s).
Proof.
  step_cases o s; rewrite ?Hr; try done. by apply prefix_app_r.
Qed.

Lemma step_failed_prefix (o : op) (s : feed) :
  failed s `prefix_of` failed (step o s).
Proof.
  step_cases o s; rewrite ?Hf; try done. by apply prefix_app_r.
Qed.

Lemma steps_prefix (ops : list op) :
  forall s,
    accepted s `prefix_of` accepted (steps ops s) /\
    rejected s `prefix_of` rejected (steps ops s) /\
    failed s `prefix_of` failed (steps ops s).
Proof.
  induction ops as [|o ops IH]; intros s; [done|].
  simpl. destruct (IH (step o s)) as (Ha & Hr & Hf).
  split; [|split].
  - etrans; [apply step_accepted_prefix|done].
  - etrans; [apply step_rejected_prefix|done].
  - etrans; [apply step_failed_prefix|done].
Qed.

Lemma reaches_prefix (s s' : feed) :
  reaches s s' ->
  accepted s `prefix_of` accepted s' /\
  rejected s `prefix_of` rejected s' /\
  failed s `prefix_of` failed s'.
Proof.
  intros (ops & _ & Ha & _ & Hr & Hf & _).
  rewrite <- Ha, <- Hr, <- Hf. apply steps_prefix.
Qed.

(** X16: classification is permanent. No call and no part of a run ever
    takes an entry out of [accepted], [rejected] or [failed]: after every
    sequence of operations, and at the end of [execute] followed by
    [terminate], each of these lists is the list it was, followed by the
    entries added since. *)
Theorem classification_is_permanent (manager : Manager.t) (s : feed) :
  (forall ops,
     accepted s `prefix_of` accepted (steps ops s) /\
     rejected s `prefix_of` rejected (steps ops s) /\
     failed s `prefix_of` failed (steps ops s)) /\
  (forall fuel s1 s2 r1 r2,
     Feed.execute manager fuel s = Some (s1, r1) ->
     Feed.terminate manager fuel s1 = Some (s2, r2) ->
     accepted s `prefix_of` accepted s1 /\
     rejected s `prefix_of` rejected s1 /\
     failed s `prefix_of` failed s1 /\
     accepted s1 `prefix_of` accepted s2 /\
     rejected s1 `prefix_of` rejected s2 /\
     failed s1 `prefix_of` failed s2).
Proof.
  split; [intros ops; apply steps_prefix|].
  intros fuel s1 s2 r1 r2 He Ht.
  apply execute_reaches, reaches_prefix in He as (H1 & H2 & H3).
  apply terminate_reaches, reaches_prefix in Ht as (H4 & H5 & H6).
  done.
Qed.

Lemma classification_is_permanent_witness :
  accepted demo_feed `prefix_of` accepted demo_after_execute /\
  rejected demo_feed `prefix_of` rejected demo_after_execute /\
  failed demo_feed `prefix_of` failed demo_after_execute /\
  accepted demo_after_execute `prefix_of` accepted demo_after_terminate /\
  rejected demo_after_execute `prefix_of` rejected demo_after_terminate /\
  failed demo_after_execute `prefix_of` failed demo_after_terminate.
Proof.
  apply (proj2 (classification_is_permanent demo_manager demo_feed)
           3 demo_after_execute demo_after_terminate None None).
  - by_run.
  - by_run.
Defined.

(** *** Rejected and failed entries do not outlive a module *)

Lemma clean_lists_eq (a b : feed) : lists_eq a b -> clean a -> clean b.
Proof.
  intros (He & _ & _ & Hr & Hf & _) Hc. unfold clean.
  rewrite <- He, <- Hr, <- Hf. exact Hc.
Qed.

Lemma clean_purge (sel not_in_list : list entry) (count : bool) (s : feed) :
  clean s -> clean (Feed.__purge sel not_in_list count s).1.
Proof.
  intros Hc x Hx. apply purge_subset in Hx.
  destruct (purge_same_lists sel not_in_list count s)
    as (_ & _ & Hr & Hf & _).
  rewrite Hr, Hf. by apply Hc.
Qed.

(** The two purges after a module leave no rejected and no failed entry
    when they return. *)
Lemma purges_clean (s5 s6 s7 : feed) :
  Feed.__purge_rejected s5 = (s6, None) ->
  Feed.__purge_failed s6 = (s7, None) ->
  clean s7.
Proof.
  unfold Feed.__purge_rejected, Feed.__purge_failed. intros H6 H7.
  pose proof (purge_returns (rejected s5) [] true s5) as He6.
  pose proof (purge_same_lists (rejected s5) [] true s5)
    as (_ & _ & Hr6 & Hf6 & _).
  rewrite H6 in He6, Hr6, Hf6. simpl in *.
  pose proof (purge_returns (failed s6) [] false s6) as He7.
  pose proof (purge_same_lists (failed s6) [] false s6)
    as (_ & _ & Hr7 & Hf7 & _).
  rewrite H7 in He7, Hr7, Hf7. simpl in *.
  intros x Hx. rewrite He7 in Hx by done.
  apply list_elem_of_filter in Hx as [Hnf Hx].
  rewrite He6 in Hx by done.
  apply list_elem_of_filter in Hx as [Hnr Hx].
  rewrite selected_nil in Hnf, Hnr.
  rewrite Hr7, Hf7, Hr6. done.
Qed.

Lemma run_modules_clean (manager : Manager.t)
    (rec : string -> feed -> option (feed * option pyerr))
    (event : string) (modules : list Plugin.t) :
  forall s s',
    Feed.run_modules manager rec event modules s = Some (s', None) ->
    clean s -> clean s'.
Proof.
  induction modules as [|module modules IH]; intros s s'; simpl.
  - by intros [= <-].
  - case_match; [|apply IH].
    destruct (Feed.run_module _ _ _ _) as [[s4 o]|]; [|done].
    destruct (Feed.handle _ _ _ _ _ _) as [[s5 [err|]]|]; [done| |done].
    destruct (Feed.__purge_rejected s5) as [s6 [err|]] eqn:H6; [done|].
    destruct (Feed.__purge_failed s6) as [s7 [err|]] eqn:H7; [done|].
    pose proof (purges_clean s5 s6 s7 H6 H7) as Hc.
    destruct (__abort s7).
    + by intros [= <-] _.
    + intros Hrest _. by apply (IH s7 s').
Qed.

Lemma run_event_clean (manager : Manager.t) (fuel : nat) (event : string)
    (s s' : feed) :
  Feed.__run_event manager fuel event s = Some (s', None) ->
  clean s -> clean s'.
Proof.
  destruct fuel as [|fuel]; [done|]. simpl. apply run_modules_clean.
Qed.

Lemma validate_loop_lists_eq (manager : Manager.t) (keywords : list string) :
  forall acc : feed * list string,
    lists_eq acc.1
      (foldl (fun acc keyword => Feed.validate_keyword manager keyword acc)
         acc keywords).1.
Proof.
  induction keywords as [|kw keywords IH]; intros acc; simpl;
    [apply lists_eq_refl|].
  eapply lists_eq_trans; [|apply IH].
  destruct acc as [s0 errs]. unfold Feed.validate_keyword.
  repeat case_match; simpl; by repeat split.
Qed.

Lemma log_errors_lists_eq (errors : list string) :
  forall s, lists_eq s (foldl (fun s error => log ERROR error s) s errors).
Proof.
  induction errors as [|x errors IH]; intros s; simpl;
    [apply lists_eq_refl|].
  eapply lists_eq_trans; [|apply IH]. by repeat split.
Qed.

Lemma log_not_executed_lists_eq (manager : Manager.t) (event : string)
    (s : feed) :
  lists_eq s (Feed.log_not_executed manager event s).
Proof.
  unfold Feed.log_not_executed.
  generalize (Manager.get_modules_by_event manager event). intros ms.
  revert s. induction ms as [|m ms IH]; intros s; simpl;
    [apply lists_eq_refl|].
  eapply lists_eq_trans; [|apply IH]. case_match; by repeat split.
Qed.

Lemma progress_lists_eq (manager : Manager.t) (event : string) (s : feed) :
  lists_eq s (Feed.progress manager event s).1.
Proof.
  unfold Feed.progress, Feed.verbose_progress.
  repeat case_match; simplify_eq; simpl; by repeat split.
Qed.

Lemma validate_clean (manager : Manager.t) (fuel : nat) (s s' : feed)
    (errors : list string) :
  Feed.validate manager fuel s = Some (s', errors, None) ->
  clean s -> clean s'.
Proof.
  unfold Feed.validate.
  pose proof (validate_loop_lists_eq manager (map_to_list (config s)).*1
                (s, [])) as Hloop.
  destruct (foldl _ _ _) as [s1 errs]. simpl in Hloop.
  destruct errs as [|e errs].
  - intros [= <- _] Hc. by eapply clean_lists_eq.
  - unfold Feed.abort.
    match goal with
    | |- context [Feed.__run_event manager fuel "abort" ?st] =>
        assert (lists_eq s st) as Hst;
        [|destruct (Feed.__run_event manager fuel "abort" st)
            as [[s4 r4]|] eqn:Hab; [|done]]
    end.
    { set (s2 := log CRITICAL _ s1).
      assert (lists_eq s s2) as H2.
      { eapply lists_eq_trans; [exact Hloop|by repeat split]. }
      eapply lists_eq_trans; [exact H2|].
      eapply lists_eq_trans; [apply (log_errors_lists_eq (e :: errs) s2)|].
      case_match; by repeat split. }
    intros [= <- _ ->] Hc. eapply run_event_clean; [exact Hab|].
    by eapply clean_lists_eq.
Qed.

Lemma run_events_clean (manager : Manager.t) (fuel : nat)
    (events : list string) :
  forall s s',
    Feed.run_events manager fuel events s = Some (s', None) ->
    clean s -> clean s'.
Proof.
  induction events as [|event events IH]; intros s s'; simpl.
  - by intros [= <-].
  - case_match.
    { intros Hrest Hc. apply (IH _ _ Hrest).
      eapply clean_lists_eq; [apply log_not_executed_lists_eq|done]. }
    destruct (Feed.__run_event manager fuel event s)
      as [[s1 [err|]]|] eqn:Hev; [done| |done].
    pose proof (clean_purge (filtered s1) (accepted s1) true s1) as Hp.
    fold (Feed._purge s1) in Hp.
    destruct (Feed._purge s1) as [s2 [err|]]; [done|]. simpl in Hp.
    pose proof (progress_lists_eq manager event s2) as Hpr.
    destruct (Feed.progress manager event s2) as [s3 [err|]]; [done|].
    simpl in Hpr.
    assert (clean s -> clean s3) as H3.
    { intros Hc. eapply clean_lists_eq; [exact Hpr|].
      apply Hp. by eapply run_event_clean. }
    destruct (__abort s3).
    + intros [= <-]. exact H3.
    + intros Hrest Hc. apply (IH _ _ Hrest). by apply H3.
Qed.

Lemma execute_clean (manager : Manager.t) (fuel : nat) (s s' : feed) :
  Feed.execute manager fuel s = Some (s', None) -> clean s -> clean s'.
Proof.
  unfold Feed.execute.
  destruct (Feed.validate manager fuel s) as [[[s1 errors] [err|]]|] eqn:Hv;
    [done| |done].
  pose proof (validate_clean manager fuel s s1 errors Hv) as H1.
  destruct (__abort s1); [by intros [= <-]|].
  case_match; [by intros [= <-]|].
  intros Hrun Hc. eapply run_events_clean; [exact Hrun|]. by apply H1.
Qed.

(** X17: rejected and failed entries do not outlive a module. When the
    dispatcher returns from an event without an exception, and so when
    [execute] or [terminate] does, no entry of [entries] is in
    [rejected] or in [failed], provided none was at the start (as in a
    new feed): the purges after every module have removed them. *)
Theorem rejected_and_failed_are_gone (manager : Manager.t) (fuel : nat)
    (s : feed) :
  clean s ->
  (forall event s',
     Feed.__run_event manager fuel event s = Some (s', None) -> clean s') /\
  (forall s1,
     Feed.execute manager fuel s = Some (s1, None) ->
     clean s1 /\
     forall s2,
       Feed.terminate manager fuel s1 = Some (s2, None) -> clean s2).
Proof.
  intros Hc. split.
  - intros event s' Hev. by eapply run_event_clean.
  - intros s1 He. assert (clean s1) as H1 by by eapply execute_clean.
    split; [done|]. intros s2. unfold Feed.terminate.
    case_match; [by intros [= <-]|].
    intros Hev. by eapply run_event_clean.
Qed.

Lemma init_clean (manager : Manager.t) (name : string)
    (config : gmap string cfgval) :
  clean (Feed.__init__ manager name config).
Proof. intros x Hx. by apply elem_of_nil in Hx. Qed.

Lemma rejected_and_failed_are_gone_witness :
  rejected (shop_after_execute no_options) = [entry_a] /\
  failed (shop_after_execute no_options) = [entry_b] /\
  clean (shop_after_execute no_options) /\
  clean (shop_after_terminate no_options).
Proof.
  split; [by_decide|]. split; [by_decide|].
  destruct (rejected_and_failed_are_gone (shop_manager no_options) 3
              (shop_feed no_options) (init_clean _ _ _)) as [_ Hrun].
  destruct (Hrun (shop_after_execute no_options)) as [H1 H2];
    [by_run|].
  split; [exact H1|]. apply H2. by_run.
Defined.

(** ** Which event methods a run calls *)

Lemma frame_refl (s : feed) : frame s s.
Proof. done. Qed.

Lemma frame_trans (s1 s2 s3 : feed) : frame s1 s2 -> frame s2 s3 -> frame s1 s3.
Proof. unfold frame. intros (?&?&?) (?&?&?). repeat split; congruence. Qed.

Lemma silent_refl (s : feed) : silent s s.
Proof. split; [apply quiet_refl|apply frame_refl]. Qed.

Lemma silent_trans (s1 s2 s3 : feed) :
  silent s1 s2 -> silent s2 s3 -> silent s1 s3.
Proof.
  intros [Hq1 Hf1] [Hq2 Hf2]. split.
  - by eapply quiet_trans.
  - by eapply frame_trans.
Qed.

Lemma silent_same (s s' : feed) :
  __abort s' = __abort s -> trace s' = trace s -> frame s s' -> silent s s'.
Proof. intros Ha Ht Hf. split; [by apply quiet_same|done]. Qed.

Lemma silent_log (lvl : level) (msg : string) (s : feed) :
  silent s (log lvl msg s).
Proof. split; [apply quiet_log|done]. Qed.

Lemma silent_accept (e : entry) (s : feed) : silent s (Feed.accept e s).1.
Proof.
  split; [apply quiet_accept|].
  unfold Feed.accept. repeat case_match; simpl; by repeat split.
Qed.

Lemma silent_filter (e : entry) (s : feed) : silent s (Feed.filter e s).1.
Proof.
  split; [apply quiet_filter|].
  unfold Feed.filter. repeat case_match; simpl; by repeat split.
Qed.

Lemma silent_reject (e : entry) (s : feed) : silent s (Feed.reject e s).1.
Proof.
  split; [apply quiet_reject|].
  unfold Feed.reject. repeat case_match; simpl; by repeat split.
Qed.

Lemma silent_fail (e : entry) (s : feed) : silent s (Feed.fail e s).1.
Proof.
  split; [apply quiet_fail|].
  unfold Feed.fail. repeat case_match; simpl; by repeat split.
Qed.

Lemma frame_purge_loop (copy sel not_in_list : list entry) (count : bool) :
  forall s, frame s (Feed.purge_loop copy sel not_in_list count s).1.
Proof.
  induction copy as [|e copy IH]; intros s; simpl; [apply frame_refl|].
  repeat case_match; simpl; try apply frame_refl; try (by repeat split);
    try apply IH.
  all: eapply frame_trans; [|apply IH]; by repeat split.
Qed.

Lemma silent_purge (sel not_in_list : list entry) (count : bool) (s : feed) :
  silent s (Feed.__purge sel not_in_list count s).1.
Proof. split; [apply quiet_purge|apply frame_purge_loop]. Qed.

Lemma silent_log_once (manager : Manager.t) (msg : string) (s : feed) :
  silent s (Feed.log_once manager msg s).1.
Proof.
  split; [apply quiet_log_once|].
  unfold Feed.log_once. repeat case_match; simpl; by repeat split.
Qed.

Lemma silent_progress (manager : Manager.t) (event : string) (s : feed) :
  silent s (Feed.progress manager event s).1.
Proof.
  split; [apply quiet_progress|].
  unfold Feed.progress, Feed.verbose_progress.
  repeat case_match; simplify_eq; simpl; by repeat split.
Qed.

Lemma silent_cache_call (c sc : ModuleCache.t) (s : feed) :
  silent s (set_caches c sc s).
Proof. by apply silent_same. Qed.

Lemma silent_validate_loop (manager : Manager.t) (keywords : list string) :
  forall acc : feed * list string,
    silent acc.1
      (foldl (fun acc keyword => Feed.validate_keyword manager keyword acc)
         acc keywords).1.
Proof.
  induction keywords as [|kw keywords IH]; intros acc; simpl;
    [apply silent_refl|].
  eapply silent_trans; [|apply IH].
  destruct acc as [s0 errs]. unfold Feed.validate_keyword.
  repeat case_match; simpl; try apply silent_refl; apply silent_log.
Qed.

Lemma silent_log_errors (errors : list string) :
  forall s, silent s (foldl (fun s error => log ERROR error s) s errors).
Proof.
  induction errors as [|e errors IH]; intros s; simpl; [apply silent_refl|].
  eapply silent_trans; [apply silent_log|apply IH].
Qed.

Lemma silent_log_not_executed (manager : Manager.t) (event : string)
    (s : feed) :
  silent s (Feed.log_not_executed manager event s).
Proof.
  unfold Feed.log_not_executed.
  generalize (Manager.get_modules_by_event manager event). intros ms.
  revert s. induction ms as [|m ms IH]; intros s; simpl;
    [apply silent_refl|].
  eapply silent_trans; [|apply IH].
  case_match; [apply silent_log|apply silent_refl].
Qed.

Lemma calling_mono (P P' : string -> string -> Prop) (s s' : feed) :
  (forall ev m, P ev m -> P' ev m) -> calling P s s' -> calling P' s s'.
Proof.
  intros HP [Hf (new & Ht & Hn)]. split; [done|].
  exists new. split; [done|]. intros ev m Hin. by apply HP, Hn.
Qed.

Lemma calling_trans (P : string -> string -> Prop) (s1 s2 s3 : feed) :
  calling P s1 s2 -> calling P s2 s3 -> calling P s1 s3.
Proof.
  intros [Hf1 (n1 & Ht1 & Hn1)] [Hf2 (n2 & Ht2 & Hn2)].
  split; [by eapply frame_trans|]. exists (n1 ++ n2).
  split; [by rewrite Ht2, Ht1, app_assoc|].
  intros ev m Hin. apply elem_of_app in Hin as [Hin|Hin]; auto.
Qed.

Lemma silent_calling (P : string -> string -> Prop) (s s' : feed) :
  silent s s' -> calling P s s'.
Proof.
  intros [[_ (new & Ht & Hl)] Hf]. split; [done|].
  exists new. split; [done|]. intros ev m Hin.
  rewrite Forall_forall in Hl. by apply Hl in Hin.
Qed.

Lemma calling_config (P : string -> string -> Prop) (s s' : feed) :
  calling P s s' -> config s' = config s.
Proof. by intros [(_ & Hc & _) _]. Qed.

Lemma calling_observe (P : string -> string -> Prop) (new : list observed)
    (s : feed) :
  (forall ev m, Invoked ev m ∈ new -> P ev m) -> calling P s (observe new s).
Proof. intros HP. split; [done|]. by exists new. Qed.

Lemma calling_refl (P : string -> string -> Prop) (s : feed) : calling P s s.
Proof. apply silent_calling, silent_refl. Qed.

Section Calls.

Variable manager : Manager.t.
Variable cfg : gmap string cfgval.
Variable rec : string -> feed -> option (feed * option pyerr).
Hypothesis rec_calls :
  forall s s' r,
    config s = cfg -> rec "abort" s = Some (s', r) ->
    calling (called_for manager cfg "abort") s s'.

Lemma abort_calls (quietly : bool) (s s' : feed) (r : option pyerr) :
  config s = cfg ->
  Feed.abort rec quietly s = Some (s', r) ->
  calling (called_for manager cfg "abort") s s'.
Proof.
  unfold Feed.abort. intros Hcfg Hrec.
  eapply calling_trans; [|eapply rec_calls; [|exact Hrec]].
  - case_match.
    + split; [done|]. exists [Logged INFO ("Aborting feed " ++ name s)%string].
      split; [done|]. intros ev m Hin.
      by apply list_elem_of_singleton in Hin.
    + split; [done|]. exists []. split; [by rewrite app_nil_r|].
      intros ev m Hin. by apply elem_of_nil in Hin.
  - by case_match.
Qed.

Lemma do_call_calls (c : api_call) (s s' : feed) (r : option pyerr) :
  config s = cfg ->
  Feed.do_call manager rec c s = Some (s', r) ->
  calling (called_for manager cfg "abort") s s'.
Proof.
  intros Hcfg. destruct c as [e|e|e|e|e| |quietly|[|] c]; simpl.
  - intros [= H]. apply silent_calling.
    pose proof (silent_accept e s) as Hq. by rewrite H in Hq.
  - intros [= H]. apply silent_calling.
    pose proof (silent_filter e s) as Hq. by rewrite H in Hq.
  - intros [= H]. apply silent_calling.
    pose proof (silent_reject e s) as Hq. by rewrite H in Hq.
  - intros [= H]. apply silent_calling.
    pose proof (silent_fail e s) as Hq. by rewrite H in Hq.
  - intros [= <- _]. by apply silent_calling, silent_same.
  - intros [= H]. apply silent_calling.
    pose proof (silent_purge (filtered s) (accepted s) true s) as Hq.
    unfold Feed._purge in H. by rewrite H in Hq.
  - by apply abort_calls.
  - destruct (Feed.run_cache_call manager c (shared_cache s)) as [mc r'].
    intros [= <- _]. by apply silent_calling, silent_same.
  - destruct (Feed.run_cache_call manager c (cache s)) as [mc r'].
    intros [= <- _]. by apply silent_calling, silent_same.
Qed.

Lemma run_module_calls (p : mprog) :
  forall (s s' : feed) (o : outcome),
    config s = cfg ->
    Feed.run_module manager rec p s = Some (s', o) ->
    calling (called_for manager cfg "abort") s s'.
Proof.
  induction p as [o|c k IH]; intros s s' o' Hcfg; simpl.
  - intros [= <- _]. apply calling_refl.
  - destruct (Feed.do_call manager rec c s) as [[s1 r]|] eqn:Hcall; [|done].
    intros Hrun. apply do_call_calls in Hcall; [|done].
    eapply calling_trans; [exact Hcall|].
    eapply IH; [|exact Hrun].
    rewrite <- Hcfg. by eapply calling_config.
Qed.

Lemma handle_calls (event keyword : string) (o : outcome) (s s' : feed)
    (r : option pyerr) :
  config s = cfg ->
  Feed.handle manager rec event keyword o s = Some (s', r) ->
  calling (called_for manager cfg "abort") s s'.
Proof.
  intros Hcfg. destruct o as [|[|] msg|err]; simpl.
  - intros [= <- _]. apply calling_refl.
  - intros [= H]. apply silent_calling.
    pose proof (silent_log_once manager msg s) as Hq. by rewrite H in Hq.
  - intros [= <- _]. apply silent_calling, silent_log.
  - intros Hab. apply abort_calls in Hab; [|done].
    eapply calling_trans; [|exact Hab].
    eapply calling_trans;
      [apply (calling_observe _ [Raised event keyword err])
      |apply silent_calling, silent_log].
    intros ev m Hin. by apply list_elem_of_singleton in Hin.
Qed.

Lemma abort_calls_event (event : string) (s s' : feed) :
  calling (called_for manager cfg "abort") s s' ->
  calling (called_for manager cfg event) s s'.
Proof.
  apply calling_mono. intros ev m [[->| ->] Hc]; split; auto.
Qed.

Lemma run_modules_calls (event : string) (modules : list Plugin.t) :
  (forall m, m ∈ modules ->
             m ∈ Manager.get_modules_by_event manager event) ->
  forall (s s' : feed) (r : option pyerr),
    config s = cfg ->
    Feed.run_modules manager rec event modules s = Some (s', r) ->
    calling (called_for manager cfg event) s s'.
Proof.
  induction modules as [|module modules IH]; intros Hin s s' r Hcfg; simpl.
  - intros [= <- _]. apply calling_refl.
  - assert (forall m, m ∈ modules ->
              m ∈ Manager.get_modules_by_event manager event) as Hin'.
    { intros m Hm. apply Hin. by right. }
    destruct (has_key (Plugin.name module) (config s)
              || Plugin.builtin module) eqn:Hen; [|by apply IH].
    set (keyword := Plugin.name module).
    set (s3 := observe [Invoked event keyword]
                 (set_current event keyword
                    (Feed.__set_namespace manager keyword s))).
    assert (calling (called_for manager cfg event) s s3) as H3.
    { split; [done|]. exists [Invoked event keyword]. split; [done|].
      intros ev m Hm. apply list_elem_of_singleton in Hm as [= -> ->].
      split; [by left|]. exists module. split; [apply Hin; by left|].
      split; [done|]. unfold enabled. by rewrite <- Hcfg. }
    assert (config s3 = cfg) as Hcfg3 by done.
    assert (forall s7,
              calling (called_for manager cfg "abort") s3 s7 ->
              calling (called_for manager cfg event) s s7) as Hround.
    { intros s7 H7. eapply calling_trans; [exact H3|].
      by apply abort_calls_event. }
    destruct (Feed.run_module manager rec (Plugin.instance module event s3) s3)
      as [[s4 o]|] eqn:Hrun; [|done].
    apply run_module_calls in Hrun; [|done].
    assert (config s4 = cfg) as Hcfg4.
    { rewrite <- Hcfg3. by eapply calling_config. }
    destruct (Feed.handle manager rec event keyword o s4)
      as [[s5 r5]|] eqn:Hh; [|done].
    apply handle_calls in Hh; [|done].
    assert (calling (called_for manager cfg "abort") s3 s5) as H5
      by by eapply calling_trans.
    destruct r5 as [err|]; [intros [= <- _]; by apply Hround|].
    pose proof (silent_purge (rejected s5) [] true s5) as H6.
    fold (Feed.__purge_rejected s5) in H6.
    destruct (Feed.__purge_rejected s5) as [s6 r6]. simpl in H6.
    apply (silent_calling (called_for manager cfg "abort")) in H6.
    assert (calling (called_for manager cfg "abort") s3 s6) as H6'
      by by eapply calling_trans.
    destruct r6 as [err|]; [intros [= <- _]; by apply Hround|].
    pose proof (silent_purge (failed s6) [] false s6) as H7.
    fold (Feed.__purge_failed s6) in H7.
    destruct (Feed.__purge_failed s6) as [s7 r7]. simpl in H7.
    apply (silent_calling (called_for manager cfg "abort")) in H7.
    assert (calling (called_for manager cfg "abort") s3 s7) as H7'
      by by eapply calling_trans.
    destruct r7 as [err|]; [intros [= <- _]; by apply Hround|].
    destruct (__abort s7); [intros [= <- _]; by apply Hround|].
    intros Hrest. eapply calling_trans; [by apply Hround|].
    eapply IH; [done| |exact Hrest].
    rewrite <- Hcfg. by eapply calling_config, Hround.
Qed.

End Calls.

Lemma run_event_calls (manager : Manager.t) (cfg : gmap string cfgval)
    (fuel : nat) :
  forall (event : string) (s s' : feed) (r : option pyerr),
    config s = cfg ->
    Feed.__run_event manager fuel event s = Some (s', r) ->
    calling (called_for manager cfg event) s s'.
Proof.
  induction fuel as [|fuel IH]; intros event s s' r Hcfg; simpl; [done|].
  apply run_modules_calls; [|intros m Hm|done].
  - intros s1 s1' r1. apply IH.
  - by rewrite dispatch_order_perm in Hm.
Qed.

(** ** The calls of [execute] and [terminate] *)

Lemma validate_calls (manager : Manager.t) (cfg : gmap string cfgval)
    (fuel : nat) (s s' : feed) (errors : list string) (r : option pyerr) :
  config s = cfg ->
  Feed.validate manager fuel s = Some (s', errors, r) ->
  calling (called_for manager cfg "abort") s s'.
Proof.
  intros Hcfg. unfold Feed.validate.
  pose proof (silent_validate_loop manager (map_to_list (config s)).*1 (s, []))
    as Hloop.
  destruct (foldl _ _ _) as [s1 errs]. simpl in Hloop.
  destruct errs as [|e errs].
  - intros [= <- _ _]. by apply silent_calling.
  - set (s2 := log CRITICAL _ s1).
    set (s3 := foldl _ s2 (e :: errs)).
    assert (silent s s3) as H3.
    { eapply silent_trans; [exact Hloop|].
      eapply silent_trans; [apply silent_log|].
      apply (silent_log_errors (e :: errs)). }
    destruct (Feed.abort _ _ _) as [[s4 r4]|] eqn:Hab; [|done].
    intros [= <- _ _].
    eapply calling_trans; [by apply silent_calling|].
    eapply (abort_calls manager cfg); [|  |exact Hab].
    + intros s0 s0' r0. apply run_event_calls.
    + destruct H3 as [_ (_ & Hc & _)]. congruence.
Qed.

Lemma validate_flag (manager : Manager.t) (fuel : nat) (s s' : feed)
    (errors : list string) (r : option pyerr) :
  Feed.validate manager fuel s = Some (s', errors, r) ->
  errors <> [] -> __abort s' = true.
Proof.
  unfold Feed.validate. destruct (foldl _ _ _) as [s1 errs].
  destruct errs as [|e errs]; [by intros [= _ <- _]|].
  destruct (Feed.abort _ _ _) as [[s4 r4]|] eqn:Hab; [|done].
  intros [= <- _ _] _.
  apply abort_ok in Hab as [_ Hflag]; [done|].
  intros s0 s0' r0. apply run_event_aborting.
Qed.

(** Without errors, validation only logs. *)
Lemma validate_silent (manager : Manager.t) (fuel : nat) (s s' : feed)
    (r : option pyerr) :
  Feed.validate manager fuel s = Some (s', [], r) ->
  silent s s' /\ lists_eq s s' /\ r = None.
Proof.
  unfold Feed.validate.
  pose proof (silent_validate_loop manager (map_to_list (config s)).*1 (s, []))
    as Hloop.
  pose proof (validate_loop_lists_eq manager (map_to_list (config s)).*1
                (s, [])) as Hlists.
  destruct (foldl _ _ _) as [s1 errs]. simpl in Hloop, Hlists.
  destruct errs as [|e errs]; [by intros [= <- <-]|].
  destruct (Feed.abort _ _ _) as [[s4 r4]|]; [|done].
  by intros [= _ ? _].
Qed.

Lemma run_events_calls (manager : Manager.t) (cfg : gmap string cfgval)
    (fuel : nat) (all : list string) (events : list string) :
  (forall ev, ev ∈ events -> ev ∈ all) ->
  forall (s s' : feed) (r : option pyerr),
    config s = cfg ->
    Feed.run_events manager fuel events s = Some (s', r) ->
    calling (fun ev m =>
               (ev = "abort" \/ (ev ∈ all /\ skipped manager ev = false)) /\
               callable manager cfg ev m) s s'.
Proof.
  induction events as [|event events IH]; intros Hall s s' r Hcfg; simpl.
  - intros [= <- _]. apply calling_refl.
  - assert (forall ev, ev ∈ events -> ev ∈ all) as Hall'.
    { intros ev Hev. apply Hall. by right. }
    destruct (Manager.learn (Manager.opts manager) &&
              (String.eqb event "download" || String.eqb event "output"))
      eqn:Hskip.
    { intros Hrest.
      pose proof (silent_log_not_executed manager event s) as Hl.
      eapply calling_trans; [by apply silent_calling|].
      eapply IH; [done| |exact Hrest].
      destruct Hl as [_ (_ & Hc & _)]. congruence. }
    destruct (Feed.__run_event manager fuel event s)
      as [[s1 r1]|] eqn:Hev; [|done].
    apply (run_event_calls manager cfg) in Hev; [|done].
    assert (calling (fun ev m =>
                       (ev = "abort" \/
                        (ev ∈ all /\ skipped manager ev = false)) /\
                       callable manager cfg ev m) s s1) as H1.
    { eapply calling_mono; [|exact Hev].
      intros ev m [[->| ->] Hc]; split; auto.
      right. split; [apply Hall; by left|done]. }
    destruct r1 as [err|]; [by intros [= <- _]|].
    pose proof (silent_purge (filtered s1) (accepted s1) true s1) as H2.
    fold (Feed._purge s1) in H2.
    destruct (Feed._purge s1) as [s2 r2]. simpl in H2.
    assert (calling (fun ev m =>
                       (ev = "abort" \/
                        (ev ∈ all /\ skipped manager ev = false)) /\
                       callable manager cfg ev m) s s2) as H2'.
    { eapply calling_trans; [exact H1|]. by apply silent_calling. }
    destruct r2 as [err|]; [by intros [= <- _]|].
    pose proof (silent_progress manager event s2) as H3.
    destruct (Feed.progress manager event s2) as [s3 r3]. simpl in H3.
    assert (calling (fun ev m =>
                       (ev = "abort" \/
                        (ev ∈ all /\ skipped manager ev = false)) /\
                       callable manager cfg ev m) s s3) as H3'.
    { eapply calling_trans; [exact H2'|]. by apply silent_calling. }
    destruct r3 as [err|]; [by intros [= <- _]|].
    destruct (__abort s3); [by intros [= <- _]|].
    intros Hrest. eapply calling_trans; [exact H3'|].
    eapply IH; [done| |exact Hrest].
    rewrite <- Hcfg. by eapply calling_config.
Qed.

Lemma execute_calls (manager : Manager.t) (fuel : nat) (s s' : feed)
    (r : option pyerr) :
  Feed.execute manager fuel s = Some (s', r) ->
  calling (fun ev m =>
             (ev = "abort" \/
              (ev ∈ Manager.events manager /\ skipped manager ev = false)) /\
             callable manager (config s) ev m) s s'.
Proof.
  unfold Feed.execute.
  destruct (Feed.validate manager fuel s) as [[[s1 errors] r0]|] eqn:Hv;
    [|done].
  apply (validate_calls manager (config s)) in Hv; [|done].
  assert (calling (fun ev m =>
                     (ev = "abort" \/
                      (ev ∈ Manager.events manager /\
                       skipped manager ev = false)) /\
                     callable manager (config s) ev m) s s1) as H1.
  { eapply calling_mono; [|exact Hv].
    intros ev m [[->| ->] Hc]; split; auto. }
  destruct r0 as [err|]; [by intros [= <- _]|].
  destruct (__abort s1); [by intros [= <- _]|].
  case_match; [by intros [= <- _]|].
  intros Hrun. eapply calling_trans; [exact H1|].
  eapply run_events_calls; [done| |exact Hrun].
  by eapply calling_config.
Qed.

Lemma terminate_calls (manager : Manager.t) (fuel : nat) (s s' : feed)
    (r : option pyerr) :
  Feed.terminate manager fuel s = Some (s', r) ->
  calling (called_for manager (config s) "terminate") s s'.
Proof.
  unfold Feed.terminate. case_match.
  - intros [= <- _]. apply calling_refl.
  - by apply run_event_calls.
Qed.

(** X18: only modules that are configured or built in are ever called,
    and only for the events of the run. Every call of an event method
    during [execute] is for one of the manager's events or for the abort
    event, every call during [terminate] is for the terminate event or
    the abort event, and each is the method of a module that the
    registry lists for that event and that is built in or has its
    keyword in the feed's configuration; the run leaves the feed's name
    and configuration as they were. *)
Theorem only_enabled_modules_are_called (manager : Manager.t) (fuel : nat)
    (s s1 s2 : feed) (r1 r2 : option pyerr) :
  Feed.execute manager fuel s = Some (s1, r1) ->
  Feed.terminate manager fuel s1 = Some (s2, r2) ->
  name s2 = name s /\ config s2 = config s /\
  exists new1 new2,
    trace s1 = trace s ++ new1 /\ trace s2 = trace s1 ++ new2 /\
    (forall ev m,
       Invoked ev m ∈ new1 ->
       (ev = "abort" \/ ev ∈ Manager.events manager) /\
       callable manager (config s) ev m) /\
    (forall ev m,
       Invoked ev m ∈ new2 ->
       (ev = "abort" \/ ev = "terminate") /\
       callable manager (config s) ev m).
Proof.
  intros He Ht.
  apply execute_calls in He as [(Hn1 & Hc1 & _) (new1 & Ht1 & Hp1)].
  apply terminate_calls in Ht as [(Hn2 & Hc2 & _) (new2 & Ht2 & Hp2)].
  split; [congruence|]. split; [congruence|].
  exists new1, new2. split; [done|]. split; [done|]. split.
  - intros ev m Hin. destruct (Hp1 ev m Hin) as [[->|[Hev _]] Hc]; auto.
  - intros ev m Hin. rewrite Hc1 in Hp2.
    destruct (Hp2 ev m Hin) as [[->| ->] Hc]; auto.
Qed.

Lemma only_enabled_modules_are_called_witness :
  name demo_after_terminate = name demo_feed /\
  config demo_after_terminate = config demo_feed /\
  exists new1 new2,
    trace demo_after_execute = trace demo_feed ++ new1 /\
    trace demo_after_terminate = trace demo_after_execute ++ new2 /\
    (forall ev m,
       Invoked ev m ∈ new1 ->
       (ev = "abort" \/ ev ∈ Manager.events demo_manager) /\
       callable demo_manager (config demo_feed) ev m) /\
    (forall ev m,
       Invoked ev m ∈ new2 ->
       (ev = "abort" \/ ev = "terminate") /\
       callable demo_manager (config demo_feed) ev m).
Proof.
  apply (only_enabled_modules_are_called demo_manager 3 demo_feed
           demo_after_execute demo_after_terminate None None).
  - by_run.
  - by_run.
Defined.

Lemma log_not_executed_trace (manager : Manager.t) (event : string) :
  forall s,
    trace (Feed.log_not_executed manager event s)
    = trace s ++
        map (fun m => Logged INFO (not_executed_msg (name s) (Plugin.name m)))
          (filter (fun m => has_key (Plugin.name m) (config s) = true)
             (Manager.get_modules_by_event manager event)).
Proof.
  unfold Feed.log_not_executed.
  generalize (Manager.get_modules_by_event manager event). intros ms.
  induction ms as [|m ms IH]; intros s; simpl; [by rewrite app_nil_r|].
  rewrite filter_cons.
  destruct (has_key (Plugin.name m) (config s)) eqn:Hk.
  - rewrite decide_True; [|done]. rewrite IH. simpl.
    by rewrite <- app_assoc.
  - rewrite decide_False; [|congruence]. by rewrite IH.
Qed.

(** X19: when learning, [execute] calls no method of the download and
    output events. The loop over the events passes such an event by,
    logging one message for each of the event's modules whose keyword is
    in the configuration, in the registry's order. *)
Theorem learn_skips_download_and_output (manager : Manager.t) (fuel : nat)
    (s s1 : feed) (r1 : option pyerr) :
  Manager.learn (Manager.opts manager) = true ->
  Feed.execute manager fuel s = Some (s1, r1) ->
  (exists new,
     trace s1 = trace s ++ new /\
     forall ev m, Invoked ev m ∈ new -> ev <> "download" /\ ev <> "output") /\
  (forall ev events st,
     ev = "download" \/ ev = "output" ->
     Feed.run_events manager fuel (ev :: events) st
     = Feed.run_events manager fuel events
         (Feed.log_not_executed manager ev st) /\
     trace (Feed.log_not_executed manager ev st)
     = trace st ++
         map (fun m =>
                Logged INFO (not_executed_msg (name st) (Plugin.name m)))
           (filter (fun m => has_key (Plugin.name m) (config st) = true)
              (Manager.get_modules_by_event manager ev))).
Proof.
  intros Hlearn He. split.
  - apply execute_calls in He as [_ (new & Ht & Hp)].
    exists new. split; [done|]. intros ev m Hin.
    destruct (Hp ev m Hin) as [[->|[_ Hskip]] _]; [done|].
    unfold skipped in Hskip. rewrite Hlearn in Hskip. simpl in Hskip.
    apply orb_false_iff in Hskip as [H1 H2].
    apply String.eqb_neq in H1, H2. done.
  - intros ev events st Hev. split; [|apply log_not_executed_trace].
    cbn [Feed.run_events]. rewrite Hlearn.
    by destruct Hev as [-> | ->].
Qed.

Lemma learn_skips_download_and_output_witness :
  (exists new,
     trace (shop_after_execute learn_options)
     = trace (shop_feed learn_options) ++ new /\
     forall ev m, Invoked ev m ∈ new -> ev <> "download" /\ ev <> "output") /\
  Logged INFO (not_executed_msg "shop" "download")
    ∈ trace (shop_after_execute learn_options).
Proof.
  split.
  - apply (learn_skips_download_and_output (shop_manager learn_options) 3
             (shop_feed learn_options) (shop_after_execute learn_options)
             None eq_refl).
    by_run.
  - by_decide.
Defined.

(** ** Validation *)

Lemma aborting_trace (s s' : feed) :
  aborting s s' ->
  exists new, trace s' = trace s ++ new /\ abort_only new.
Proof. intros (new & (Ht & _) & Hab). by exists new. Qed.

(** With the validate option, [execute] ends after the validation. *)
Lemma execute_validating (manager : Manager.t) (fuel : nat) (s s1 : feed)
    (r1 : option pyerr) :
  Manager.validate (Manager.opts manager) = true ->
  Feed.execute manager fuel s = Some (s1, r1) ->
  exists errors r0,
    Feed.validate manager fuel s = Some (s1, errors, r0).
Proof.
  intros Hopt. unfold Feed.execute.
  destruct (Feed.validate manager fuel s) as [[[s0 errors] r0]|] eqn:Hv;
    [|done].
  destruct r0 as [err|]; [intros [= <- _]; by eauto|].
  destruct (__abort s0) eqn:Hflag; [intros [= <- _]; by eauto|].
  rewrite Hopt. simpl.
  destruct errors as [|e errors]; [intros [= <- _]; by eauto|].
  simpl. by rewrite (validate_flag _ _ _ _ _ _ Hv) in Hflag.
Qed.

(** X20: with the validate option, [execute] runs no event: it calls
    nothing but methods of the abort event (which it does when the
    validation finds errors), and when it ends without the abort flag it
    has only logged and has left every list as it was. *)
Theorem validate_option_runs_no_event (manager : Manager.t) (fuel : nat)
    (s s1 : feed) (r1 : option pyerr) :
  Manager.validate (Manager.opts manager) = true ->
  Feed.execute manager fuel s = Some (s1, r1) ->
  exists new,
    trace s1 = trace s ++ new /\
    (forall ev m, Invoked ev m ∈ new -> ev = "abort") /\
    (__abort s1 = false -> Forall is_log new /\ lists_eq s s1).
Proof.
  intros Hopt He.
  destruct (execute_validating manager fuel s s1 r1 Hopt He)
    as (errors & r0 & Hv).
  destruct (aborting_trace s s1 (validate_ok manager fuel s s1 errors r0 Hv))
    as (new & Ht & Hab).
  exists new. split; [done|]. split; [done|]. intros Hflag.
  destruct errors as [|e errors].
  - apply validate_silent in Hv as ([[_ (new' & Ht' & Hl)] _] & Hlists & _).
    rewrite Ht in Ht'. by apply app_inv_head in Ht' as ->.
  - by rewrite (validate_flag _ _ _ _ _ _ Hv) in Hflag.
Qed.

Lemma validate_option_runs_no_event_witness :
  exists new,
    trace (shop_after_execute validate_options)
    = trace (shop_feed validate_options) ++ new /\
    (forall ev m, Invoked ev m ∈ new -> ev = "abort") /\
    (__abort (shop_after_execute validate_options) = false ->
     Forall is_log new /\
     lists_eq (shop_feed validate_options)
       (shop_after_execute validate_options)).
Proof.
  apply (validate_option_runs_no_event (shop_manager validate_options) 3
           (shop_feed validate_options) (shop_after_execute validate_options)
           None eq_refl).
  by_run.
Defined.

(** The errors found so far stay in the list. *)
Lemma validate_keyword_keeps (manager : Manager.t) (kw : string)
    (acc : feed * list string) (msg : string) :
  msg ∈ acc.2 -> msg ∈ (Feed.validate_keyword manager kw acc).2.
Proof.
  destruct acc as [s errs]. unfold Feed.validate_keyword. simpl.
  intros Hin. repeat case_match; simpl; try done;
    apply elem_of_app; by left.
Qed.

Lemma validate_loop_keeps (manager : Manager.t) (keywords : list string)
    (msg : string) :
  forall acc : feed * list string,
    msg ∈ acc.2 ->
    msg ∈ (foldl (fun acc keyword =>
                    Feed.validate_keyword manager keyword acc)
             acc keywords).2.
Proof.
  induction keywords as [|kw keywords IH]; intros acc Hin; [done|].
  simpl. by apply IH, validate_keyword_keeps.
Qed.

Lemma validate_loop_unknown (manager : Manager.t) (keywords : list string)
    (kw : string) :
  kw ∈ keywords -> Manager.modules manager !! kw = None ->
  forall acc : feed * list string,
    ("Unknown keyword '" ++ kw ++ "'")%string
      ∈ (foldl (fun acc keyword =>
                  Feed.validate_keyword manager keyword acc)
           acc keywords).2.
Proof.
  intros Hin Hnone.
  induction keywords as [|k keywords IH]; intros acc;
    [by apply elem_of_nil in Hin|].
  simpl. apply elem_of_cons in Hin as [<-|Hin]; [|by apply IH].
  apply validate_loop_keeps. destruct acc as [s errs].
  unfold Feed.validate_keyword. rewrite Hnone. simpl.
  apply elem_of_app. right. by left.
Qed.

Lemma log_errors_trace (errors : list string) :
  forall s,
    trace (foldl (fun s error => log ERROR error s) s errors)
    = trace s ++ map (Logged ERROR) errors.
Proof.
  induction errors as [|e errors IH]; intros s; simpl;
    [by rewrite app_nil_r|].
  rewrite IH. simpl. by rewrite <- app_assoc.
Qed.

(** What [validate] logs when it finds errors *)
Lemma validate_errors_logged (manager : Manager.t) (fuel : nat)
    (s s' : feed) (errors : list string) (r : option pyerr) :
  Feed.validate manager fuel s = Some (s', errors, r) ->
  errors
  = (foldl (fun acc keyword => Feed.validate_keyword manager keyword acc)
       (s, []) (map_to_list (config s)).*1).2 /\
  (errors <> [] ->
   exists pre post,
     trace s'
     = trace s ++ pre ++
         Logged CRITICAL
           ("Feed '" ++ name s ++ "' has configuration errors:")%string
         :: map (Logged ERROR) errors ++ post).
Proof.
  unfold Feed.validate.
  pose proof (silent_validate_loop manager (map_to_list (config s)).*1 (s, []))
    as Hloop.
  destruct (foldl _ _ _) as [s1 errs]. simpl in Hloop.
  destruct Hloop as [[_ (pre & Hpre & _)] (Hname & _)].
  destruct errs as [|e errs]; [by intros [= _ <- _]|].
  destruct (Feed.abort _ _ _) as [[s4 r4]|] eqn:Hab; [|done].
  intros [= <- <- _]. split; [done|]. intros _.
  apply abort_ok in Hab as [Hab _];
    [|intros s0 s0' r0; apply run_event_aborting].
  destruct (aborting_trace _ _ Hab) as (post & Hpost & _).
  exists pre, post. rewrite Hpost.
  rewrite (log_errors_trace (e :: errs)). simpl.
  rewrite Hpre, Hname. by rewrite <- !app_assoc.
Qed.

(** X21: a keyword of the configuration that no module has aborts the
    feed before any event runs: [execute] logs that the feed has
    configuration errors and the error for the keyword, sets the abort
    flag, and calls nothing but methods of the abort event. *)
Theorem unknown_keyword_aborts (manager : Manager.t) (fuel : nat)
    (s s1 : feed) (r1 : option pyerr) (kw : string) :
  is_Some (config s !! kw) ->
  Manager.modules manager !! kw = None ->
  Feed.execute manager fuel s = Some (s1, r1) ->
  __abort s1 = true /\
  exists new,
    trace s1 = trace s ++ new /\
    (forall ev m, Invoked ev m ∈ new -> ev = "abort") /\
    Logged CRITICAL ("Feed '" ++ name s ++ "' has configuration errors:")%string
      ∈ new /\
    Logged ERROR ("Unknown keyword '" ++ kw ++ "'")%string ∈ new.
Proof.
  intros [c Hc] Hnone He.
  assert (exists errors r0,
            Feed.validate manager fuel s = Some (s1, errors, r0) /\
            ("Unknown keyword '" ++ kw ++ "'")%string ∈ errors)
    as (errors & r0 & Hv & Hin).
  { unfold Feed.execute in He.
    destruct (Feed.validate manager fuel s) as [[[s0 errors] r0]|] eqn:Hv;
      [|done].
    assert (("Unknown keyword '" ++ kw ++ "'")%string ∈ errors) as Hin.
    { destruct (validate_errors_logged _ _ _ _ _ _ Hv) as [-> _].
      apply validate_loop_unknown; [|done].
      apply list_elem_of_fmap. exists (kw, c). split; [done|].
      by apply elem_of_map_to_list. }
    assert (__abort s0 = true) as Hflag.
    { apply (validate_flag _ _ _ _ _ _ Hv). intros ->.
      by apply elem_of_nil in Hin. }
    destruct r0 as [err|]; [injection He as <- _; by eauto|].
    rewrite Hflag in He. injection He as <- _. by eauto. }
  assert (errors <> []) as Hne.
  { intros ->. by apply elem_of_nil in Hin. }
  split; [by apply (validate_flag _ _ _ _ _ _ Hv)|].
  destruct (aborting_trace s s1 (validate_ok manager fuel s s1 errors r0 Hv))
    as (new & Ht & Hab).
  exists new. split; [done|]. split; [done|].
  destruct (validate_errors_logged _ _ _ _ _ _ Hv) as [_ Hlog].
  destruct (Hlog Hne) as (pre & post & Ht').
  rewrite Ht in Ht'. apply app_inv_head in Ht' as ->. split.
  - apply elem_of_app. right. by left.
  - apply elem_of_app. right. right. apply elem_of_app. left.
    by apply list_elem_of_fmap_2.
Qed.

Lemma unknown_keyword_aborts_witness :
  __abort typo_after_execute = true /\
  exists new,
    trace typo_after_execute = trace typo_feed ++ new /\
    (forall ev m, Invoked ev m ∈ new -> ev = "abort") /\
    Logged CRITICAL "Feed 'typo' has configuration errors:" ∈ new /\
    Logged ERROR "Unknown keyword 'rsss'" ∈ new.
Proof.
  apply (unknown_keyword_aborts (shop_manager no_options) 3 typo_feed
           typo_after_execute None "rsss").
  - vm_compute. by eexists.
  - vm_compute. reflexivity.
  - by_run.
Defined.

(** ** Returning from a run *)

(** More fuel changes no result. *)
Section MoreFuel.

Variable manager : Manager.t.
Variables rec rec' : string -> feed -> option (feed * option pyerr).
Hypothesis rec_le :
  forall s x, rec "abort" s = Some x -> rec' "abort" s = Some x.

Lemma do_call_le (c : api_call) (s : feed) (x : feed * option pyerr) :
  Feed.do_call manager rec c s = Some x ->
  Feed.do_call manager rec' c s = Some x.
Proof.
  destruct c as [e|e|e|e|e| |quietly|[|] c]; simpl; try done.
  unfold Feed.abort. apply rec_le.
Qed.

Lemma run_module_le (p : mprog) :
  forall s x,
    Feed.run_module manager rec p s = Some x ->
    Feed.run_module manager rec' p s = Some x.
Proof.
  induction p as [o|c k IH]; intros s x; simpl; [done|].
  destruct (Feed.do_call manager rec c s) as [[s1 r]|] eqn:Hc; [|done].
  rewrite (do_call_le _ _ _ Hc). apply IH.
Qed.

Lemma handle_le (event keyword : string) (o : outcome) (s : feed)
    (x : feed * option pyerr) :
  Feed.handle manager rec event keyword o s = Some x ->
  Feed.handle manager rec' event keyword o s = Some x.
Proof.
  destruct o as [|[|] msg|err]; simpl; try done.
  unfold Feed.abort. apply rec_le.
Qed.

Lemma run_modules_le (event : string) (modules : list Plugin.t) :
  forall s x,
    Feed.run_modules manager rec event modules s = Some x ->
    Feed.run_modules manager rec' event modules s = Some x.
Proof.
  induction modules as [|m modules IH]; intros s x; simpl; [done|].
  case_match; [|apply IH].
  destruct (Feed.run_module manager rec _ _) as [[s4 o]|] eqn:Hrun;
    [|done].
  rewrite (run_module_le _ _ _ Hrun).
  destruct (Feed.handle manager rec _ _ _ _) as [[s5 r5]|] eqn:Hh;
    [|done].
  rewrite (handle_le _ _ _ _ _ Hh).
  repeat case_match; try done. apply IH.
Qed.

End MoreFuel.

Lemma run_event_S (manager : Manager.t) (fuel : nat) :
  forall event s x,
    Feed.__run_event manager fuel event s = Some x ->
    Feed.__run_event manager (S fuel) event s = Some x.
Proof.
  induction fuel as [|fuel IH]; intros event s x; [done|].
  intros H. cbn [Feed.__run_event] in *.
  eapply run_modules_le; [|exact H].
  intros s0 x0. apply IH.
Qed.

Lemma run_event_more (manager : Manager.t) (fuel fuel' : nat)
    (event : string) (s : feed) (x : feed * option pyerr) :
  fuel <= fuel' ->
  Feed.__run_event manager fuel event s = Some x ->
  Feed.__run_event manager fuel' event s = Some x.
Proof.
  induction 1 as [|fuel' Hle IH]; [done|].
  intros H. by apply run_event_S, IH.
Qed.

Lemma validate_more (manager : Manager.t) (fuel fuel' : nat) (s : feed)
    (x : feed * list string * option pyerr) :
  fuel <= fuel' ->
  Feed.validate manager fuel s = Some x ->
  Feed.validate manager fuel' s = Some x.
Proof.
  intros Hle. unfold Feed.validate. destruct (foldl _ _ _) as [s1 errs].
  destruct errs as [|e errs]; [done|].
  unfold Feed.abort.
  destruct (Feed.__run_event manager fuel "abort" _) as [[s4 r4]|] eqn:Hab;
    [|done].
  by rewrite (run_event_more _ _ _ _ _ _ Hle Hab).
Qed.

Lemma run_events_more (manager : Manager.t) (fuel fuel' : nat)
    (events : list string) :
  fuel <= fuel' ->
  forall s x,
    Feed.run_events manager fuel events s = Some x ->
    Feed.run_events manager fuel' events s = Some x.
Proof.
  intros Hle. induction events as [|event events IH]; intros s x; simpl;
    [done|].
  case_match; [apply IH|].
  destruct (Feed.__run_event manager fuel event s) as [[s1 r1]|] eqn:Hev;
    [|done].
  rewrite (run_event_more _ _ _ _ _ _ Hle Hev).
  repeat case_match; try done. apply IH.
Qed.

Lemma execute_more (manager : Manager.t) (fuel fuel' : nat) (s : feed)
    (x : feed * option pyerr) :
  fuel <= fuel' ->
  Feed.execute manager fuel s = Some x ->
  Feed.execute manager fuel' s = Some x.
Proof.
  intros Hle. unfold Feed.execute.
  destruct (Feed.validate manager fuel s) as [[[s1 errors] r]|] eqn:Hv;
    [|done].
  rewrite (validate_more _ _ _ _ _ Hle Hv).
  repeat case_match; try done. by apply run_events_more.
Qed.

Lemma terminate_more (manager : Manager.t) (fuel fuel' : nat) (s : feed)
    (x : feed * option pyerr) :
  fuel <= fuel' ->
  Feed.terminate manager fuel s = Some x ->
  Feed.terminate manager fuel' s = Some x.
Proof.
  intros Hle. unfold Feed.terminate. case_match; [done|].
  by apply run_event_more.
Qed.

(** X22: a run returns, and its result does not depend on the bound on
    the nested calls of the dispatcher. A result of [execute] or
    [terminate] obtained under one bound is the result under every
    larger one. When the modules of the abort event neither call [abort]
    nor end in an exception other than a warning, [execute] followed by
    [terminate] returns, with one and the same result for every bound
    from 2 on. *)
Theorem run_returns_whatever_the_bound (manager : Manager.t) (s : feed) :
  (forall fuel fuel' x,
     fuel <= fuel' ->
     (Feed.execute manager fuel s = Some x ->
      Feed.execute manager fuel' s = Some x) /\
     (Feed.terminate manager fuel s = Some x ->
      Feed.terminate manager fuel' s = Some x)) /\
  ((forall m st,
      m ∈ Manager.get_modules_by_event manager "abort" ->
      calm (Plugin.instance m "abort" st)) ->
   exists s1 r1 s2 r2,
     forall fuel,
       2 <= fuel ->
       Feed.execute manager fuel s = Some (s1, r1) /\
       Feed.terminate manager fuel s1 = Some (s2, r2)).
Proof.
  split.
  - intros fuel fuel' x Hle. split.
    + by apply execute_more.
    + by apply terminate_more.
  - intros Hcalm.
    destruct (run_returns manager Hcalm 0 s) as (s1 & r1 & He & [[s2 r2] Ht]).
    exists s1, r1, s2, r2. intros fuel Hle. split.
    + by eapply execute_more.
    + by eapply terminate_more.
Qed.

Lemma calm_returned (c : api_call) :
  (forall quietly, c <> CallAbort quietly) ->
  calm (Call c (fun _ _ => Finish Returned)).
Proof. intros Hc. split; [done|]. intros r s err. done. Qed.

Lemma run_returns_whatever_the_bound_witness :
  exists s1 r1 s2 r2,
    forall fuel,
      2 <= fuel ->
      Feed.execute demo_manager fuel demo_feed = Some (s1, r1) /\
      Feed.terminate demo_manager fuel s1 = Some (s2, r2).
Proof.
  apply (proj2 (run_returns_whatever_the_bound demo_manager demo_feed)).
  intros m st Hm. apply list_elem_of_singleton in Hm as ->.
  intros err. done.
Defined.

(** ** Modules that neither abort nor fail *)

Lemma invocations_app (a b : list observed) :
  invocations (a ++ b) = invocations a ++ invocations b.
Proof. unfold invocations. apply omap_app. Qed.

Lemma invocations_logs (new : list observed) :
  Forall is_log new -> invocations new = [].
Proof.
  induction 1 as [|o new Ho Hnew IH]; [done|].
  destruct o; try done.
Qed.

Lemma do_call_silent (manager : Manager.t)
    (rec : string -> feed -> option (feed * option pyerr))
    (c : api_call) (s : feed) :
  (forall quietly, c <> CallAbort quietly) ->
  exists s1 r, Feed.do_call manager rec c s = Some (s1, r) /\ silent s s1.
Proof.
  intros Hc. destruct c as [e|e|e|e|e| |quietly|[|] c]; simpl.
  - pose proof (silent_accept e s) as Hq.
    destruct (Feed.accept e s) as [s1 r]. by exists s1, r.
  - pose proof (silent_filter e s) as Hq.
    destruct (Feed.filter e s) as [s1 r]. by exists s1, r.
  - pose proof (silent_reject e s) as Hq.
    destruct (Feed.reject e s) as [s1 r]. by exists s1, r.
  - pose proof (silent_fail e s) as Hq.
    destruct (Feed.fail e s) as [s1 r]. by exists s1, r.
  - eexists _, _. split; [done|]. by apply silent_same.
  - pose proof (silent_purge (filtered s) (accepted s) true s) as Hq.
    fold (Feed._purge s) in Hq.
    destruct (Feed._purge s) as [s1 r]. by exists s1, r.
  - by destruct (Hc quietly).
  - destruct (Feed.run_cache_call manager c (shared_cache s)) as [mc r'].
    eexists _, _. split; [done|]. by apply silent_same.
  - destruct (Feed.run_cache_call manager c (cache s)) as [mc r'].
    eexists _, _. split; [done|]. by apply silent_same.
Qed.

Lemma run_module_silent (manager : Manager.t)
    (rec : string -> feed -> option (feed * option pyerr)) (p : mprog) :
  calm p ->
  forall s, exists s' o,
    Feed.run_module manager rec p s = Some (s', o) /\
    (forall err, o <> Failed err) /\ silent s s'.
Proof.
  induction p as [o|c k IH]; simpl.
  - intros Ho s. exists s, o. split; [done|]. split; [done|].
    apply silent_refl.
  - intros [Hc Hk] s.
    destruct (do_call_silent manager rec c s Hc) as (s1 & r & -> & H1).
    destruct (IH r s1 (Hk r s1) s1) as (s' & o & Hrun & Ho & H2).
    exists s', o. split; [done|]. split; [done|]. by eapply silent_trans.
Qed.

Lemma handle_silent (manager : Manager.t)
    (rec : string -> feed -> option (feed * option pyerr))
    (event keyword : string) (o : outcome) (s : feed) :
  (forall err, o <> Failed err) ->
  exists s' r,
    Feed.handle manager rec event keyword o s = Some (s', r) /\ silent s s'.
Proof.
  intros Ho. destruct o as [|[|] msg|err]; simpl.
  - eexists _, _. split; [done|apply silent_refl].
  - pose proof (silent_log_once manager msg s) as Hq.
    destruct (Feed.log_once manager msg s) as [s1 r]. by exists s1, r.
  - eexists _, _. split; [done|apply silent_log].
  - by destruct (Ho err).
Qed.

Lemma silent_trace (s s' : feed) :
  silent s s' ->
  __abort s' = __abort s /\ config s' = config s /\
  exists new, trace s' = trace s ++ new /\ invocations new = [].
Proof.
  intros [[Ha (new & Ht & Hl)] (_ & Hc & _)].
  split; [done|]. split; [done|]. exists new. split; [done|].
  by apply invocations_logs.
Qed.

Lemma run_modules_in_order (manager : Manager.t)
    (rec : string -> feed -> option (feed * option pyerr))
    (event : string) (modules : list Plugin.t) :
  (forall m st, m ∈ modules -> calm (Plugin.instance m event st)) ->
  forall s,
    let order :=
      map (fun m => (event, Plugin.name m))
        (filter (fun m => enabled (config s) m = true) modules) in
    exists s' r,
      Feed.run_modules manager rec event modules s = Some (s', r) /\
      __abort s' = __abort s /\ config s' = config s /\
      exists new,
        trace s' = trace s ++ new /\
        invocations new `prefix_of` order /\
        (r = None -> __abort s = false -> invocations new = order) /\
        (__abort s = true -> invocations new = take 1 order).
Proof.
  induction modules as [|module modules IH]; intros Hcalm s; simpl.
  - exists s, None. split; [done|]. split; [done|]. split; [done|].
    exists []. by rewrite app_nil_r.
  - assert (forall m st, m ∈ modules -> calm (Plugin.instance m event st))
      as Hcalm'.
    { intros m st Hm. apply Hcalm. by right. }
    destruct (has_key (Plugin.name module) (config s)
              || Plugin.builtin module) eqn:Hen.
    2:{ rewrite filter_cons_False; [by apply IH|].
        unfold enabled. congruence. }
    rewrite filter_cons_True; [|exact Hen].
    set (keyword := Plugin.name module).
    set (rest := map (fun m => (event, Plugin.name m))
                   (filter (fun m => enabled (config s) m = true) modules)).
    set (s3 := observe [Invoked event keyword]
                 (set_current event keyword
                    (Feed.__set_namespace manager keyword s))).
    destruct (run_module_silent manager rec (Plugin.instance module event s3))
      with (s := s3) as (s4 & o & -> & Ho & H4);
      [apply Hcalm; by left|].
    destruct (handle_silent manager rec event keyword o s4 Ho)
      as (s5 & r5 & -> & H5).
    pose proof (silent_purge (rejected s5) [] true s5) as H6.
    fold (Feed.__purge_rejected s5) in H6.
    pose proof (silent_purge (failed (Feed.__purge_rejected s5).1) [] false
                  (Feed.__purge_rejected s5).1) as H7.
    fold (Feed.__purge_failed (Feed.__purge_rejected s5).1) in H7.
    (* every state of the round after the call *)
    assert (forall sx, silent s3 sx ->
              __abort sx = __abort s /\ config sx = config s /\
              exists new, trace sx = trace s ++ new /\
                          invocations new = [(event, keyword)]) as Hround.
    { intros sx Hsx.
      destruct (silent_trace s3 sx Hsx) as (Ha & Hc & new & Ht & Hi).
      split; [done|]. split; [done|].
      exists (Invoked event keyword :: new). split.
      - rewrite Ht. simpl. by rewrite <- app_assoc.
      - simpl. by rewrite Hi. }
    (* leaving the loop after this round *)
    assert (forall sx (r : option pyerr),
              silent s3 sx -> (r = None -> __abort sx = true) ->
              __abort sx = __abort s /\ config sx = config s /\
              exists new,
                trace sx = trace s ++ new /\
                invocations new `prefix_of` (event, keyword) :: rest /\
                (r = None -> __abort s = false ->
                 invocations new = (event, keyword) :: rest) /\
                (__abort s = true ->
                 invocations new = take 1 ((event, keyword) :: rest)))
      as Hstop.
    { intros sx r Hsx Hr. destruct (Hround sx Hsx) as (Ha & Hc & new & Ht & Hi).
      split; [done|]. split; [done|]. exists new. split; [done|].
      rewrite Hi. split; [apply prefix_cons, prefix_nil|]. split; [|done].
      intros Hn Hf. rewrite (Hr Hn) in Ha. congruence. }
    assert (silent s3 s5) as H35 by by eapply silent_trans.
    destruct r5 as [err|].
    { exists s5, (Some err). split; [done|]. by apply Hstop. }
    destruct (Feed.__purge_rejected s5) as [s6 r6]. simpl in H6, H7.
    assert (silent s3 s6) as H36 by by eapply silent_trans.
    destruct r6 as [err|].
    { exists s6, (Some err). split; [done|]. by apply Hstop. }
    destruct (Feed.__purge_failed s6) as [s7 r7]. simpl in H7.
    assert (silent s3 s7) as H37 by by eapply silent_trans.
    destruct r7 as [err|].
    { exists s7, (Some err). split; [done|]. by apply Hstop. }
    destruct (__abort s7) eqn:Hflag.
    { exists s7, None. split; [done|]. by apply Hstop. }
    destruct (Hround s7 H37) as (Ha7 & Hc7 & new7 & Ht7 & Hi7).
    destruct (IH Hcalm' s7)
      as (s' & r & -> & Ha & Hc & new & Ht & Hp & Hall & _).
    exists s', r. split; [done|]. split; [congruence|].
    split; [congruence|]. exists (new7 ++ new).
    split; [by rewrite Ht, Ht7, app_assoc|].
    rewrite invocations_app, Hi7. rewrite Hc7 in Hp, Hall.
    split; [|split].
    + by apply (prefix_cons (event, keyword)).
    + intros Hr Hf. simpl. rewrite Hall; [done|done|congruence].
    + intros Hf. congruence.
Qed.

Lemma run_event_in_order (manager : Manager.t) (fuel : nat)
    (event : string) (s : feed) :
  (forall m st,
     m ∈ Manager.get_modules_by_event manager event ->
     calm (Plugin.instance m event st)) ->
  exists s' r,
    Feed.__run_event manager (S fuel) event s = Some (s', r) /\
    __abort s' = __abort s /\ config s' = config s /\
    exists new,
      trace s' = trace s ++ new /\
      invocations new `prefix_of` event_calls manager s event /\
      (r = None -> __abort s = false ->
       invocations new = event_calls manager s event) /\
      (__abort s = true ->
       invocations new = take 1 (event_calls manager s event)).
Proof.
  intros Hcalm. cbn [Feed.__run_event].
  apply (run_modules_in_order manager (Feed.__run_event manager fuel) event
           (Feed.dispatch_order
              (Manager.get_modules_by_event manager event) event s)).
  intros m st Hm. apply Hcalm. by rewrite dispatch_order_perm in Hm.
Qed.

(** X23: modules that neither call [abort] nor fail are all called, in
    dispatch order. When the event methods registered for an event are
    such, the dispatcher returns with the abort flag as it was, and the
    methods it has called are, in order, those of the modules in
    dispatch order that are configured or built in: all of them when no
    exception ends the round and the feed was not aborted before, a
    first part of them otherwise. *)
Theorem calm_modules_run_in_order (manager : Manager.t) (fuel : nat)
    (event : string) (s : feed) :
  (forall m st,
     m ∈ Manager.get_modules_by_event manager event ->
     calm (Plugin.instance m event st)) ->
  exists s' r,
    Feed.__run_event manager (S fuel) event s = Some (s', r) /\
    __abort s' = __abort s /\
    exists new,
      trace s' = trace s ++ new /\
      invocations new `prefix_of` event_calls manager s event /\
      (r = None -> __abort s = false ->
       invocations new = event_calls manager s event).
Proof.
  intros Hcalm.
  destruct (run_event_in_order manager fuel event s Hcalm)
    as (s' & r & Hrun & Ha & _ & new & Ht & Hp & Hall & _).
  exists s', r. split; [done|]. split; [done|]. by exists new.
Qed.

Lemma calm_modules_run_in_order_witness :
  let manager :=
    Manager.Make ["filter"] (fun _ => [tie_first; accept_module; tie_second])
      ∅ no_options ∅ 730000 (fun s => s) in
  let s := Feed.__init__ manager "feed" ∅ in
  exists s' r,
    Feed.__run_event manager 1 "filter" s = Some (s', r) /\
    __abort s' = false /\
    exists new,
      trace s' = trace s ++ new /\
      invocations new
        `prefix_of` [("filter", "second"); ("filter", "accept_all");
                     ("filter", "first")] /\
      (r = None -> false = false ->
       invocations new
       = [("filter", "second"); ("filter", "accept_all");
          ("filter", "first")]).
Proof.
  intros manager s.
  apply (calm_modules_run_in_order manager 0 "filter" s).
  intros m st Hm.
  apply elem_of_cons in Hm as [->|Hm];
    [|apply elem_of_cons in Hm as [->|Hm];
      [|apply list_elem_of_singleton in Hm as ->]].
  - intros err. done.
  - by apply calm_returned.
  - intros err. done.
Defined.

(** ** Messages logged once *)

(** X24: [log_once] logs a message once. With a namespace selected in
    the shared cache it never raises; it logs the message exactly when
    the cache holds no true flag for it; afterwards the cache holds one,
    so that a second call logs nothing. It changes nothing else of the
    feed than the shared cache and the log. *)
Theorem log_once_logs_once (manager : Manager.t) (msg : string) (s : feed)
    (ns : string) :
  ModuleCache.namespace (shared_cache s) = Some ns ->
  let s1 := (Feed.log_once manager msg s).1 in
  (Feed.log_once manager msg s).2 = None /\
  trace s1
  = (if seen_before manager msg s then trace s
     else trace s ++ [Logged INFO msg]) /\
  seen_before manager msg s1 = true /\
  (Feed.log_once manager msg s1).2 = None /\
  trace (Feed.log_once manager msg s1).1 = trace s1 /\
  cache s1 = cache s /\ lists_eq s s1 /\ __abort s1 = __abort s.
Proof.
  assert (forall s0 ns0,
            ModuleCache.namespace (shared_cache s0) = Some ns0 ->
            (Feed.log_once manager msg s0).2 = None /\
            trace (Feed.log_once manager msg s0).1
            = (if seen_before manager msg s0 then trace s0
               else trace s0 ++ [Logged INFO msg]) /\
            ModuleCache.namespace
              (shared_cache (Feed.log_once manager msg s0).1) = Some ns0 /\
            seen_before manager msg (Feed.log_once manager msg s0).1 = true /\
            cache (Feed.log_once manager msg s0).1 = cache s0 /\
            lists_eq s0 (Feed.log_once manager msg s0).1 /\
            __abort (Feed.log_once manager msg s0).1 = __abort s0) as Hone.
  { intros s0 ns0 Hns. unfold Feed.log_once, seen_before. rewrite Hns.
    set (key := ("log-" ++ Manager.md5_hexdigest manager msg)%string).
    destruct (get_effect (shared_cache s0) ns0 key (PInt 0)
                (Manager.today manager) Hns)
      as (sc1 & -> & Hns1 & Hrec1 & _).
    destruct (py_truth
                match record ns0 key (shared_cache s0) with
                | Some it => default (PInt 0) (ModuleCache.value it)
                | None => PInt 0
                end) eqn:Hseen; simpl.
    - assert (match record ns0 key (shared_cache s0) with
              | Some it => py_truth (default (PInt 0) (ModuleCache.value it))
              | None => false
              end = true) as Hs.
      { by destruct (record ns0 key (shared_cache s0)). }
      rewrite Hs, Hns1, Hrec1. repeat split; try done.
      by destruct (record ns0 key (shared_cache s0)).
    - assert (match record ns0 key (shared_cache s0) with
              | Some it => py_truth (default (PInt 0) (ModuleCache.value it))
              | None => false
              end = false) as Hs.
      { by destruct (record ns0 key (shared_cache s0)). }
      rewrite Hs.
      destruct (store_effect sc1 ns0 key (PInt 1) 30 (Manager.today manager)
                  Hns1) as (sc2 & -> & Hns2 & Hrec2 & _).
      simpl. rewrite Hns2, Hrec2. by repeat split. }
  intros Hns s1.
  destruct (Hone s ns Hns) as (Hr & Ht & Hns1 & Hseen & Hc & Hl & Ha).
  fold s1 in Ht, Hns1, Hseen, Hc, Hl, Ha.
  destruct (Hone s1 ns Hns1) as (Hr2 & Ht2 & _).
  rewrite Hseen in Ht2. done.
Qed.

Lemma log_once_logs_once_witness :
  let s := Feed.__set_namespace empty_manager "rss"
             (Feed.__init__ empty_manager "feed" ∅) in
  let s1 := (Feed.log_once empty_manager "no new entries" s).1 in
  trace s1 = [Logged INFO "no new entries"] /\
  trace (Feed.log_once empty_manager "no new entries" s1).1 = trace s1.
Proof.
  intros s s1.
  destruct (log_once_logs_once empty_manager "no new entries" s "rss" eq_refl)
    as (_ & Ht & _ & _ & Ht2 & _).
  split; [exact Ht|exact Ht2].
Defined.

(** ** The address of an input *)

(** X26: [get_input_url] reads the address of an input from either form
    of configuration: it returns a value exactly when the keyword's
    value is that value itself or a mapping holding it under [url]; it
    raises [KeyError] for a keyword that is not configured and an
    exception naming the keyword for a mapping without [url]. *)
Theorem get_input_url_forms (kw : string) (s : feed) :
  (forall url,
     Feed.get_input_url kw s = Ok url <->
     config s !! kw = Some (CfgScalar url) \/
     exists priority others,
       config s !! kw = Some (CfgDict priority others) /\
       others !! "url" = Some url) /\
  (config s !! kw = None ->
   Feed.get_input_url kw s = Raise (KeyError kw)) /\
  (forall priority others,
     config s !! kw = Some (CfgDict priority others) ->
     others !! "url" = None ->
     Feed.get_input_url kw s
     = Raise (OtherError
                ("Input " ++ kw ++
                 " has invalid configuration, url is missing.")%string)).
Proof.
  unfold Feed.get_input_url. split; [|split].
  - intros url. destruct (config s !! kw) as [[v|p others]|] eqn:Hc.
    + split.
      * intros [= ->]. by left.
      * intros [[= ->]|(p & o & [=] & _)]. done.
    + destruct (others !! "url") as [u|] eqn:Hu.
      * split.
        -- intros [= ->]. right. by exists p, others.
        -- intros [[=]|(p' & o' & [= <- <-] & Hu')]. congruence.
      * split; [done|].
        intros [[=]|(p' & o' & [= <- <-] & Hu')]. congruence.
    + split; [done|]. by intros [[=]|(p & o & [=] & _)].
  - by intros ->.
  - intros p others -> ->. done.
Qed.

Lemma get_input_url_forms_witness :
  Feed.get_input_url "rss" (shop_feed no_options) = Ok (PStr "http://x/rss") /\
  Feed.get_input_url "download" (shop_feed no_options) = Ok (PStr "/tmp").
Proof.
  split.
  - apply (proj2 (proj1 (get_input_url_forms "rss" (shop_feed no_options))
                    (PStr "http://x/rss"))).
    left. vm_compute. reflexivity.
  - apply (proj2 (proj1 (get_input_url_forms "download"
                           (shop_feed no_options)) (PStr "/tmp"))).
    right. exists None, {["url" := PStr "/tmp"]}.
    split; vm_compute; reflexivity.
Defined.

(** ** The details option *)

(** X27: with the details option, a run stops after the input event as
    soon as that event leaves entries. [verbose_details_entries] calls
    [verbose_details] without its [reason] argument, so the loop of
    [execute] ends in a [TypeError] ([KeyError] when the first entry has
    no title) and no later event is run. *)
Theorem details_option_stops_after_input (manager : Manager.t) (fuel : nat)
    (events : list string) (s s1 s2 : feed) (e : entry) (rest : list entry) :
  Manager.details (Manager.opts manager) = true ->
  Feed.__run_event manager fuel "input" s = Some (s1, None) ->
  Feed._purge s1 = (s2, None) ->
  entries s2 = e :: rest ->
  Feed.run_events manager fuel ("input" :: events) s
  = Some (s2, Some match e !! "title" with
                   | Some _ => Feed.missing_reason
                   | None => KeyError "title"
                   end).
Proof.
  intros Hopt Hev Hp He. cbn [Feed.run_events].
  rewrite andb_false_r, Hev, Hp.
  unfold Feed.progress, Feed.verbose_details_entries. simpl.
  rewrite Hopt, He. unfold Feed.title_of, Entry.getitem.
  by destruct (e !! "title").
Qed.

Lemma details_option_stops_after_input_witness :
  let manager := shop_manager details_options in
  let s := shop_feed details_options in
  let s1 := from_option fst s (Feed.__run_event manager 3 "input" s) in
  Feed.run_events manager 3 ["input"; "filter"; "download"; "output"] s
  = Some ((Feed._purge s1).1, Some Feed.missing_reason).
Proof.
  intros manager s s1.
  apply (details_option_stops_after_input manager 3
           ["filter"; "download"; "output"] s s1 (Feed._purge s1).1
           entry_a [entry_b] eq_refl).
  - by_run.
  - apply pair_result. vm_compute. reflexivity.
  - by_decide.
Defined.

(** ** Aborting, and the events of a run *)

Lemma event_calls_config (manager : Manager.t) (s s' : feed) (ev : string) :
  config s' = config s ->
  event_calls manager s' ev = event_calls manager s ev.
Proof.
  intros Hc. unfold event_calls, Feed.dispatch_order, Feed.__sort_modules,
    Feed.__get_priority. by rewrite Hc.
Qed.

(** X28: an abort calls one module of the abort event. [abort] sets the
    flag before it dispatches the abort event, and the dispatcher leaves
    its loop after the first module it calls when the flag is set: when
    the modules of the abort event neither call [abort] nor fail,
    [abort] returns with the flag set, having logged "Aborting feed"
    when the feed was not aborted yet and the call not silent, and
    having called the method of the first module in dispatch order that
    is configured or built in, and no other. *)
Theorem abort_calls_one_module (manager : Manager.t) (fuel : nat)
    (quietly : bool) (s : feed) :
  (forall m st,
     m ∈ Manager.get_modules_by_event manager "abort" ->
     calm (Plugin.instance m "abort" st)) ->
  exists s' r,
    Feed.abort (Feed.__run_event manager (S fuel)) quietly s = Some (s', r) /\
    __abort s' = true /\
    exists new,
      trace s'
      = trace s ++
          (if negb (__abort s) && negb quietly
           then [Logged INFO ("Aborting feed " ++ name s)%string]
           else []) ++ new /\
      invocations new = take 1 (event_calls manager s "abort").
Proof.
  intros Hcalm. unfold Feed.abort.
  set (s1 := set_abort true _).
  destruct (run_event_in_order manager fuel "abort" s1 Hcalm)
    as (s' & r & Hrun & Ha & _ & new & Ht & _ & _ & Hone).
  exists s', r. split; [done|]. split; [by rewrite Ha|].
  exists new. split.
  - rewrite Ht. unfold s1. case_match; simpl; [|done].
    by rewrite <- app_assoc.
  - rewrite (Hone eq_refl). f_equal. apply event_calls_config.
    unfold s1. by case_match.
Qed.

Lemma abort_calls_one_module_witness :
  let manager :=
    Manager.Make [] (fun _ => [tie_first; notify_module; tie_second])
      ∅ no_options ∅ 730000 (fun s => s) in
  let s := Feed.__init__ manager "feed" ∅ in
  exists s' r,
    Feed.abort (Feed.__run_event manager 1) false s = Some (s', r) /\
    __abort s' = true /\
    exists new,
      trace s' = trace s ++ [Logged INFO "Aborting feed feed"] ++ new /\
      invocations new = [("abort", "second")].
Proof.
  intros manager s.
  apply (abort_calls_one_module manager 0 false s).
  intros m st Hm.
  apply elem_of_cons in Hm as [->|Hm];
    [|apply elem_of_cons in Hm as [->|Hm];
      [|apply list_elem_of_singleton in Hm as ->]];
    intros err; done.
Defined.

(** X29: a run without failures goes through the events in the
    manager's order. When no event method calls [abort] or fails, the
    loop of [execute] over the events returns with the abort flag as it
    was, and the methods it has called are, event after event in the
    given order and leaving out the events skipped when learning, those
    of the modules in dispatch order that are configured or built in:
    all of them when no exception ends the loop and the feed was not
    aborted before, a first part of them otherwise. *)
Theorem calm_events_run_in_order (manager : Manager.t) (fuel : nat)
    (events : list string) (s : feed) :
  (forall ev m st,
     m ∈ Manager.get_modules_by_event manager ev ->
     calm (Plugin.instance m ev st)) ->
  let order :=
    flat_map (event_calls manager s)
      (filter (fun ev => skipped manager ev = false) events) in
  exists s' r,
    Feed.run_events manager (S fuel) events s = Some (s', r) /\
    __abort s' = __abort s /\
    exists new,
      trace s' = trace s ++ new /\
      invocations new `prefix_of` order /\
      (r = None -> __abort s = false -> invocations new = order).
Proof.
  intros Hcalm. revert s.
  induction events as [|event events IH]; intros s; cbn zeta.
  - exists s, None. split; [done|]. split; [done|]. exists [].
    by rewrite app_nil_r.
  - cbn [Feed.run_events].
    assert (forall s0, config s0 = config s ->
              flat_map (event_calls manager s0)
                (filter (fun ev => skipped manager ev = false) events)
              = flat_map (event_calls manager s)
                  (filter (fun ev => skipped manager ev = false) events))
      as Hsame.
    { intros s0 Hc. generalize (filter (fun ev => skipped manager ev = false)
                                  events). intros l.
      induction l as [|ev l IHl]; [done|]. simpl.
      by rewrite IHl, (event_calls_config manager s s0 ev Hc). }
    destruct (Manager.learn (Manager.opts manager) &&
              (String.eqb event "download" || String.eqb event "output"))
      eqn:Hskip.
    { rewrite filter_cons_False; [|unfold skipped; congruence].
      destruct (silent_trace _ _ (silent_log_not_executed manager event s))
        as (Ha0 & Hc0 & new0 & Ht0 & Hi0).
      destruct (IH (Feed.log_not_executed manager event s))
        as (s' & r & -> & Ha & new & Ht & Hp & Hall).
      rewrite (Hsame _ Hc0) in Hp, Hall.
      exists s', r. split; [done|]. split; [congruence|].
      exists (new0 ++ new). split; [by rewrite Ht, Ht0, app_assoc|].
      rewrite invocations_app, Hi0. simpl. split; [done|].
      intros Hr Hf. apply Hall; [done|congruence]. }
    rewrite filter_cons_True; [|exact Hskip]. cbn [flat_map].
    set (rest := flat_map (event_calls manager s)
                   (filter (fun ev => skipped manager ev = false) events)).
    destruct (run_event_in_order manager fuel event s (Hcalm event))
      as (s1 & r1 & -> & Ha1 & Hc1 & new1 & Ht1 & Hp1 & Hall1 & _).
    (* leaving the loop after this event *)
    assert (forall sx (r : option pyerr),
              silent s1 sx -> (r = None -> __abort sx = true) ->
              __abort sx = __abort s /\
              exists new,
                trace sx = trace s ++ new /\
                invocations new `prefix_of` event_calls manager s event ++ rest /\
                (r = None -> __abort s = false ->
                 invocations new = event_calls manager s event ++ rest))
      as Hstop.
    { intros sx r Hsx Hr.
      destruct (silent_trace s1 sx Hsx) as (Ha & Hc & new & Ht & Hi).
      split; [congruence|]. exists (new1 ++ new).
      split; [by rewrite Ht, Ht1, app_assoc|].
      rewrite invocations_app, Hi, app_nil_r.
      split; [by apply prefix_app_r|].
      intros Hn Hf. rewrite (Hr Hn) in Ha. congruence. }
    destruct r1 as [err|].
    { exists s1, (Some err). split; [done|].
      by apply Hstop; [apply silent_refl|]. }
    pose proof (silent_purge (filtered s1) (accepted s1) true s1) as H2.
    fold (Feed._purge s1) in H2.
    destruct (Feed._purge s1) as [s2 r2]. simpl in H2.
    destruct r2 as [err|].
    { exists s2, (Some err). split; [done|]. by apply Hstop. }
    pose proof (silent_progress manager event s2) as H3.
    destruct (Feed.progress manager event s2) as [s3 r3]. simpl in H3.
    assert (silent s1 s3) as H13 by by eapply silent_trans.
    destruct r3 as [err|].
    { exists s3, (Some err). split; [done|]. by apply Hstop. }
    destruct (__abort s3) eqn:Hflag.
    { exists s3, None. split; [done|]. by apply Hstop. }
    destruct (silent_trace s1 s3 H13) as (Ha3 & Hc3 & new3 & Ht3 & Hi3).
    destruct (IH s3) as (s' & r & -> & Ha & new & Ht & Hp & Hall).
    rewrite (Hsame s3) in Hp, Hall by congruence.
    exists s', r. split; [done|]. split; [congruence|].
    exists (new1 ++ new3 ++ new).
    split; [by rewrite Ht, Ht3, Ht1, !app_assoc|].
    rewrite !invocations_app, Hi3. simpl.
    assert (__abort s = false) as Hf by congruence.
    rewrite (Hall1 eq_refl Hf). split; [by apply prefix_app|].
    intros Hr _. rewrite Hall; [done|done|congruence].
Qed.

Lemma shop_modules_calm (o : Manager.options) (ev : string) (m : Plugin.t)
    (st : feed) :
  m ∈ Manager.get_modules_by_event (shop_manager o) ev ->
  calm (Plugin.instance m ev st).
Proof.
  simpl. intros Hm.
  assert (m = rss_module \/ m = judge_module \/ m = download_module \/
          m = notify_module) as Hcases.
  { repeat case_match; try (by apply elem_of_nil in Hm);
      apply list_elem_of_singleton in Hm; auto. }
  destruct Hcases as [->|[->|[->| ->]]]; simpl.
  - case_match; [|by intros err].
    split; [done|]. intros r s. split; [done|]. by intros r' s' err.
  - split; [done|]. intros r s. split; [done|]. by intros r' s' err.
  - by intros err.
  - by intros err.
Qed.

Lemma calm_events_run_in_order_witness :
  let manager := shop_manager learn_options in
  let s := shop_feed learn_options in
  exists s' r,
    Feed.run_events manager 1 ["input"; "filter"; "download"; "output"] s
    = Some (s', r) /\
    __abort s' = false /\
    exists new,
      trace s' = trace s ++ new /\
      invocations new `prefix_of` [("input", "rss"); ("filter", "judge")] /\
      (r = None -> false = false ->
       invocations new = [("input", "rss"); ("filter", "judge")]).
Proof.
  intros manager s.
  apply (calm_events_run_in_order manager 0
           ["input"; "filter"; "download"; "output"] s).
  apply shop_modules_calm.
Defined.
